(** * BreakGuard: the syntax extractor, the project scanner and the
      compatibility classifier, embedded from the Python sources

    - [analyzer/code_analyzer.py]: [extract_api_calls_ast],
      [extract_api_calls_regex], [scan_project];
    - [checker/compatibility_checker.py]: [check_api], [check_project],
      [_build_context], [_get_break_message], [_get_migration];
    - [breakguard.py]: [main], from the test of the path to the writing of
      the JSON file, and [format_similarity_bar].

    Conventions of the embedding.
    - A Python [str] that is matched character by character (the text of a
      source file) is a list of code points; names, paths and messages are
      Rocq strings holding the UTF-8 bytes.
    - A Python exception is a value of [PyExn]; a call that may raise returns
      [PyExn + A].
    - A [set] of names is a [gset string], a [dict] whose iteration order is
      observable is an association list in insertion order, a [dict] that
      is only looked up and counted is a [gmap].
    - Similarity scores are binary64 floats, compared with the primitive
      comparison, so the thresholds are the doubles Python reads from the
      literals [0.85] and [0.95]. *)

From Stdlib Require Import Floats ZArith NArith String Ascii List Bool Lia.
From Stdlib Require Import Init.Byte.
From Stdlib Require Strings.Byte.
From stdpp Require Import gmap strings list fin_maps sorting.
Import ListNotations.

Set Warnings "-inexact-float".
Local Open Scope string_scope.

(** ** Python runtime pieces *)
Module Py.

Inductive ExnKind :=
| OSError | ValueError | KeyError | TypeError | AttributeError | ServiceError
| OverflowError.

(** An exception: its class and what [str(e)] gives. *)
Record PyExn := mkExn { exn_kind : ExnKind; exn_str : string }.

Definition result (A : Type) : Type := (PyExn + A)%type.

Definition ret {A} (a : A) : result A := inr a.
Definition raise {A} (k : ExnKind) (msg : string) : result A := inl (mkExn k msg).
Definition bind {A B} (m : result A) (f : A -> result B) : result B :=
  match m with inl e => inl e | inr a => f a end.

(** [sorted(xs)] on strings: Python compares [str] by code point, which on
    UTF-8 bytes is the byte-wise lexicographic order. *)
Definition str_le (a b : string) : Prop := String.leb a b = true.

#[global] Instance str_le_dec : RelDecision str_le :=
  fun a b => decide (String.leb a b = true).

Definition sorted (xs : list string) : list string := merge_sort str_le xs.

(** [sorted(s)] for a set [s]. *)
Definition sorted_set (s : gset string) : list string := sorted (elements s).

(** [s.update(xs)]. *)
Definition set_update (s : gset string) (xs : list string) : gset string :=
  s ∪ list_to_set xs.

(** [x in names] for a tuple, set or dict of string keys given as a list. *)
Definition mem (x : string) (names : list string) : bool :=
  existsb (String.eqb x) names.

(** A dict in insertion order. [d[k] = v] replaces the value of an
    existing key in place and appends a new key. *)
Fixpoint dict_set {V} (d : list (string * V)) (k : string) (v : V) : list (string * V) :=
  match d with
  | [] => [(k, v)]
  | (k', v') :: d' =>
      if String.eqb k' k then (k, v) :: d' else (k', v') :: dict_set d' k v
  end.

(** [d.get(k)], [None] when the key is absent. *)
Fixpoint dict_get {V} (d : list (string * V)) (k : string) : option V :=
  match d with
  | [] => None
  | (k', v) :: d' => if String.eqb k' k then Some v else dict_get d' k
  end.

End Py.
Export Py.

Notation "'let!' x ':=' m 'in' k" := (Py.bind m (fun x => k))
  (at level 10, x name, m at level 100, k at level 200).

(** ** Text of a source file *)
Module Text.

(** A decoded [str]: its code points. *)
Definition text := list N.

Definition of_string (s : string) : text := map N_of_ascii (list_ascii_of_string s).

(** UTF-8 bytes of one code point. *)
Definition utf8_encode1 (c : N) : list N :=
  if (c <? 0x80)%N then [c]
  else if (c <? 0x800)%N then
    [N.lor 0xC0 (N.shiftr c 6); N.lor 0x80 (N.land c 0x3F)]
  else if (c <? 0x10000)%N then
    [N.lor 0xE0 (N.shiftr c 12); N.lor 0x80 (N.land (N.shiftr c 6) 0x3F);
     N.lor 0x80 (N.land c 0x3F)]
  else
    [N.lor 0xF0 (N.shiftr c 18); N.lor 0x80 (N.land (N.shiftr c 12) 0x3F);
     N.lor 0x80 (N.land (N.shiftr c 6) 0x3F); N.lor 0x80 (N.land c 0x3F)].

(** A piece of text as a name (UTF-8 bytes). *)
Definition to_string (t : text) : string :=
  string_of_list_ascii (map ascii_of_N (concat (map utf8_encode1 t))).

Definition is_cont (b : N) : bool := ((0x80 <=? b) && (b <=? 0xBF))%N.

(** The second byte of a three-byte sequence: a continuation byte that
    makes neither an overlong form ([E0 80..9F]) nor a surrogate
    ([ED A0..BF]). *)
Definition second_of_3 (b1 b2 : N) : bool :=
  is_cont b2 && negb (if (b2 <? 0xA0)%N then (b1 =? 0xE0)%N else (b1 =? 0xED)%N).

(** The second byte of a four-byte sequence: no overlong form ([F0 80..8F])
    and nothing above U+10FFFF ([F4 90..BF]). *)
Definition second_of_4 (b1 b2 : N) : bool :=
  is_cont b2 && negb (if (b2 <? 0x90)%N then (b1 =? 0xF0)%N else (b1 =? 0xF4)%N).

Definition low6 (b : N) : N := N.land b 0x3F.

(** [bytes.decode("utf-8", errors="ignore")]: every ill-formed piece (an
    invalid start byte; a start byte with the valid continuation bytes
    that follow it, when the next byte does not continue the sequence; a
    sequence cut by the end of the data) is dropped and decoding resumes
    right after it. *)
Fixpoint decode_utf8_ignore (bs : list N) : text :=
  match bs with
  | [] => []
  | b1 :: r1 =>
      if (b1 <? 0x80)%N then b1 :: decode_utf8_ignore r1
      else if (b1 <? 0xC2)%N then decode_utf8_ignore r1
      else if (b1 <? 0xE0)%N then
        match r1 with
        | [] => []
        | b2 :: r2 =>
            if is_cont b2
            then N.lor (N.shiftl (N.land b1 0x1F) 6) (low6 b2) :: decode_utf8_ignore r2
            else decode_utf8_ignore r1
        end
      else if (b1 <? 0xF0)%N then
        match r1 with
        | [] => []
        | b2 :: r2 =>
            if second_of_3 b1 b2 then
              match r2 with
              | [] => []
              | b3 :: r3 =>
                  if is_cont b3
                  then N.lor (N.shiftl (N.land b1 0x0F) 12)
                         (N.lor (N.shiftl (low6 b2) 6) (low6 b3))
                       :: decode_utf8_ignore r3
                  else decode_utf8_ignore r2
              end
            else decode_utf8_ignore r1
        end
      else if (b1 <? 0xF5)%N then
        match r1 with
        | [] => []
        | b2 :: r2 =>
            if second_of_4 b1 b2 then
              match r2 with
              | [] => []
              | b3 :: r3 =>
                  if is_cont b3 then
                    match r3 with
                    | [] => []
                    | b4 :: r4 =>
                        if is_cont b4
                        then N.lor (N.shiftl (N.land b1 0x07) 18)
                               (N.lor (N.shiftl (low6 b2) 12)
                                  (N.lor (N.shiftl (low6 b3) 6) (low6 b4)))
                             :: decode_utf8_ignore r4
                        else decode_utf8_ignore r3
                    end
                  else decode_utf8_ignore r2
              end
            else decode_utf8_ignore r1
        end
      else decode_utf8_ignore r1
  end.

(** Text mode with the default [newline=None]: ["\r\n"] and a lone ["\r"]
    are read as ["\n"]. *)
Fixpoint universal_newlines (t : text) : text :=
  match t with
  | [] => []
  | 13%N :: t' =>
      match t' with
      | 10%N :: t'' => 10%N :: universal_newlines t''
      | _ => 10%N :: universal_newlines t'
      end
  | c :: t' => c :: universal_newlines t'
  end.

(** What [f.read()] returns for a file opened with
    [open(path, "r", encoding="utf-8", errors="ignore")] that holds [bs]. *)
Definition read_text (bs : list byte) : text :=
  universal_newlines (decode_utf8_ignore (map Strings.Byte.to_N bs)).

End Text.
Export Text.

(** ** The regular expressions of the lexical extractor

    The fragment of Python's [re] that the seven patterns of
    [extract_api_calls_regex] use, with [re]'s backtracking semantics:
    alternatives are tried left to right, [*] and [+] are greedy, and the
    first way to match at the leftmost position wins. *)
Module Re.

Inductive regex :=
| Lit (s : string)
| Cls (p : N -> bool)
| Star (p : N -> bool)
| Plus (p : N -> bool)
| WordB
| Seq (r1 r2 : regex)
| Alt (r1 r2 : regex)
| Group (r : regex).

(** [a|b|c] for literal alternatives. *)
Fixpoint alts (first : string) (rest : list string) : regex :=
  match rest with
  | [] => Lit first
  | b :: rest' => Alt (Lit first) (alts b rest')
  end.

(** A match: where it starts and ends, and the text of group 1. *)
Record rmatch := mkMatch { m_start : nat; m_end : nat; m_group1 : text }.

Section Matcher.
(** [str.isalnum] on the code points above ASCII (a table of the
    Unicode database, not reproduced here). *)
Variable unicode_alnum : N -> bool.

(** [\s] on a [str] pattern: the Unicode white space. *)
Definition is_space (c : N) : bool :=
  (((0x09 <=? c) && (c <=? 0x0D)) || ((0x1C <=? c) && (c <=? 0x20))
   || (c =? 0x85) || (c =? 0xA0) || (c =? 0x1680)
   || ((0x2000 <=? c) && (c <=? 0x200A))
   || (c =? 0x2028) || (c =? 0x2029) || (c =? 0x202F) || (c =? 0x205F)
   || (c =? 0x3000))%N.

(** [\w] on a [str] pattern: alphanumeric or the underscore. *)
Definition is_word (c : N) : bool :=
  if (c <? 0x80)%N then
    (((0x30 <=? c) && (c <=? 0x39)) || ((0x41 <=? c) && (c <=? 0x5A))
     || ((0x61 <=? c) && (c <=? 0x7A)) || (c =? 0x5F))%N
  else unicode_alnum c.

Definition is_word_at (c : option N) : bool :=
  match c with Some c => is_word c | None => false end.

(** The state of a match in progress is the position, the character
    before it, the text from it on and group 1 so far; [K] is what
    remains to be matched. *)
Definition K : Type := nat -> option N -> text -> option text -> option (nat * text).

Fixpoint lit (l : list ascii) (pos : nat) (prev : option N) (s : text)
    (k : nat -> option N -> text -> option (nat * text)) : option (nat * text) :=
  match l with
  | [] => k pos prev s
  | c :: l' =>
      match s with
      | d :: s' => if (N_of_ascii c =? d)%N then lit l' (S pos) (Some d) s' k else None
      | [] => None
      end
  end.

Fixpoint star (p : N -> bool) (pos : nat) (prev : option N) (s : text)
    (k : nat -> option N -> text -> option (nat * text)) : option (nat * text) :=
  match s with
  | c :: s' =>
      if p c then
        match star p (S pos) (Some c) s' k with
        | Some r => Some r
        | None => k pos prev s
        end
      else k pos prev s
  | [] => k pos prev s
  end.

Fixpoint run (r : regex) (pos : nat) (prev : option N) (s : text)
    (cap : option text) (k : K) : option (nat * text) :=
  match r with
  | Lit l => lit (list_ascii_of_string l) pos prev s (fun pos' prev' s' => k pos' prev' s' cap)
  | Cls p =>
      match s with
      | c :: s' => if p c then k (S pos) (Some c) s' cap else None
      | [] => None
      end
  | Star p => star p pos prev s (fun pos' prev' s' => k pos' prev' s' cap)
  | Plus p =>
      match s with
      | c :: s' =>
          if p c then star p (S pos) (Some c) s' (fun pos' prev' s' => k pos' prev' s' cap)
          else None
      | [] => None
      end
  | WordB =>
      if xorb (is_word_at prev) (is_word_at (head s)) then k pos prev s cap else None
  | Seq r1 r2 =>
      run r1 pos prev s cap (fun pos' prev' s' cap' => run r2 pos' prev' s' cap' k)
  | Alt r1 r2 =>
      match run r1 pos prev s cap k with
      | Some x => Some x
      | None => run r2 pos prev s cap k
      end
  | Group r1 =>
      run r1 pos prev s cap
        (fun pos' prev' s' _ => k pos' prev' s' (Some (firstn (pos' - pos) s)))
  end.

(** [pattern.match] at one position: the end of the match and group 1
    (empty when the pattern has no group). *)
Definition match_at (r : regex) (pos : nat) (prev : option N) (s : text)
    : option (nat * text) :=
  run r pos prev s None (fun pos' _ _ cap => Some (pos', default [] cap)).

(** [re.finditer]: the matches from left to right, none overlapping
    another. [skip] counts the characters of the last match that are
    still to be passed. *)
Fixpoint finditer_from (r : regex) (pos : nat) (prev : option N) (s : text)
    (skip : nat) {struct s} : list rmatch :=
  match skip with
  | S n =>
      match s with
      | c :: s' => finditer_from r (S pos) (Some c) s' n
      | [] => []
      end
  | O =>
      match match_at r pos prev s with
      | Some (e, g) =>
          mkMatch pos e g ::
            match s with
            | c :: s' => finditer_from r (S pos) (Some c) s' (e - pos - 1)
            | [] => []
            end
      | None =>
          match s with
          | c :: s' => finditer_from r (S pos) (Some c) s' 0
          | [] => []
          end
      end
  end.

Definition finditer (r : regex) (code : text) : list rmatch :=
  finditer_from r 0 None code 0.

(** [re.search(...)] used as a condition. *)
Definition search (r : regex) (code : text) : bool :=
  match finditer r code with [] => false | _ => true end.

End Matcher.
End Re.
Export Re.

(** ** [analyzer/code_analyzer.py] *)
Module Analyzer.

(** *** Known React API patterns *)

Definition REACT_HOOKS : list string :=
  ["useState"; "useEffect"; "useContext"; "useReducer";
   "useCallback"; "useMemo"; "useRef"; "useImperativeHandle";
   "useLayoutEffect"; "useDebugValue"; "useId"; "useTransition";
   "useDeferredValue"; "useInsertionEffect"; "useSyncExternalStore"].

Definition REACT_MEMBER_APIS : list (string * list string) :=
  [("ReactDOM",
    ["render"; "hydrate"; "unmountComponentAtNode";
     "findDOMNode"; "createPortal"; "flushSync"]);
   ("React",
    ["createElement"; "cloneElement"; "createRef";
     "forwardRef"; "memo"; "lazy"; "createContext";
     "isValidElement"; "startTransition"])].

Definition REACT_COMPONENT_APIS : list string :=
  ["React.Component"; "React.PureComponent"; "React.Fragment";
   "React.Suspense"; "React.StrictMode"; "React.Profiler"].

Definition REACT_IMPORTS : list string := ["createRoot"; "hydrateRoot"].

(** *** The syntax tree

    What [ast.toDict()] gives: dicts (in key order), lists and scalars.
    Numbers are kept as integers; the walk only tests a number for being
    zero and never looks at its value otherwise. *)
#[local] Unset Elimination Schemes.
Inductive json :=
| JNull
| JBool (b : bool)
| JNum (n : Z)
| JStr (s : string)
| JList (items : list json)
| JDict (fields : list (string * json)).
#[local] Set Elimination Schemes.

(** [fields.get(k, d)] on the fields of a dict. *)
Definition field (fields : list (string * json)) (k : string) (d : json) : json :=
  default d (dict_get fields k).

(** [o.get(k, d)]: only a dict has the method. *)
Definition get (o : json) (k : string) (d : json) : result json :=
  match o with
  | JDict fields => ret (field fields k d)
  | _ => raise AttributeError "object has no attribute 'get'"
  end.

(** [x == s] for a string literal [s]. *)
Definition is_str (x : json) (s : string) : bool :=
  match x with JStr t => String.eqb t s | _ => false end.

(** [x in names] where [names] is a set or the keys of a dict: [x] is
    hashed first, which a list or a dict refuses. *)
Definition hashed_in (x : json) (names : list string) : result bool :=
  match x with
  | JStr t => ret (mem t names)
  | JList _ | JDict _ => raise TypeError "unhashable type"
  | _ => ret false
  end.

(** [x in (a, b)] for a tuple of string literals: equality tests only. *)
Definition eq_in (x : json) (names : list string) : bool :=
  match x with JStr t => mem t names | _ => false end.

(** Truth value of [x], as [or] tests it. *)
Definition truthy (x : json) : bool :=
  match x with
  | JNull => false
  | JBool b => b
  | JNum n => negb (n =? 0)%Z
  | JStr t => negb (String.eqb t "")
  | JList items => match items with [] => false | _ => true end
  | JDict fields => match fields with [] => false | _ => true end
  end.

(** The name an f-string inserts, when [x] is a [str]. For any other
    value Python inserts [None], [True], [False], a numeral or a
    bracketed display, and ["React."] followed by one of those is no
    member of [REACT_COMPONENT_APIS]. *)
Definition inserted_name (x : json) : option string :=
  match x with JStr t => Some t | _ => None end.

(** [for spec in specifiers]: the items of a list, the keys of a dict,
    the characters of a [str] (neither of the last two is a dict, so
    the loop body skips them); anything else is not iterable. *)
Definition iterate (x : json) : result (list json) :=
  match x with
  | JList items => ret items
  | JDict fields => ret (map (fun kv => JStr (fst kv)) fields)
  | JStr t => ret (map (fun c => JStr (String c EmptyString)) (list_ascii_of_string t))
  | _ => raise TypeError "object is not iterable"
  end.

Definition add (name : string) (api_calls : gset string) : gset string :=
  {[ name ]} ∪ api_calls.

(** *** The five node shapes of [walk] *)

(** MemberExpression: [ReactDOM.render], [React.createElement]. *)
Definition visit_member (node : list (string * json)) (api_calls : gset string)
    : result (gset string) :=
  let obj := field node "object" (JDict []) in
  let prop := field node "property" (JDict []) in
  let! obj_name := get obj "name" (JStr "") in
  let! prop_name := get prop "name" (JStr "") in
  let! known_owner := hashed_in obj_name (map fst REACT_MEMBER_APIS) in
  let! api_calls :=
    if known_owner then
      match obj_name with
      | JStr owner =>
          let! known := hashed_in prop_name (default [] (dict_get REACT_MEMBER_APIS owner)) in
          match prop_name with
          | JStr method => ret (if known then add (owner ++ "." ++ method) api_calls else api_calls)
          | _ => ret api_calls
          end
      | _ => ret api_calls
      end
    else ret api_calls in
  ret (if is_str obj_name "React" && is_str prop_name "Children"
       then add "React.Children.map" api_calls else api_calls).

(** CallExpression: [useState()], [useEffect()], etc. *)
Definition visit_call (node : list (string * json)) (api_calls : gset string)
    : result (gset string) :=
  let callee := field node "callee" (JDict []) in
  let! callee_name := get callee "name" (JStr "") in
  let! hook := hashed_in callee_name REACT_HOOKS in
  let api_calls :=
    match callee_name with
    | JStr n => if hook then add n api_calls else api_calls
    | _ => api_calls
    end in
  let! imp := hashed_in callee_name REACT_IMPORTS in
  ret (match callee_name with
       | JStr n => if imp then add n api_calls else api_calls
       | _ => api_calls
       end).

(** ClassDeclaration: [extends React.Component]. The property is only
    read when the object is named [React]. *)
Definition visit_class (node : list (string * json)) (api_calls : gset string)
    : result (gset string) :=
  let superclass := field node "superClass" (JDict []) in
  match superclass with
  | JDict sup =>
      let obj := field sup "object" (JDict []) in
      let prop := field sup "property" (JDict []) in
      let! obj_name := get obj "name" JNull in
      if is_str obj_name "React" then
        let! prop_name := get prop "name" JNull in
        match prop_name with
        | JStr n =>
            ret (if eq_in prop_name ["Component"; "PureComponent"]
                 then add ("React." ++ n) api_calls else api_calls)
        | _ => ret api_calls
        end
      else ret api_calls
  | _ => ret api_calls
  end.

(** JSXMemberExpression: [<React.Fragment>], [<React.StrictMode>]. *)
Definition visit_jsx (node : list (string * json)) (api_calls : gset string)
    : result (gset string) :=
  let obj := field node "object" (JDict []) in
  let prop := field node "property" (JDict []) in
  let! obj_name := get obj "name" JNull in
  if is_str obj_name "React" then
    let! prop_name := get prop "name" (JStr "") in
    match inserted_name prop_name with
    | Some n =>
        let comp_name := "React." ++ n in
        ret (if mem comp_name REACT_COMPONENT_APIS then add comp_name api_calls else api_calls)
    | None => ret api_calls
    end
  else ret api_calls.

(** One specifier of an import: the imported name if it is truthy,
    else the local one. *)
Definition visit_specifier (spec : json) (api_calls : gset string)
    : result (gset string) :=
  match spec with
  | JDict sp =>
      let imported := field sp "imported" (JDict []) in
      let local := field sp "local" (JDict []) in
      let! imported_name := get imported "name" (JStr "") in
      let! name :=
        if truthy imported_name then ret imported_name
        else get local "name" (JStr "") in
      let! imp := hashed_in name REACT_IMPORTS in
      let api_calls :=
        match name with
        | JStr n => if imp then add n api_calls else api_calls
        | _ => api_calls
        end in
      let! hook := hashed_in name REACT_HOOKS in
      ret (match name with
           | JStr n => if hook then add n api_calls else api_calls
           | _ => api_calls
           end)
  | _ => ret api_calls
  end.

Fixpoint visit_specifiers (specs : list json) (api_calls : gset string)
    : result (gset string) :=
  match specs with
  | [] => ret api_calls
  | spec :: rest =>
      let! api_calls := visit_specifier spec api_calls in
      visit_specifiers rest api_calls
  end.

(** ImportDeclaration: the source is read (and not used), then every
    specifier is looked at. *)
Definition visit_import (node : list (string * json)) (api_calls : gset string)
    : result (gset string) :=
  let! source := get (field node "source" (JDict [])) "value" (JStr "") in
  let! specifiers := iterate (field node "specifiers" (JList [])) in
  visit_specifiers specifiers api_calls.

(** The tests on [node_type], in the order of the source. *)
Definition visit_node (node : list (string * json)) (api_calls : gset string)
    : result (gset string) :=
  let node_type := field node "type" (JStr "") in
  let! api_calls :=
    if is_str node_type "MemberExpression" then visit_member node api_calls
    else ret api_calls in
  let! api_calls :=
    if is_str node_type "CallExpression" then visit_call node api_calls
    else ret api_calls in
  let! api_calls :=
    if is_str node_type "ClassDeclaration" then visit_class node api_calls
    else ret api_calls in
  let! api_calls :=
    if is_str node_type "JSXMemberExpression" then visit_jsx node api_calls
    else ret api_calls in
  if is_str node_type "ImportDeclaration" then visit_import node api_calls
  else ret api_calls.

(** [walk(node)], with the set [api_calls] it adds to passed along. An
    exception leaves [walk] and the whole extraction. *)
Fixpoint walk (node : json) (api_calls : gset string) {struct node}
    : result (gset string) :=
  match node with
  | JDict fields =>
      let! api_calls := visit_node fields api_calls in
      (fix values (l : list (string * json)) (api_calls : gset string)
           : result (gset string) :=
         match l with
         | [] => ret api_calls
         | (_, value) :: l' =>
             match value with
             | JDict _ | JList _ =>
                 let! api_calls := walk value api_calls in values l' api_calls
             | _ => values l' api_calls
             end
         end) fields api_calls
  | JList items =>
      (fix each (l : list json) (api_calls : gset string) : result (gset string) :=
         match l with
         | [] => ret api_calls
         | item :: l' =>
             let! api_calls := walk item api_calls in each l' api_calls
         end) items api_calls
  | _ => ret api_calls
  end.

(** *** The lexical extractor *)

(** What opening and reading a path gives: an [OSError], or the bytes. *)
Inductive FileData :=
| Unreadable (e : PyExn)
| Content (bs : list byte).

(** [with open(file_path, "r", encoding="utf-8", errors="ignore") as f:
    code = f.read()]. *)
Definition read_code (f : FileData) : result text :=
  match f with
  | Unreadable e => inl e
  | Content bs => ret (read_text bs)
  end.

Definition in_parens : N -> bool := fun c => ((c =? 0x28) || (c =? 0x3C))%N.

Definition reactdom_pattern : regex :=
  Seq (Lit "ReactDOM.")
    (Seq (Group (alts "render" ["hydrate"; "unmountComponentAtNode"; "findDOMNode";
                                "createPortal"; "flushSync"]))
       (Seq (Star is_space) (Lit "("))).

Definition react_pattern : regex :=
  Seq (Lit "React.")
    (Seq (Group (alts "createElement" ["cloneElement"; "createRef"; "forwardRef"; "memo";
                                       "lazy"; "createContext"; "isValidElement";
                                       "startTransition"]))
       (Seq (Star is_space) (Cls in_parens))).

Definition hooks_pattern : regex :=
  Seq WordB
    (Seq (Group (alts "useState" ["useEffect"; "useContext"; "useReducer"; "useCallback";
                                  "useMemo"; "useRef"; "useImperativeHandle";
                                  "useLayoutEffect"; "useDebugValue"; "useId";
                                  "useTransition"; "useDeferredValue";
                                  "useInsertionEffect"; "useSyncExternalStore"]))
       (Seq (Star is_space) (Lit "("))).

Definition new_api_pattern : regex :=
  Seq WordB (Seq (Group (alts "createRoot" ["hydrateRoot"])) (Seq (Star is_space) (Lit "("))).

Definition class_pattern : regex :=
  Seq (Lit "extends")
    (Seq (Plus is_space) (Seq (Lit "React.") (Group (alts "Component" ["PureComponent"])))).

Definition component_pattern : regex :=
  Seq (Lit "React.") (Group (alts "Fragment" ["StrictMode"; "Suspense"; "Profiler"])).

Section Extractors.
Variable unicode_alnum : N -> bool.

Definition children_pattern : regex :=
  Seq (Lit "React.Children.") (Plus (is_word unicode_alnum)).

(** [for match in re.finditer(pattern, code):
    api_calls.add(f"{owner}{match.group(1)}")]. *)
Definition add_matches (owner : string) (pattern : regex) (code : text)
    (api_calls : gset string) : gset string :=
  fold_left (fun acc m => add (owner ++ to_string (m_group1 m)) acc)
    (finditer unicode_alnum pattern code) api_calls.

(** The body of [extract_api_calls_regex] once the file is read. *)
Definition regex_symbols (code : text) : gset string :=
  let api_calls := ∅ in
  let api_calls := add_matches "ReactDOM." reactdom_pattern code api_calls in
  let api_calls := add_matches "React." react_pattern code api_calls in
  let api_calls := add_matches "" hooks_pattern code api_calls in
  let api_calls := add_matches "" new_api_pattern code api_calls in
  let api_calls := add_matches "React." class_pattern code api_calls in
  let api_calls := add_matches "React." component_pattern code api_calls in
  if search unicode_alnum children_pattern code
  then add "React.Children.map" api_calls else api_calls.

Definition extract_api_calls_regex (f : FileData) : result (list string) :=
  let! code := read_code f in
  ret (sorted_set (regex_symbols code)).

(** *** The structural extractor *)

(** Whether [import esprima] succeeded, and the two parsers with the
    options [{"jsx": True, "tolerant": True}]; [None] stands for a
    raised exception, [Some t] for the tree as [toDict] renders it. *)
Variable HAS_ESPRIMA : bool.
Variable parseScript parseModule : text -> option json.

Definition extract_api_calls_ast (f : FileData) : result (list string) :=
  if negb HAS_ESPRIMA then extract_api_calls_regex f
  else
    let! code := read_code f in
    let api_calls : gset string := ∅ in
    match parseScript code with
    | Some ast => let! api_calls := walk ast api_calls in ret (sorted_set api_calls)
    | None =>
        match parseModule code with
        | Some ast => let! api_calls := walk ast api_calls in ret (sorted_set api_calls)
        | None => extract_api_calls_regex f
        end
    end.

(** *** The project scanner *)

(** A directory: its sub-directories and its files, in the order
    [os.walk] lists them. *)
#[local] Unset Elimination Schemes.
Inductive Dir := MkDir (subdirs : list (string * Dir)) (files : list (string * FileData)).
#[local] Set Elimination Schemes.

(** [os.path.join] (POSIX). *)
Definition ends_with_sep (a : string) : bool :=
  match rev (list_ascii_of_string a) with
  | c :: _ => Ascii.eqb c "/"
  | [] => false
  end.

Definition os_path_join (a b : string) : string :=
  if String.prefix "/" b then b
  else if String.eqb a "" || ends_with_sep a then a ++ b
  else a ++ "/" ++ b.

(** Index of the last [c] in [l], [-1] when there is none ([str.rfind]). *)
Fixpoint rfind_from (c : ascii) (l : list ascii) (i : Z) (last : Z) : Z :=
  match l with
  | [] => last
  | d :: l' => rfind_from c l' (i + 1) (if Ascii.eqb d c then i else last)
  end.

Definition rfind (c : ascii) (l : list ascii) : Z := rfind_from c l 0 (-1).

(** The extension [os.path.splitext] splits off: from the last dot of
    the base name on, unless only dots come before it. *)
Definition splitext_ext (p : string) : string :=
  let cs := list_ascii_of_string p in
  let sepIndex := rfind "/" cs in
  let dotIndex := rfind "." cs in
  if (sepIndex <? dotIndex)%Z then
    let name_start := Z.to_nat (sepIndex + 1) in
    let before_dot := firstn (Z.to_nat dotIndex - name_start) (skipn name_start cs) in
    if existsb (fun c => negb (Ascii.eqb c ".")) before_dot
    then string_of_list_ascii (skipn (Z.to_nat dotIndex) cs)
    else ""
  else "".

(** [str.lower] on the letters A to Z. No other character lowers to
    one of the letters of the supported extensions. *)
Definition lower_ascii (c : ascii) : ascii :=
  let n := N_of_ascii c in
  if ((0x41 <=? n) && (n <=? 0x5A))%N then ascii_of_N (n + 0x20) else c.

Definition lower (s : string) : string :=
  string_of_list_ascii (map lower_ascii (list_ascii_of_string s)).

Definition supported_extensions : list string := [".js"; ".jsx"; ".tsx"; ".ts"; ".mjs"].

Definition skip_dirs : list string :=
  ["node_modules"; ".git"; "dist"; "build"; "__pycache__"; ".next"].

(** [os.walk(top)], top-down, where the consumer keeps in [dirs] only
    the names [keep] accepts before the walk goes on: the root of every
    directory visited with its files. *)
Fixpoint os_walk (keep : string -> bool) (root : string) (d : Dir)
    : list (string * list (string * FileData)) :=
  match d with
  | MkDir subdirs files =>
      (root, files) ::
        (fix below (subs : list (string * Dir)) :=
           match subs with
           | [] => []
           | (name, sub) :: rest =>
               if keep name
               then (os_walk keep (os_path_join root name) sub ++ below rest)%list
               else below rest
           end) subdirs
  end.

(** The two local variables of [scan_project]. *)
Record ScanState := mkScan {
  results : list (string * list string);
  skipped : list (string * string)
}.

(** The body of [for file in files]. *)
Definition scan_file (root : string) (file : string * FileData) (st : ScanState)
    : ScanState :=
  let ext := splitext_ext (fst file) in
  if mem (lower ext) supported_extensions then
    let file_path := os_path_join root (fst file) in
    match extract_api_calls_ast (snd file) with
    | inr calls =>
        match calls with
        | [] => st
        | _ => mkScan (dict_set (results st) file_path calls) (skipped st)
        end
    | inl e => mkScan (results st) (skipped st ++ [(file_path, exn_str e)])%list
    end
  else st.

(** The state of [scan_project] when its loop ends. *)
Definition scan_project_locals (project_path : string) (top : Dir) : ScanState :=
  fold_left
    (fun st visit =>
       fold_left (fun st file => scan_file (fst visit) file st) (snd visit) st)
    (os_walk (fun d => negb (mem d skip_dirs)) project_path top)
    (mkScan [] []).

(** [scan_project]: [return results]. *)
Definition scan_project (project_path : string) (top : Dir) : list (string * list string) :=
  results (scan_project_locals project_path top).

End Extractors.

End Analyzer.

(** ** [checker/compatibility_checker.py] *)
Module Checker.

(** *** Similarity thresholds *)

(** Below this = breaking change. *)
Definition BREAKING_THRESHOLD : float := 0.85%float.
(** Below this = minor change, above = compatible. *)
Definition MINOR_THRESHOLD : float := 0.95%float.

(** *** Migration guides *)

Definition MIGRATION_GUIDES : list (string * list (string * list (string * string))) :=
  [("ReactDOM.render",
    [("18",
      [("replacement", "createRoot"); ("guide", "
  Replace ReactDOM.render() with createRoot().render():

  BEFORE (React 17):
    import ReactDOM from 'react-dom';
    ReactDOM.render(<App />, document.getElementById('root'));

  AFTER (React 18):
    import { createRoot } from 'react-dom/client';
    const root = createRoot(document.getElementById('root'));
    root.render(<App />);

  Reference: https://react.dev/blog/2022/03/08/react-18-upgrade-guide
")])]);
   ("ReactDOM.hydrate",
    [("18",
      [("replacement", "hydrateRoot"); ("guide", "
  Replace ReactDOM.hydrate() with hydrateRoot():

  BEFORE (React 17):
    import ReactDOM from 'react-dom';
    ReactDOM.hydrate(<App />, document.getElementById('root'));

  AFTER (React 18):
    import { hydrateRoot } from 'react-dom/client';
    hydrateRoot(document.getElementById('root'), <App />);

  Reference: https://react.dev/blog/2022/03/08/react-18-upgrade-guide
")])]);
   ("ReactDOM.unmountComponentAtNode",
    [("18",
      [("replacement", "root.unmount()"); ("guide", "
  Replace ReactDOM.unmountComponentAtNode() with root.unmount():

  BEFORE (React 17):
    import ReactDOM from 'react-dom';
    ReactDOM.unmountComponentAtNode(container);

  AFTER (React 18):
    // Keep a reference to the root
    const root = createRoot(container);
    root.render(<App />);
    // Later, to unmount:
    root.unmount();

  Reference: https://react.dev/blog/2022/03/08/react-18-upgrade-guide
")])]);
   ("ReactDOM.findDOMNode",
    [("18",
      [("replacement", "useRef / createRef"); ("guide", "
  ReactDOM.findDOMNode() is deprecated in StrictMode in React 18.
  Use React.createRef() or useRef() instead:

  BEFORE (React 17):
    class MyComponent extends React.Component {
      componentDidMount() {
        const node = ReactDOM.findDOMNode(this);
      }
    }

  AFTER (React 18):
    class MyComponent extends React.Component {
      constructor(props) {
        super(props);
        this.myRef = React.createRef();
      }
      render() {
        return <div ref={this.myRef} />;
      }
    }
")])])].

(** *** What the index returns *)

(** The [meta] of a stored vector, with the keys the checker reads;
    [build_knowledge_base.py] writes [function] and [deprecated] always
    and the two others when the API data has them. *)
Record Meta := mkMeta {
  meta_function : option string;
  meta_deprecated : option bool;
  meta_migrateTo : option string;
  meta_replaces : option string
}.

Definition no_meta : Meta := mkMeta None None None None.

(** One ranked match. *)
Record Candidate := mkCandidate {
  cand_similarity : option float;
  cand_meta : option Meta
}.

(** *** What [check_api] returns *)

Inductive Status := breaking_change | minor_change | compatible | error.

#[global] Instance Status_eq_dec : EqDecision Status := ltac:(solve_decision).

(** The result dict; a key that a result does not have is [None]. *)
Record Verdict := mkVerdict {
  status : Status;
  api : option string;
  old_api : option string;
  new_api : option string;
  matched : option string;
  similarity : option float;
  deprecated : option bool;
  message : option string;
  migration : option string;
  confidence : option float;
  error_detail : option string
}.

(** The name the result is about: key [old_api] or key [api]. *)
Definition verdict_symbol (v : Verdict) : option string :=
  match old_api v with Some a => Some a | None => api v end.

(** The arguments of one [index.query] call. *)
Record Query {Vector : Type} := mkQuery {
  q_vector : Vector;
  q_top_k : Z;
  q_library : string;
  q_version : Z;
  q_include_vectors : bool
}.
Arguments Query : clear implicits.

Definition _get_migration (api_call new_version : string) : string :=
  let guide_info := default [] (dict_get (default [] (dict_get MIGRATION_GUIDES api_call)) new_version) in
  match guide_info with
  | _ :: _ => default "No migration guide available." (dict_get guide_info "guide")
  | [] => "  No specific migration guide available. Check the official documentation."
  end.

Definition _get_break_message (old_api new_api : string) (meta : Meta) : string :=
  if default false (meta_deprecated meta) then
    let migrate_to := default new_api (meta_migrateTo meta) in
    old_api ++ " is DEPRECATED in the new version. Use " ++ migrate_to ++ " instead."
  else
    let replaces := default "" (meta_replaces meta) in
    if negb (String.eqb replaces "") then
      old_api ++ " has been replaced by " ++ new_api ++ "."
    else
      old_api ++ " has significant changes in the new version (closest match: "
        ++ new_api ++ ").".

Definition contexts : list (string * string) :=
    [
     ("ReactDOM.render",
      "ReactDOM.render: Render a React element into the DOM in the supplied container. Takes element, container, optional callback. Returns void.");
     ("ReactDOM.hydrate",
      "ReactDOM.hydrate: Hydrate server-rendered HTML content with React. Attach event listeners to existing markup. Takes element, container, optional callback.");
     ("ReactDOM.unmountComponentAtNode",
      "ReactDOM.unmountComponentAtNode: Remove a mounted React component from the DOM and clean up event handlers and state.");
     ("ReactDOM.findDOMNode",
      "ReactDOM.findDOMNode: Find the browser DOM node for a mounted React component instance.");
     ("ReactDOM.createPortal",
      "ReactDOM.createPortal: Render children into a DOM node outside the parent component hierarchy.");
     ("useState",
      "useState: Declare a state variable in a functional React component. Returns state value and setter function.");
     ("useEffect",
      "useEffect: Perform side effects in functional components. Runs after render. Accepts cleanup function.");
     ("useContext",
      "useContext: Read and subscribe to context from a React component.");
     ("useReducer",
      "useReducer: Manage complex state logic with a reducer function in React.");
     ("useCallback",
      "useCallback: Memoize a callback function to prevent unnecessary re-renders.");
     ("useMemo",
      "useMemo: Memoize an expensive computation result between re-renders.");
     ("useRef",
      "useRef: Create a mutable ref object that persists across renders.");
     ("useLayoutEffect",
      "useLayoutEffect: Fire effect synchronously after DOM mutations for layout reading.");
     ("useImperativeHandle",
      "useImperativeHandle: Customize ref instance value exposed to parent components.");
     ("useDebugValue",
      "useDebugValue: Display label for custom hooks in React DevTools.");
     ("React.Component",
      "React.Component: Base class for class-based React components with lifecycle methods and state.");
     ("React.PureComponent",
      "React.PureComponent: React component with shallow prop and state comparison for performance.");
     ("React.Fragment",
      "React.Fragment: Group children without adding extra DOM nodes.");
     ("React.Suspense",
      "React.Suspense: Display fallback while waiting for lazy-loaded children.");
     ("React.StrictMode",
      "React.StrictMode: Development tool for highlighting potential problems in React app.");
     ("React.createElement",
      "React.createElement: Create a new React element of the given type with props and children.");
     ("React.cloneElement",
      "React.cloneElement: Clone a React element with merged props.");
     ("React.createRef",
      "React.createRef: Create a ref to attach to React elements for DOM access.");
     ("React.forwardRef",
      "React.forwardRef: Forward ref to a child component.");
     ("React.memo",
      "React.memo: Memoize a component to skip re-rendering when props are unchanged.");
     ("React.lazy",
      "React.lazy: Define a dynamically loaded component for code splitting.");
     ("React.createContext",
      "React.createContext: Create a context for passing data through component tree.");
     ("React.Profiler",
      "React.Profiler: Measure rendering performance of React components.");
     ("React.Children.map",
      "React.Children.map: Iterate over children elements with a function.");
     ("React.isValidElement",
      "React.isValidElement: Check if an object is a valid React element.");
     ("createRoot",
      "createRoot: Create a concurrent React root for rendering. New React 18 API.");
     ("hydrateRoot",
      "hydrateRoot: Create a root for hydrating server-rendered content. New React 18 API.")].

Definition _build_context (api_call : string) : string :=
  default (api_call ++ ": React API function call") (dict_get contexts api_call).

Section WithIndex.
(** The embedding model: [engine.encode]. *)
Context {Vector : Type}.
Variable encode : string -> Vector.
(** [int(s)] on a [str]; [None] when it raises [ValueError]. *)
Variable py_int : string -> option Z.
(** The built-in [round(x, ndigits)]. *)
Variable py_round : float -> Z -> float.
(** [index.query] of the vector database: an answer that may depend on
    the queries made before, or a raised exception. *)
Variable index_query : list (Query Vector) -> Query Vector -> result (list Candidate).

(** The queries made so far, oldest first: the only state a check
    changes. *)
Definition Log : Type := list (Query Vector).

Definition the_query (api_call library : string) (new_version_num : Z) : Query Vector :=
  mkQuery Vector (encode (_build_context api_call)) 5 library new_version_num false.

(** The verdict once the top-ranked match is known. *)
Definition decide_match (api_call new_version : string) (best_match : Candidate)
    : Verdict :=
  let similarity := default 0%float (cand_similarity best_match) in
  let match_meta := default no_meta (cand_meta best_match) in
  let matched_function := default "unknown" (meta_function match_meta) in
  let is_deprecated := default false (meta_deprecated match_meta) in
  if is_deprecated || PrimFloat.ltb similarity BREAKING_THRESHOLD then
    {| status := breaking_change;
       api := None;
       old_api := Some api_call;
       new_api := Some matched_function;
       matched := None;
       similarity := Some (py_round similarity 4);
       deprecated := Some is_deprecated;
       message := Some (_get_break_message api_call matched_function match_meta);
       migration := Some (_get_migration api_call new_version);
       confidence := Some (py_round (similarity * 100) 1);
       error_detail := None |}
  else if PrimFloat.ltb similarity MINOR_THRESHOLD then
    {| status := minor_change;
       api := None;
       old_api := Some api_call;
       new_api := Some matched_function;
       matched := None;
       similarity := Some (py_round similarity 4);
       deprecated := None;
       message := Some (api_call ++ " has minor behavioral changes in v" ++ new_version);
       migration := None;
       confidence := Some (py_round (similarity * 100) 1);
       error_detail := None |}
  else
    {| status := compatible;
       api := Some api_call;
       old_api := None;
       new_api := None;
       matched := Some matched_function;
       similarity := Some (py_round similarity 4);
       deprecated := None;
       message := None;
       migration := None;
       confidence := Some (py_round (similarity * 100) 1);
       error_detail := None |}.

Definition not_found (api_call new_version library : string) : Verdict :=
  {| status := breaking_change;
     api := None;
     old_api := Some api_call;
     new_api := Some "NOT FOUND";
     matched := None;
     similarity := Some 0%float;
     deprecated := None;
     message := Some (api_call ++ " has no equivalent in " ++ library ++ " " ++ new_version);
     migration := Some (_get_migration api_call new_version);
     confidence := None;
     error_detail := None |}.

Definition query_failed (api_call : string) (e : PyExn) : Verdict :=
  {| status := error;
     api := Some api_call;
     old_api := None;
     new_api := None;
     matched := None;
     similarity := None;
     deprecated := None;
     message := None;
     migration := None;
     confidence := None;
     error_detail := Some (exn_str e) |}.

(** [check_api]: the result (or the [ValueError] of [int(new_version)],
    which is raised before the [try]) and the log after the call. *)
Definition check_api (api_call old_version new_version library : string) (log : Log)
    : result Verdict * Log :=
  match py_int new_version with
  | None => (raise ValueError "invalid literal for int() with base 10", log)
  | Some new_version_num =>
      let q := the_query api_call library new_version_num in
      let log' := (log ++ [q])%list in
      match index_query log q with
      | inl e => (ret (query_failed api_call e), log')
      | inr [] => (ret (not_found api_call new_version library), log')
      | inr (best_match :: _) => (ret (decide_match api_call new_version best_match), log')
      end
  end.

(** One report entry: [{"file": file_path, **result}]. *)
Record Entry := mkEntry { file : string; verdict : Verdict }.

Record Summary := mkSummary {
  total_apis : nat;
  breaking : nat;
  minor : nat;
  compatible_count : nat;
  errors_count : nat
}.

Record Report := mkReport {
  breaking_changes : list Entry;
  minor_changes : list Entry;
  compatible_list : list Entry;
  errors : list Entry;
  summary : Summary
}.

(** [for calls in api_usage.values(): all_calls.update(calls)]. *)
Definition collect_calls (api_usage : list (string * list string)) : gset string :=
  fold_left (fun all_calls fc => set_update all_calls (snd fc)) api_usage ∅.

(** [for api_call in sorted(all_calls): results_cache[api_call] =
    self.check_api(...)]. *)
Fixpoint check_each (calls : list string) (old_version new_version library : string)
    (results_cache : gmap string Verdict) (log : Log)
    : result (gmap string Verdict) * Log :=
  match calls with
  | [] => (ret results_cache, log)
  | api_call :: rest =>
      match check_api api_call old_version new_version library log with
      | (inl e, log') => (inl e, log')
      | (inr result, log') =>
          check_each rest old_version new_version library
            (<[api_call := result]> results_cache) log'
      end
  end.

Definition append_entry (e : Entry) (r : Report) : Report :=
  match status (verdict e) with
  | breaking_change =>
      mkReport (breaking_changes r ++ [e]) (minor_changes r) (compatible_list r) (errors r) (summary r)
  | minor_change =>
      mkReport (breaking_changes r) (minor_changes r ++ [e]) (compatible_list r) (errors r) (summary r)
  | error =>
      mkReport (breaking_changes r) (minor_changes r) (compatible_list r) (errors r ++ [e]) (summary r)
  | compatible =>
      mkReport (breaking_changes r) (minor_changes r) (compatible_list r ++ [e]) (errors r) (summary r)
  end%list.

(** [for api_call in calls: result = results_cache[api_call]; ...]. *)
Fixpoint map_back_calls (results_cache : gmap string Verdict) (file_path : string)
    (calls : list string) (r : Report) : result Report :=
  match calls with
  | [] => ret r
  | api_call :: rest =>
      match results_cache !! api_call with
      | None => raise KeyError api_call
      | Some result =>
          map_back_calls results_cache file_path rest
            (append_entry (mkEntry file_path result) r)
      end
  end.

(** [for file_path, calls in api_usage.items(): ...]. *)
Fixpoint map_back (results_cache : gmap string Verdict)
    (api_usage : list (string * list string)) (r : Report) : result Report :=
  match api_usage with
  | [] => ret r
  | (file_path, calls) :: rest =>
      let! r := map_back_calls results_cache file_path calls r in
      map_back results_cache rest r
  end.

(** [len([r for r in results_cache.values() if r["status"] == st])]. *)
Definition count_status (results_cache : gmap string Verdict) (st : Status) : nat :=
  length (List.filter (fun r => bool_decide (status r = st))
            (map snd (map_to_list results_cache))).

Definition summarize (all_calls : gset string) (results_cache : gmap string Verdict)
    : Summary :=
  {| total_apis := size all_calls;
     breaking := count_status results_cache breaking_change;
     minor := count_status results_cache minor_change;
     compatible_count := count_status results_cache compatible;
     errors_count := count_status results_cache error |}.

Definition check_project (api_usage : list (string * list string))
    (old_version new_version library : string) (log : Log) : result Report * Log :=
  let all_calls := collect_calls api_usage in
  match check_each (sorted_set all_calls) old_version new_version library ∅ log with
  | (inl e, log') => (inl e, log')
  | (inr results_cache, log') =>
      (let! r := map_back results_cache api_usage
                   (mkReport [] [] [] [] (summarize all_calls results_cache)) in
       ret r, log')
  end.

End WithIndex.

End Checker.

(** ** [breakguard.py]: what [main] does between parsing the arguments and
    writing the report *)
Module Cli.
Import Analyzer Checker.

(** The parsed command line. *)
Record Args := mkArgs {
  path : string;
  old_version : string;
  new_version : string;
  library : string;
  json_output : option string;
  threshold : float;
  no_banner : bool
}.

(** The defaults of the argument parser for a given path. *)
Definition default_args (p : string) : Args :=
  mkArgs p "17" "18" "react" None 0.85%float false.

(** How [main] ends: [sys.exit(code)], an exception that nothing
    catches, or the report it prints (and writes to the JSON file when
    [--json] names one). *)
Inductive Outcome {Vector : Type} :=
| Exit (code : Z)
| Raised (e : PyExn)
| Reported (results : @Report) (json_file : option string).
Arguments Outcome : clear implicits.

(** [int(x)] for a [float]: the value cut towards zero; NaN and the two
    infinities have none. *)
Definition int_of_float (x : float) : result Z :=
  match Prim2SF x with
  | S754_nan => raise ValueError "cannot convert float NaN to integer"
  | S754_infinity _ => raise OverflowError "cannot convert float infinity to integer"
  | S754_zero _ => ret 0%Z
  | S754_finite sign m e =>
      let magnitude := Z.shiftl (Z.pos m) e in
      ret (if sign then (- magnitude)%Z else magnitude)
  end.

Section Main.
Context {Vector : Type}.
Variable encode : string -> Vector.
Variable py_int : string -> option Z.
Variable py_round : float -> Z -> float.
Variable index_query : list (Query Vector) -> Query Vector -> result (list Candidate).
Variable unicode_alnum : N -> bool.
Variable HAS_ESPRIMA : bool.
Variable parseScript parseModule : text -> option json.
(** [os.path.abspath], and the directory tree found at an absolute
    path: [None] when [os.path.exists] is false; a path that exists and
    is no directory has the empty tree, as [os.walk] yields nothing for
    it. Writing to the standard output is taken not to raise. *)
Variable abspath : string -> string.
Variable tree_at : string -> option Dir.
(** [s * n] for a [str] of one character: the exception raised when the
    string cannot be built ([OverflowError] when [n] does not fit an
    index, [MemoryError] when there is no room for it). *)
Variable str_repeat : Z -> result unit.
(** Importing the checker and calling [CompatibilityChecker()]: the
    exception raised, if any, by the client, the index or the embedding
    model. *)
Variable new_checker : option PyExn.
(** Opening the file of [--json] and writing the report to it: the
    exception raised, if any. *)
Variable write_json : string -> option PyExn.

(** [format_similarity_bar(similarity)] with the default width 20, as far
    as it can raise: the two repetitions are made before the text is put
    together. *)
Definition format_similarity_bar (similarity : float) : result unit :=
  let! filled := int_of_float (similarity * 20) in
  let empty := (20 - filled)%Z in
  let! _ := str_repeat filled in
  let! _ := str_repeat empty in
  ret tt.

(** [change[key]] on an entry. *)
Definition subscript {A} (key : string) (value : option A) : result A :=
  match value with
  | Some x => ret x
  | None => raise KeyError ("'" ++ key ++ "'")
  end.

(** The loop over [results["breaking_changes"]]; [seen] is the set of
    the symbols already shown. *)
Fixpoint print_breaking (breaking_changes l : list Entry) (seen : list string)
    : result unit :=
  match l with
  | [] => ret tt
  | change :: rest =>
      let! api := subscript "old_api" (old_api (verdict change)) in
      if mem api seen then print_breaking breaking_changes rest seen
      else
        let! _ :=
          match confidence (verdict change) with
          | Some _ =>
              let! similarity := subscript "similarity" (similarity (verdict change)) in
              format_similarity_bar similarity
          | None => ret tt
          end in
        (* affected = [c for c in results["breaking_changes"] if c["old_api"] == api] *)
        let! _ :=
          (fix affected (cs : list Entry) : result unit :=
             match cs with
             | [] => ret tt
             | c :: cs' =>
                 let! _ := subscript "old_api" (old_api (verdict c)) in affected cs'
             end) breaking_changes in
        print_breaking breaking_changes rest (api :: seen)
  end.

(** The loop over [results["minor_changes"]]. *)
Fixpoint print_minor (l : list Entry) (seen : list string) : result unit :=
  match l with
  | [] => ret tt
  | change :: rest =>
      let! api := subscript "old_api" (old_api (verdict change)) in
      if mem api seen then print_minor rest seen
      else
        let! similarity := subscript "similarity" (similarity (verdict change)) in
        let! _ := format_similarity_bar similarity in
        print_minor rest (api :: seen)
  end.

(** The loop over [results["compatible"]]: the symbol is read with
    [item.get("api", item.get("old_api", "unknown"))] and the score with
    [item.get("similarity", 1.0)]. *)
Fixpoint print_compatible (l : list Entry) (seen : list string) : result unit :=
  match l with
  | [] => ret tt
  | item :: rest =>
      let api :=
        default (default "unknown" (old_api (verdict item))) (Checker.api (verdict item)) in
      if mem api seen then print_compatible rest seen
      else
        let sim := default 1%float (similarity (verdict item)) in
        let! _ := format_similarity_bar sim in
        print_compatible rest (api :: seen)
  end.

(** Step 3 of [main], as far as it can raise: the lists are shown in the
    order breaking, minor, errors, compatible, and showing the errors
    raises nothing. *)
Definition print_report (results : Report) : result unit :=
  let! _ := print_breaking (breaking_changes results) (breaking_changes results) [] in
  let! _ := print_minor (minor_changes results) [] in
  print_compatible (compatible_list results) [].

Definition main (args : Args) (log : Log) : Outcome Vector * Log :=
  let project_path := abspath (path args) in
  match tree_at project_path with
  | None => (Exit 1, log)
  | Some top =>
      let api_usage :=
        scan_project unicode_alnum HAS_ESPRIMA parseScript parseModule project_path top in
      match api_usage with
      | [] => (Exit 0, log)
      | _ =>
          match new_checker with
          | Some e => (Raised e, log)
          | None =>
              match check_project encode py_int py_round index_query api_usage
                      (old_version args) (new_version args) (library args) log with
              | (inl e, log') => (Raised e, log')
              | (inr results, log') =>
                  match print_report results with
                  | inl e => (Raised e, log')
                  | inr _ =>
                      (* if args.json_output: an empty name counts as none *)
                      match json_output args with
                      | None => (Reported results None, log')
                      | Some file =>
                          if String.eqb file "" then (Reported results None, log')
                          else
                            match write_json file with
                            | Some e => (Raised e, log')
                            | None => (Reported results (Some file), log')
                            end
                      end
                  end
              end
          end
      end
  end.

End Main.
End Cli.

(** ** [get_api_call_locations] of [analyzer/code_analyzer.py] *)
Module Locator.
Import Analyzer.

(** The code points of a name. *)
Definition name_text (s : string) : text :=
  decode_utf8_ignore (map N_of_ascii (list_ascii_of_string s)).

Fixpoint starts_with (needle hay : text) : bool :=
  match needle with
  | [] => true
  | c :: needle' =>
      match hay with
      | d :: hay' => (c =? d)%N && starts_with needle' hay'
      | [] => false
      end
  end.

(** [needle in hay] on two [str]. *)
Fixpoint contains (needle hay : text) : bool :=
  starts_with needle hay
  || match hay with
     | [] => false
     | _ :: hay' => contains needle hay'
     end.

(** [t.split(sep)] for a separator of one character; [cur] holds the
    piece being read, last character first. *)
Fixpoint split_at (sep : N) (t : text) (cur : text) : list text :=
  match t with
  | [] => [rev cur]
  | c :: t' => if (c =? sep)%N then rev cur :: split_at sep t' [] else split_at sep t' (c :: cur)
  end.

(** [api_call.split(".")]. *)
Definition split_dot (api_call : text) : list text := split_at 46 api_call [].

(** [for line in f]: the lines of the text, each with its line feed; a
    last line without one is a line too. *)
Fixpoint lines_of (t : text) (cur : text) : list text :=
  match t with
  | [] => match cur with [] => [] | _ => [rev cur] end
  | c :: t' =>
      if (c =? 10)%N then rev (c :: cur) :: lines_of t' [] else lines_of t' (c :: cur)
  end.

Definition file_lines (code : text) : list text := lines_of code [].

(** The two tests made on a line. *)
Definition line_matches (api_call line : text) : bool :=
  if contains api_call line then true
  else if contains [46%N] api_call
       then forallb (fun part => contains part line) (split_dot api_call)
       else false.

(** [for line_num, line in enumerate(f, 1)]. *)
Fixpoint locate_from (api_call : text) (lines : list text) (line_num : nat) : list nat :=
  match lines with
  | [] => []
  | line :: rest =>
      if line_matches api_call line
      then line_num :: locate_from api_call rest (S line_num)
      else locate_from api_call rest (S line_num)
  end.

(** Any exception of opening or reading ends in [pass]. *)
Definition get_api_call_locations (f : FileData) (api_call : string) : list nat :=
  match read_code f with
  | inl _ => []
  | inr code => locate_from (name_text api_call) (file_lines code) 1
  end.

End Locator.

(** ** [build_knowledge_base.py]: the identifiers and the batches *)
Module KnowledgeBase.

(** [s.replace(a, b)] for two strings of one character. *)
Definition replace_char (a b : ascii) (s : string) : string :=
  string_of_list_ascii
    (map (fun c => if Ascii.eqb c a then b else c) (list_ascii_of_string s)).

(** [func_name.replace(".", "_").replace(" ", "_")]. *)
Definition safe_name (func_name : string) : string :=
  replace_char " " "_" (replace_char "." "_" func_name).

(** [f"react{version}_{safe_name}"]. *)
Definition vector_id (version func_name : string) : string :=
  "react" ++ version ++ "_" ++ safe_name func_name.

Definition batch_size : nat := 50.

(** [range(0, n, step)]. *)
Definition range_step (n step : nat) : list nat :=
  map (fun k => k * step) (seq 0 ((n + step - 1) / step)).

(** The arguments of the successive [index.upsert(batch)] calls:
    [upsert_data[i : i + batch_size]] for [i] in
    [range(0, len(upsert_data), batch_size)]. *)
Definition batches {A} (upsert_data : list A) : list (list A) :=
  map (fun i => firstn batch_size (skipn i upsert_data))
    (range_step (length upsert_data) batch_size).

End KnowledgeBase.

(** ** Concrete inputs

    The stand-ins and inputs the examples below are evaluated at. *)
Module Samples.
Import Analyzer Checker Cli.

(** [int(s)] on a plain decimal numeral. *)
Definition decimal_digit (c : ascii) : option Z :=
  let n := Z.of_N (N_of_ascii c) in
  if ((48 <=? n) && (n <=? 57))%Z then Some (n - 48)%Z else None.

Fixpoint decimal_from (cs : list ascii) (acc : Z) : option Z :=
  match cs with
  | [] => Some acc
  | c :: cs' =>
      match decimal_digit c with
      | Some d => decimal_from cs' (10 * acc + d)%Z
      | None => None
      end
  end.

Definition decimal_int (s : string) : option Z :=
  match list_ascii_of_string s with
  | [] => None
  | cs => decimal_from cs 0
  end.

(** A rounding that leaves the value as it is, and an embedding that
    keeps the text. *)
Definition keep_value (x : float) (ndigits : Z) : float := x.
Definition keep_text (s : string) : string := s.

Definition candidate (score : float) (is_deprecated : bool) (name : string) : Candidate :=
  mkCandidate (Some score) (Some (mkMeta (Some name) (Some is_deprecated) None None)).

(** An index that answers by the name the context starts with:
    [ReactDOM.render] has a deprecated match at 0.40, [useState] a match
    at 0.97, [useMemo] one at 0.90, the query for [useRef] fails and
    nothing else is found. *)
Definition scripted_index (log : list (Query string)) (q : Query string)
    : result (list Candidate) :=
  if String.prefix "ReactDOM.render:" (q_vector q)
  then inr [candidate 0.40 true "createRoot"; candidate 0.30 false "hydrateRoot"]
  else if String.prefix "useState:" (q_vector q) then inr [candidate 0.97 false "useState"]
  else if String.prefix "useMemo:" (q_vector q) then inr [candidate 0.90 false "useMemo"]
  else if String.prefix "useRef:" (q_vector q)
  then inl (mkExn ServiceError "connection refused")
  else inr [].

(** A scan result with one symbol whose query fails, one symbol in two
    files and one that the index does not know. *)
Definition mixed_usage : list (string * list string) :=
  [("/app/src/index.js", ["ReactDOM.render"; "useRef"]);
   ("/app/src/App.jsx", ["React.memo"; "ReactDOM.render"; "useState"])].

(** The end-to-end scenario of the specification: one file with
    [ReactDOM.render(<App/>, el)], one with [useState(0)]. *)
Definition two_files_usage : list (string * list string) :=
  [("/app/a.js", ["ReactDOM.render"]); ("/app/b.js", ["useState"])].

(** The same symbol in five files. *)
Definition five_files_usage : list (string * list string) :=
  [("/app/a.js", ["useMemo"]); ("/app/b.js", ["useMemo"]); ("/app/c.js", ["useMemo"]);
   ("/app/d.js", ["useMemo"]); ("/app/e.js", ["useMemo"])].

(** No code point above ASCII counts as alphanumeric: enough for texts in
    ASCII, where the table is never consulted. *)
Definition ascii_only (c : N) : bool := false.

(** A call written with a gap before the dot, and the tree esprima gives
    for it (ESTree: a Program whose body is one ExpressionStatement holding
    a CallExpression on a MemberExpression). *)
Definition gap_call_source : string := "ReactDOM .render(app, root);".

Definition identifier (name : string) : json :=
  JDict [("type", JStr "Identifier"); ("name", JStr name)].

Definition gap_call_tree : json :=
  JDict
    [("type", JStr "Program");
     ("sourceType", JStr "script");
     ("body",
      JList
        [JDict
           [("type", JStr "ExpressionStatement");
            ("expression",
             JDict
               [("type", JStr "CallExpression");
                ("callee",
                 JDict
                   [("type", JStr "MemberExpression");
                    ("computed", JBool false);
                    ("object", identifier "ReactDOM");
                    ("property", identifier "render")]);
                ("arguments", JList [identifier "app"; identifier "root"])])]])].

(** A parser that knows this one source and raises on any other. *)
Definition gap_call_parser (code : text) : option json :=
  if bool_decide (code = of_string gap_call_source) then Some gap_call_tree else None.

Definition no_parser (code : text) : option json := None.

(** A source file whose first byte is not UTF-8, a readable one, an
    unreadable one and one without any React API. *)
Definition invalid_utf8_file : FileData :=
  Content (xff :: list_byte_of_string "const [n, setN] = useState(0);").

Definition gap_call_file : FileData := Content (list_byte_of_string gap_call_source).

Definition unreadable_file : FileData :=
  Unreadable (mkExn OSError "[Errno 13] Permission denied: '/app/src/locked.js'").

Definition plain_file : FileData := Content (list_byte_of_string "export const two = 1 + 1;").

(** A text in which every canonical symbol stands in the form the lexical
    extractor looks for. *)
Definition all_forms_source : string :=
  "ReactDOM.render( ReactDOM.hydrate( ReactDOM.unmountComponentAtNode( ReactDOM.findDOMNode(
   ReactDOM.createPortal( ReactDOM.flushSync( React.createElement( React.cloneElement(
   React.createRef( React.forwardRef( React.memo( React.lazy( React.createContext(
   React.isValidElement( React.startTransition( React.Children.map useState( useEffect(
   useContext( useReducer( useCallback( useMemo( useRef( useImperativeHandle(
   useLayoutEffect( useDebugValue( useId( useTransition( useDeferredValue(
   useInsertionEffect( useSyncExternalStore( createRoot( hydrateRoot(
   extends React.Component extends React.PureComponent React.Fragment React.StrictMode
   React.Suspense React.Profiler".

Definition invalid_utf8_bytes : list byte :=
  xff :: list_byte_of_string "const [n, setN] = useState(0);".

(** A project: an ignored dependency directory, a source directory with
    the four files above, and a text file at the top. *)
Definition sample_project : Dir :=
  MkDir
    [("node_modules", MkDir [] [("react.js", invalid_utf8_file)]);
     ("src",
      MkDir []
        [("state.js", invalid_utf8_file); ("locked.js", unreadable_file);
         ("two.ts", plain_file); ("main.JSX", gap_call_file)])]
    [("README.md", gap_call_file)].

(** The file system with that project at [/app] and nothing else, and the
    identity for [os.path.abspath] (the paths used are absolute). *)
Definition sample_tree_at (p : string) : option Dir :=
  if String.eqb p "/app" then Some sample_project else None.

Definition already_absolute (p : string) : string := p.

(** An index whose best match for any query is a live API at one score. *)
Definition constant_index (score : float) (log : list (Query string)) (q : Query string)
    : result (list Candidate) :=
  inr [candidate score false "useState"].

End Samples.

(** ** More sample inputs *)
Module MoreSamples.
Import Analyzer Samples.

(** The member expression of [ReactDOM .render(app, root)]. *)
Definition render_member : list (string * json) :=
  [("type", JStr "MemberExpression");
   ("computed", JBool false);
   ("object", identifier "ReactDOM");
   ("property", identifier "render")].

(** A use of a helper of [React.Children] that is not [map]. *)
Definition children_only_source : string := "x = React.Children.only(kids);".

(** A machine on which every string asked for can be built, a checker
    that is created without an exception and a JSON file that is
    written without one. *)
Definition always_fits (n : Z) : result unit := ret tt.
Definition checker_ready : option PyExn := None.
Definition json_written (file : string) : option PyExn := None.

(** The bytes of a file with the letter [a], a line end written as
    [\r\n], and the letters [é], the euro sign and an emoji. *)
Definition crlf_file : list byte :=
  [x61; x0d; x0a; xc3; xa9; xe2; x82; xac; xf0; x9f; x98; x80].

(** The call of [gap_call_source] written without the gap before the
    dot, with a space before the parenthesis, which esprima parses to the
    same tree. *)
Definition plain_call_source : string := "ReactDOM.render (app, root);".

Definition plain_call_parser (code : text) : option json :=
  if bool_decide (code = of_string plain_call_source) then Some gap_call_tree else None.

Definition plain_call_bytes : list byte := list_byte_of_string plain_call_source.

End MoreSamples.

(** ** The vocabulary of the statements

    Notions the properties below are phrased with; none of them is used by
    the embedded code. *)
Module Stated.
Import Analyzer Checker.

(** The decision table of the classifier, as the specification words it:
    deprecated or below the breaking threshold is Breaking, else below
    the minor threshold is Minor, else Compatible. *)
Definition decision_table (breakingThreshold minorThreshold : float)
    (deprecatedFlag : bool) (similarityScore : float) : Status :=
  if deprecatedFlag || PrimFloat.ltb similarityScore breakingThreshold then breaking_change
  else if PrimFloat.ltb similarityScore minorThreshold then minor_change
  else compatible.

(** The score and the deprecated flag [check_api] reads off a match: an
    absent key counts as [0.0] and as [False]. *)
Definition score_of (c : Candidate) : float := default 0%float (cand_similarity c).
Definition flag_of (c : Candidate) : bool :=
  default false (meta_deprecated (default no_meta (cand_meta c))).

(** The guide the catalog has for a symbol and a target version. *)
Definition cataloged_guide (symbol version : string) : option string :=
  match dict_get MIGRATION_GUIDES symbol with
  | Some by_version =>
      match dict_get by_version version with
      | Some info => dict_get info "guide"
      | None => None
      end
  | None => None
  end.

Definition no_guide_message : string :=
  "  No specific migration guide available. Check the official documentation.".

(** All the entries of a report, and the list a status goes to. *)
Definition entries (r : Report) : list Entry :=
  (breaking_changes r ++ minor_changes r ++ compatible_list r ++ errors r)%list.

Definition bucket (st : Status) (r : Report) : list Entry :=
  match st with
  | breaking_change => breaking_changes r
  | minor_change => minor_changes r
  | compatible => compatible_list r
  | error => errors r
  end.

Definition count_of (st : Status) (s : Summary) : nat :=
  match st with
  | breaking_change => breaking s
  | minor_change => minor s
  | compatible => compatible_count s
  | error => errors_count s
  end.

(** The (file, symbol) occurrences of a scan result, in its order. *)
Definition occurrences (api_usage : list (string * list string)) : list (string * string) :=
  flat_map (fun fc => map (pair (fst fc)) (snd fc)) api_usage.

(** The entry an occurrence gets from a table of verdicts. *)
Definition entry_of (cache : gmap string Verdict) (occ : string * string) : option Entry :=
  mkEntry (fst occ) <$> cache !! snd occ.

(** The canonical symbols: every name of the pattern tables in the form an
    extractor reports it. *)
Definition member_names : list string :=
  flat_map (fun om => map (fun method => fst om ++ "." ++ method) (snd om)) REACT_MEMBER_APIS.

Definition VOCABULARY : list string :=
  (member_names ++ ["React.Children.map"] ++ REACT_HOOKS ++ REACT_IMPORTS
   ++ REACT_COMPONENT_APIS)%list.

Definition canonical (name : string) : bool := mem name VOCABULARY.

(** A set of symbols all of which are canonical. *)
Definition all_canonical (api_calls : gset string) : Prop :=
  forall name, name ∈ api_calls -> canonical name = true.

(** A file name that [scan_project] takes for a source file. *)
Definition eligible (name : string) : bool :=
  mem (lower (splitext_ext name)) supported_extensions.

(** The source files [scan_project] reaches, in the order it reaches
    them, each with its full path. *)
Definition eligible_files (project_path : string) (top : Dir) : list (string * FileData) :=
  flat_map
    (fun visit =>
       map (fun file => (os_path_join (fst visit) (fst file), snd file))
         (List.filter (fun file => eligible (fst file)) (snd visit)))
    (os_walk (fun d => negb (mem d skip_dirs)) project_path top).

(** Where the two local variables of [scan_project] get their content:
    a key of [results] is the path of a source file whose extraction gave
    that non-empty list, an item of [skipped] is the path of a source file
    whose extraction raised, with the text of the exception. *)
Definition results_traced (extract_ast : FileData -> result (list string))
    (files : list (string * FileData)) (st : ScanState) : Prop :=
  forall p calls, In (p, calls) (results st) ->
    calls <> [] /\ exists data, In (p, data) files /\ extract_ast data = inr calls.

Definition skipped_traced (extract_ast : FileData -> result (list string))
    (files : list (string * FileData)) (st : ScanState) : Prop :=
  forall p msg, In (p, msg) (skipped st) ->
    exists data e, In (p, data) files /\ extract_ast data = inl e /\ msg = exn_str e.

(** A pattern without a group, and a pattern whose group 1 is an
    alternative of literal names that every match goes through. *)
Inductive keeps_group : regex -> Prop :=
| kg_lit l : keeps_group (Lit l)
| kg_cls p : keeps_group (Cls p)
| kg_star p : keeps_group (Star p)
| kg_plus p : keeps_group (Plus p)
| kg_wordb : keeps_group WordB
| kg_seq r1 r2 : keeps_group r1 -> keeps_group r2 -> keeps_group (Seq r1 r2)
| kg_alt r1 r2 : keeps_group r1 -> keeps_group r2 -> keeps_group (Alt r1 r2).

Inductive sets_group (names : list string) : regex -> Prop :=
| sg_group a rest : incl (a :: rest) names -> sets_group names (Group (alts a rest))
| sg_seq_l r1 r2 : sets_group names r1 -> keeps_group r2 -> sets_group names (Seq r1 r2)
| sg_seq_r r1 r2 : sets_group names r2 -> sets_group names (Seq r1 r2).

(** Bytes that are well-formed UTF-8: decoding loses nothing, so that
    encoding the decoded text gives the bytes back. *)
Definition valid_utf8 (bs : list byte) : bool :=
  bool_decide (concat (map utf8_encode1 (decode_utf8_ignore (map Strings.Byte.to_N bs)))
               = map Strings.Byte.to_N bs).

(** The symbols an extraction reports; none when it raises. *)
Definition reported (r : result (list string)) : list string :=
  match r with inr calls => calls | inl _ => [] end.

(** "The symbols of the structural extractor are among those of the
    lexical extractor", for one file. *)
Definition structural_within_lexical (unicode_alnum : N -> bool) (HAS_ESPRIMA : bool)
    (parseScript parseModule : text -> option json) (f : FileData) : Prop :=
  forall name,
    In name (reported (extract_api_calls_ast unicode_alnum HAS_ESPRIMA parseScript parseModule f)) ->
    In name (reported (extract_api_calls_regex unicode_alnum f)).

(** The command line with another value for [--threshold]. *)
Definition with_threshold (t : float) (args : Cli.Args) : Cli.Args :=
  Cli.mkArgs (Cli.path args) (Cli.old_version args) (Cli.new_version args) (Cli.library args)
    (Cli.json_output args) t (Cli.no_banner args).

(** *** The shape of a syntax tree

    What [walk] needs of a node to visit it without an exception, as in
    every tree of the ESTree form: where it calls [.get] on a child (the
    object, the property, the callee, the source, the imported and the
    local name of a specifier) there is a dict, a name that it looks up
    in a set is no list and no dict, and the specifiers are a list. A key
    that is absent counts as the empty dict, as in the code. *)
Definition is_dict (x : json) : bool :=
  match x with JDict _ => true | _ => false end.

Definition hashable (x : json) : bool :=
  match x with JList _ | JDict _ => false | _ => true end.

Definition has_dict (node : list (string * json)) (key : string) : bool :=
  is_dict (field node key (JDict [])).

Definition has_named (node : list (string * json)) (key : string) : bool :=
  match field node key (JDict []) with
  | JDict child => hashable (field child "name" (JStr ""))
  | _ => false
  end.

Definition specifier_ok (spec : json) : bool :=
  match spec with
  | JDict sp => has_named sp "imported" && has_named sp "local"
  | _ => true
  end.

Definition node_ok (node : list (string * json)) : bool :=
  let node_type := field node "type" (JStr "") in
  (negb (is_str node_type "MemberExpression")
   || (has_named node "object" && has_named node "property"))
  && (negb (is_str node_type "CallExpression") || has_named node "callee")
  && (negb (is_str node_type "ClassDeclaration")
      || match field node "superClass" (JDict []) with
         | JDict sup => has_dict sup "object" && has_dict sup "property"
         | _ => true
         end)
  && (negb (is_str node_type "JSXMemberExpression")
      || (has_dict node "object" && has_dict node "property"))
  && (negb (is_str node_type "ImportDeclaration")
      || (has_dict node "source"
          && match field node "specifiers" (JList []) with
             | JList specs => forallb specifier_ok specs
             | _ => false
             end)).

(** Every dict of the tree, at any depth, has the shape of a node. *)
Fixpoint well_shaped (t : json) : bool :=
  match t with
  | JDict fields =>
      node_ok fields
      && (fix values (l : list (string * json)) : bool :=
            match l with
            | [] => true
            | (_, value) :: l' => well_shaped value && values l'
            end) fields
  | JList items =>
      (fix each (l : list json) : bool :=
         match l with
         | [] => true
         | item :: l' => well_shaped item && each l'
         end) items
  | _ => true
  end.

End Stated.

(** ** More vocabulary *)
Module StatedMore.
Import Analyzer Checker Stated.

(** A Unicode scalar value: a code point up to U+10FFFF that is no
    surrogate. *)
Definition is_scalar (c : N) : bool :=
  ((c <? 0xD800) || ((0xE000 <=? c) && (c <? 0x110000)))%N.

(** The UTF-8 bytes of a text. *)
Definition utf8_encode (t : text) : list N := concat (map utf8_encode1 t).

(** The last byte made for the six low bits [r] of a code point is a
    continuation byte that is read back as [r]. *)
Definition tail_ok (r : N) : bool :=
  let b := N.lor 0x80 r in
  is_cont b && (low6 b =? r)%N.

(** The bytes before the last one, made for a code point whose bits above
    the six low ones are [q], pass the tests of [decode_utf8_ignore] and
    are read back as [q]. *)
Definition lead_ok (q : N) : bool :=
  if (q <? 0x20)%N then
    let b1 := N.lor 0xC0 q in
    negb (b1 <? 0x80)%N && negb (b1 <? 0xC2)%N && (b1 <? 0xE0)%N
    && (N.land b1 0x1F =? q)%N
  else if (q <? 0x400)%N then
    let b1 := N.lor 0xE0 (N.shiftr q 6) in
    let b2 := N.lor 0x80 (N.land q 0x3F) in
    negb (b1 <? 0x80)%N && negb (b1 <? 0xC2)%N && negb (b1 <? 0xE0)%N && (b1 <? 0xF0)%N
    && second_of_3 b1 b2
    && (N.lor (N.shiftl (N.land b1 0x0F) 6) (low6 b2) =? q)%N
  else
    let b1 := N.lor 0xF0 (N.shiftr q 12) in
    let b2 := N.lor 0x80 (N.land (N.shiftr q 6) 0x3F) in
    let b3 := N.lor 0x80 (N.land q 0x3F) in
    negb (b1 <? 0x80)%N && negb (b1 <? 0xC2)%N && negb (b1 <? 0xE0)%N
    && negb (b1 <? 0xF0)%N && (b1 <? 0xF5)%N
    && second_of_4 b1 b2 && is_cont b3
    && (N.lor (N.shiftl (N.land b1 0x07) 12)
          (N.lor (N.shiftl (low6 b2) 6) (low6 b3)) =? q)%N.

(** The bits above the six low ones of a scalar value from U+0080 on. *)
Definition lead_of_scalar (q : N) : bool :=
  ((2 <=? q) && ((q <? 0x360) || ((0x380 <=? q) && (q <? 0x4400))))%N.

(** [ok] checked on every number below [n], one by one. *)
Definition check_below (ok : N -> bool) (n : N) : N * bool :=
  N.iter n (fun st => (N.succ (fst st), snd st && ok (fst st))) (0%N, true).

(** A directory tree without the sub-directories whose name [keep]
    refuses, at any depth. *)
Fixpoint prune (keep : string -> bool) (d : Dir) : Dir :=
  match d with
  | MkDir subdirs files =>
      MkDir
        ((fix kept (subs : list (string * Dir)) : list (string * Dir) :=
            match subs with
            | [] => []
            | (name, sub) :: rest =>
                if keep name then (name, prune keep sub) :: kept rest else kept rest
            end) subdirs)
        files
  end.

(** The names of all the directories below the top of a tree. *)
Fixpoint dir_names (d : Dir) : list string :=
  match d with
  | MkDir subdirs _ =>
      (fix names (subs : list (string * Dir)) : list string :=
         match subs with
         | [] => []
         | (name, sub) :: rest => (name :: dir_names sub ++ names rest)%list
         end) subdirs
  end.

(** The test [scan_project] makes on a directory name. *)
Definition not_skipped (name : string) : bool := negb (mem name skip_dirs).

(** A string with a character that is not a dot. *)
Definition has_non_dot (s : string) : bool :=
  existsb (fun c => negb (Ascii.eqb c ".")) (list_ascii_of_string s).

Definition has_slash (s : string) : bool :=
  existsb (fun c => Ascii.eqb c "/") (list_ascii_of_string s).

(** The keys of a result dict, by its status. A Breaking result has the
    key [confidence] when it comes from a match and not when nothing was
    found. *)
Definition has_keys (v : Verdict) : Prop :=
  match status v with
  | breaking_change =>
      is_Some (old_api v) /\ is_Some (new_api v) /\ is_Some (similarity v)
      /\ is_Some (message v) /\ is_Some (migration v)
      /\ api v = None /\ matched v = None /\ error_detail v = None
      /\ (is_Some (confidence v) <-> is_Some (deprecated v))
      /\ (confidence v = None -> new_api v = Some "NOT FOUND" /\ similarity v = Some 0%float)
  | minor_change =>
      is_Some (old_api v) /\ is_Some (new_api v) /\ is_Some (similarity v)
      /\ is_Some (message v) /\ is_Some (confidence v)
      /\ api v = None /\ matched v = None /\ error_detail v = None
      /\ migration v = None /\ deprecated v = None
  | compatible =>
      is_Some (api v) /\ is_Some (matched v) /\ is_Some (similarity v)
      /\ is_Some (confidence v)
      /\ old_api v = None /\ new_api v = None /\ error_detail v = None
      /\ message v = None /\ migration v = None /\ deprecated v = None
  | error =>
      is_Some (api v) /\ is_Some (error_detail v)
      /\ old_api v = None /\ new_api v = None /\ matched v = None
      /\ similarity v = None /\ confidence v = None
      /\ message v = None /\ migration v = None /\ deprecated v = None
  end.

(** Where an entry stands: its file and the symbol it is about. *)
Definition placed (e : Entry) : string * option string :=
  (file e, verdict_symbol (verdict e)).

(** [node] is [tree] or lies in it, below dicts and lists. *)
Inductive within (node : json) : json -> Prop :=
| within_here : within node node
| within_item items item :
    In item items -> within node item -> within node (JList items)
| within_value fields k value :
    In (k, value) fields -> within node value -> within node (JDict fields).

(** A step only adds to the set it is given: what it returns for a set
    is what it returns for the empty set together with that set, and
    whether it raises does not depend on the set. *)
Definition only_adds (step : gset string -> result (gset string)) : Prop :=
  forall api_calls,
    step api_calls
    = match step ∅ with
      | inl e => inl e
      | inr found => inr (found ∪ api_calls)
      end.

(** [res] is what comes of visiting the dict nodes in [nodes] starting
    from the set [api_calls]: either the set with what each node adds, all
    visits having returned, or the exception of the visit of one node. *)
Definition collected (nodes : list (string * json) -> Prop) (api_calls : gset string)
    (res : result (gset string)) : Prop :=
  match res with
  | inr found =>
      (forall name,
          name ∈ found
          <-> name ∈ api_calls
              \/ exists node added,
                  nodes node /\ visit_node node ∅ = inr added /\ name ∈ added)
      /\ (forall node, nodes node -> exists added, visit_node node ∅ = inr added)
  | inl e => exists node, nodes node /\ visit_node node ∅ = inl e
  end.

(** The node has this [type]. *)
Definition has_type (node : list (string * json)) (ty : string) : Prop :=
  dict_get node "type" = Some (JStr ty).

(** Under [key] the node has a dict whose [name] is the string [name]. *)
Definition names (node : list (string * json)) (key name : string) : Prop :=
  exists child,
    dict_get node key = Some (JDict child) /\ dict_get child "name" = Some (JStr name).

(** What the scan of a source file leaves in the mapping: its path with
    the symbols found, when there is one. *)
Definition kept_entry (extract_ast : FileData -> result (list string))
    (f : string * FileData) : option (string * list string) :=
  match extract_ast (snd f) with
  | inr (c :: calls) => Some (fst f, c :: calls)
  | _ => None
  end.

(** ... and in the list of skipped files: its path with the text of the
    exception, when the extraction raises. *)
Definition skipped_entry (extract_ast : FileData -> result (list string))
    (f : string * FileData) : option (string * string) :=
  match extract_ast (snd f) with
  | inl e => Some (fst f, exn_str e)
  | inr _ => None
  end.

(** The two local variables of [scan_project] after the source files
    [seen]: the skipped files are those whose extraction raised; every
    file that gave symbols has its path as a key; and when no two files
    have the same path, the mapping has one entry for each of them, in
    the order of the files. *)
Definition scanned (extract_ast : FileData -> result (list string))
    (seen : list (string * FileData)) (st : ScanState) : Prop :=
  skipped st = omap (skipped_entry extract_ast) seen
  /\ (forall p, In p (map fst (results st)) -> In p (map fst seen))
  /\ (forall f, In f seen -> is_Some (kept_entry extract_ast f) ->
               In (fst f) (map fst (results st)))
  /\ (List.NoDup (map fst seen) -> results st = omap (kept_entry extract_ast) seen).

(** A name as a directory holds it: not empty and without [/]. *)
Definition plain_name (name : string) : bool :=
  negb (String.eqb name "")
  && forallb (fun c => negb (Ascii.eqb c "/")) (list_ascii_of_string name).

Fixpoint distinct (names : list string) : bool :=
  match names with
  | [] => true
  | name :: names' => negb (mem name names') && distinct names'
  end.

(** A tree as a file system holds it: in every directory the names are
    plain, no two subdirectories have the same name and no two files. *)
Fixpoint well_named (d : Dir) : bool :=
  match d with
  | MkDir subdirs files =>
      forallb plain_name (map fst subdirs) && forallb plain_name (map fst files)
      && distinct (map fst subdirs) && distinct (map fst files)
      && (fix all (subs : list (string * Dir)) : bool :=
            match subs with
            | [] => true
            | (_, sub) :: rest => well_named sub && all rest
            end) subdirs
  end.

(** [s.startswith(p)] and [s.endswith(p)]. *)
Fixpoint begins (p l : list ascii) : bool :=
  match p, l with
  | [], _ => true
  | c :: p', d :: l' => Ascii.eqb c d && begins p' l'
  | _ :: _, [] => false
  end.

Definition has_prefix (p s : string) : bool :=
  begins (list_ascii_of_string p) (list_ascii_of_string s).

Definition has_suffix (p s : string) : bool :=
  begins (rev (list_ascii_of_string p)) (rev (list_ascii_of_string s)).

(** The table of contexts is in order: the text of a symbol starts with
    the symbol and a colon, no text ends like the text made for a symbol
    that is not in the table, and two symbols have different texts. *)
Definition contexts_in_order : bool :=
  forallb
    (fun kv =>
       has_prefix (fst kv ++ ": ") (snd kv)
       && negb (has_suffix ": React API function call" (snd kv))
       && forallb
            (fun kv' => implb (String.eqb (snd kv) (snd kv')) (String.eqb (fst kv) (fst kv')))
            contexts)
    contexts.

End StatedMore.

(** ** The written forms of the symbols

    How a symbol stands in the text of a file for the lexical extractor to
    find it, and the tables by which the matches of one regular expression
    are told apart. *)
Module Written.
Import Re Analyzer Stated.

(** White space only. *)
Definition spaces (ws : text) : Prop := Forall (fun c => is_space c = true) ws.

(** The methods of an owner in [REACT_MEMBER_APIS]. *)
Definition methods_of (owner : string) : list string :=
  default [] (dict_get REACT_MEMBER_APIS owner).

Definition CLASS_NAMES : list string := ["Component"; "PureComponent"].
Definition ELEMENT_NAMES : list string := ["Fragment"; "StrictMode"; "Suspense"; "Profiler"].

Section Forms.
Variable unicode_alnum : N -> bool.

(** [written name code]: the text [code] holds the symbol [name] in the
    form its regular expression describes.
    - a method of [ReactDOM]: the name, white space or none, [(];
    - a method of [React]: the name, white space or none, [(] or [<];
    - a hook, [createRoot], [hydrateRoot]: the name where no word
      character stands before it, white space or none, [(];
    - a component class: [extends], white space, the name;
    - [React.Fragment] and the like: the name;
    - [React.Children.map]: [React.Children.] and a word character. *)
Inductive written : string -> text -> Prop :=
| written_reactdom m pre ws post :
    In m (methods_of "ReactDOM") -> spaces ws ->
    written ("ReactDOM." ++ m)
      (pre ++ of_string "ReactDOM." ++ of_string m ++ ws ++ 0x28%N :: post)%list
| written_react m pre ws c post :
    In m (methods_of "React") -> spaces ws -> in_parens c = true ->
    written ("React." ++ m)
      (pre ++ of_string "React." ++ of_string m ++ ws ++ c :: post)%list
| written_hook m pre ws post :
    In m REACT_HOOKS -> is_word_at unicode_alnum (last pre) = false -> spaces ws ->
    written m (pre ++ of_string m ++ ws ++ 0x28%N :: post)%list
| written_root m pre ws post :
    In m REACT_IMPORTS -> is_word_at unicode_alnum (last pre) = false -> spaces ws ->
    written m (pre ++ of_string m ++ ws ++ 0x28%N :: post)%list
| written_class m pre ws post :
    In m CLASS_NAMES -> spaces ws -> ws <> [] ->
    written ("React." ++ m)
      (pre ++ of_string "extends" ++ ws ++ of_string "React." ++ of_string m ++ post)%list
| written_element m pre post :
    In m ELEMENT_NAMES ->
    written ("React." ++ m) (pre ++ of_string "React." ++ of_string m ++ post)%list
| written_children pre c post :
    is_word unicode_alnum c = true ->
    written "React.Children.map" (pre ++ of_string "React.Children." ++ c :: post)%list.

End Forms.

(** Two texts that differ at a place both have. *)
Fixpoint clash (a b : text) : bool :=
  match a, b with
  | x :: a', y :: b' => negb (x =? y)%N || clash a' b'
  | _, _ => false
  end.

(** The ends of a text that are not empty. *)
Fixpoint suffixes (t : text) : list text :=
  match t with
  | [] => []
  | _ :: t' => t :: suffixes t'
  end.

(** The alternatives of a group are told apart: none is the beginning of
    another, so the first that fits is the one that stands in the text. *)
Definition told_apart (names : list string) : bool :=
  forallb
    (fun m => forallb (fun b => String.eqb b m || clash (of_string b) (of_string m)) names)
    names.

(** What a match of a pattern consists of: one of [heads], then white
    space, then one of [tails]. *)
Record parts := mkParts { heads : list text; tails : list text }.

Definition shaped (p : parts) (matched : text) : Prop :=
  exists A ws B,
    In A (heads p) /\ In B (tails p) /\ spaces ws /\ matched = (A ++ ws ++ B)%list.

(** No match can start before a text that begins with [F] and go on into
    it: [F] differs from what a match has from its second character on,
    from what follows its white space, and does not begin with white
    space. *)
Definition apart (p : parts) (F : text) : bool :=
  match F with c :: _ => negb (is_space c) | [] => false end
  && forallb (fun A => forallb (clash F) (suffixes (tl A))) (heads p)
  && forallb (fun B => forallb (clash F) (suffixes B)) (tails p).

Definition all_apart (p : parts) : bool := forallb (apart p) (heads p).

Definition after (owner : string) (names : list string) : list text :=
  map (fun m => (of_string owner ++ of_string m)%list) names.

Definition reactdom_parts : parts :=
  mkParts (after "ReactDOM." (methods_of "ReactDOM")) [[0x28%N]].
Definition react_parts : parts :=
  mkParts (after "React." (methods_of "React")) [[0x28%N]; [0x3C%N]].
Definition hooks_parts : parts := mkParts (after "" REACT_HOOKS) [[0x28%N]].
Definition new_api_parts : parts := mkParts (after "" REACT_IMPORTS) [[0x28%N]].
Definition class_parts : parts :=
  mkParts [of_string "extends"] (after "React." CLASS_NAMES).
Definition component_parts : parts := mkParts (after "React." ELEMENT_NAMES) [[]].

(** The matches of [pattern] consist of the parts [p]. *)
Definition matches_shaped (unicode_alnum : N -> bool) (pattern : regex) (p : parts) : Prop :=
  forall pos prev s e g,
    match_at unicode_alnum pattern pos prev s = Some (e, g) ->
    exists T rest, s = (T ++ rest)%list /\ e = pos + length T /\ shaped p T.

(** [finditer] has a match of [pattern] in [code] that adds the symbol
    [name]. *)
Definition found_by (unicode_alnum : N -> bool) (owner : string) (pattern : regex)
    (code : text) (name : string) : Prop :=
  exists m,
    In m (finditer unicode_alnum pattern code) /\ owner ++ to_string (m_group1 m) = name.

(** The first character of each name is a word character. *)
Definition begin_words (unicode_alnum : N -> bool) (names : list string) : bool :=
  forallb
    (fun m => match of_string m with c :: _ => is_word unicode_alnum c | [] => false end)
    names.

(** The names come back from the text of the group as they are. *)
Definition read_back (names : list string) : bool :=
  forallb (fun m => String.eqb (to_string (of_string m)) m) names.

End Written.

(** * Properties *)

(** ** Sorting names *)
Module PyFacts.

Lemma ascii_compare_refl (x : ascii) : Ascii.compare x x = Eq.
Proof. unfold Ascii.compare. apply N.compare_refl. Qed.

Lemma ascii_compare_lt_trans (x y z : ascii) :
  Ascii.compare x y = Lt -> Ascii.compare y z = Lt -> Ascii.compare x z = Lt.
Proof. unfold Ascii.compare. rewrite !N.compare_lt_iff. lia. Qed.

Lemma compare_lt_trans (a : string) :
  forall b d, String.compare a b = Lt -> String.compare b d = Lt -> String.compare a d = Lt.
Proof.
  induction a as [|x a IH]; intros [|y b] [|z d]; simpl; try discriminate; auto.
  destruct (Ascii.compare x y) eqn:Exy; try discriminate;
    destruct (Ascii.compare y z) eqn:Eyz; try discriminate; intros Hab Hbd.
  - apply Ascii.compare_eq_iff in Exy, Eyz. subst.
    rewrite ascii_compare_refl. eauto.
  - apply Ascii.compare_eq_iff in Exy. subst. now rewrite Eyz.
  - apply Ascii.compare_eq_iff in Eyz. subst. now rewrite Exy.
  - now rewrite (ascii_compare_lt_trans x y z).
Qed.

Lemma leb_cases (a b : string) :
  String.leb a b = true <-> String.compare a b = Lt \/ a = b.
Proof.
  unfold String.leb. split.
  - destruct (String.compare a b) eqn:E; try discriminate; auto.
    right. now apply String.compare_eq_iff.
  - intros [-> | ->]; auto.
    assert (H : String.compare b b = Eq).
    { induction b as [|c b IH]; simpl; auto. now rewrite ascii_compare_refl. }
    now rewrite H.
Qed.

#[global] Instance str_le_trans : Transitive str_le.
Proof.
  intros a b d. unfold str_le. rewrite !leb_cases.
  intros [Hab | ->] [Hbd | ->]; auto.
  left. eapply compare_lt_trans; eauto.
Qed.

#[global] Instance str_le_total : Total str_le.
Proof. intros a b. apply String.leb_total. Qed.

#[global] Instance str_le_antisym : AntiSymm eq str_le.
Proof. intros a b. apply String.leb_antisym. Qed.

Lemma sorted_perm (xs : list string) : sorted xs ≡ₚ xs.
Proof. apply merge_sort_Permutation. Qed.

Lemma sorted_strongly (xs : list string) : StronglySorted str_le (sorted xs).
Proof. apply StronglySorted_merge_sort; exact _. Qed.

Lemma elem_of_sorted_set (s : gset string) (x : string) : x ∈ sorted_set s <-> x ∈ s.
Proof. unfold sorted_set. rewrite sorted_perm. apply elem_of_elements. Qed.

Lemma NoDup_sorted_set (s : gset string) : NoDup (sorted_set s).
Proof. unfold sorted_set. rewrite sorted_perm. apply NoDup_elements. Qed.

Lemma length_sorted_set (s : gset string) : length (sorted_set s) = size s.
Proof. unfold sorted_set. now rewrite sorted_perm. Qed.

Lemma sorted_set_nil (s : gset string) : sorted_set s = [] <-> s = ∅.
Proof.
  split.
  - intros H. apply set_eq. intros x. rewrite <- elem_of_sorted_set, H. set_solver.
  - intros ->. unfold sorted_set. rewrite elements_empty. reflexivity.
Qed.

Lemma elem_of_set_update (s : gset string) (xs : list string) (x : string) :
  x ∈ set_update s xs <-> x ∈ s \/ x ∈ xs.
Proof. unfold set_update. set_solver. Qed.

End PyFacts.

(** ** The classifier *)
Module CheckerSpec.
Import Checker Stated.

Section Classifier.
Context {Vector : Type}.
Variable encode : string -> Vector.
Variable py_int : string -> option Z.
Variable py_round : float -> Z -> float.
Variable index_query : list (Query Vector) -> Query Vector -> result (list Candidate).

#[local] Abbreviation check_api := (check_api encode py_int py_round index_query).
#[local] Abbreviation the_query := (the_query encode).

(** What [check_api] does once [int(new_version)] has a value: one
    query, and a verdict that depends on the answer alone. *)
Lemma check_api_int api_call old_version new_version library log n :
  py_int new_version = Some n ->
  check_api api_call old_version new_version library log =
    (inr match index_query log (the_query api_call library n) with
         | inl e => query_failed api_call e
         | inr [] => not_found api_call new_version library
         | inr (best_match :: _) => decide_match py_round api_call new_version best_match
         end,
     (log ++ [the_query api_call library n])%list).
Proof.
  intros Hn. unfold Checker.check_api. rewrite Hn.
  destruct (index_query _ _) as [e | [| best rest]]; reflexivity.
Qed.

Lemma check_api_no_int api_call old_version new_version library log :
  py_int new_version = None ->
  exists e, check_api api_call old_version new_version library log = (inl e, log).
Proof. intros Hn. unfold Checker.check_api. rewrite Hn. eexists. reflexivity. Qed.

Lemma decide_match_status api_call new_version best :
  status (decide_match py_round api_call new_version best)
  = decision_table BREAKING_THRESHOLD MINOR_THRESHOLD (flag_of best) (score_of best).
Proof.
  unfold decide_match, decision_table, flag_of, score_of.
  destruct (_ || _); [reflexivity |].
  destruct (PrimFloat.ltb _ MINOR_THRESHOLD); reflexivity.
Qed.

Lemma decide_match_symbol api_call new_version best :
  verdict_symbol (decide_match py_round api_call new_version best) = Some api_call.
Proof.
  unfold decide_match.
  destruct (_ || _); [reflexivity |].
  destruct (PrimFloat.ltb _ MINOR_THRESHOLD); reflexivity.
Qed.

(** C1. When the index returns at least one match, [check_api] returns
    a verdict about the checked symbol whose status is the one the
    decision table gives for the deprecated flag and the score of the
    first (top-ranked) match, with the thresholds 0.85 and 0.95; the
    other matches play no part. On the four rows the specification
    lists: deprecated with 0.99 is Breaking, and without deprecation
    0.90 is Minor, 0.60 is Breaking and 0.99 is Compatible. *)
Theorem C1_decision_table
    (api_call old_version new_version library : string) (log : Log) (n : Z)
    (best : Candidate) (others : list Candidate) :
  py_int new_version = Some n ->
  index_query log (the_query api_call library n) = inr (best :: others) ->
  exists v,
    check_api api_call old_version new_version library log
      = (inr v, (log ++ [the_query api_call library n])%list)
    /\ verdict_symbol v = Some api_call
    /\ status v = decision_table 0.85 0.95 (flag_of best) (score_of best)
    /\ (flag_of best = true -> score_of best = 0.99%float -> status v = breaking_change)
    /\ (flag_of best = false -> score_of best = 0.90%float -> status v = minor_change)
    /\ (flag_of best = false -> score_of best = 0.60%float -> status v = breaking_change)
    /\ (flag_of best = false -> score_of best = 0.99%float -> status v = compatible).
Proof.
  intros Hn Hq.
  eexists. rewrite (check_api_int _ _ _ _ _ _ Hn), Hq.
  split; [reflexivity |]. split; [apply decide_match_symbol |].
  rewrite decide_match_status.
  repeat split; intros -> ->; reflexivity.
Qed.

Lemma get_migration_cataloged api_call new_version :
  _get_migration api_call new_version
  = match cataloged_guide api_call new_version with
    | Some guide => guide
    | None => no_guide_message
    end.
Proof.
  unfold _get_migration, cataloged_guide, MIGRATION_GUIDES.
  repeat (cbn [dict_get default from_option id];
          match goal with
          | |- context [String.eqb ?a ?b] =>
              lazymatch b with
              | api_call => destruct (String.eqb a api_call)
              | new_version => destruct (String.eqb a new_version)
              end
          end);
    reflexivity.
Qed.

(** C2. When the index returns no match at all, [check_api] returns a
    Breaking verdict for the symbol with [new_api] "NOT FOUND",
    similarity [0.0] and a migration text: the guide cataloged for the
    symbol and the target version when there is one, else the generic
    message that no specific guide is available. *)
Theorem C2_no_candidates
    (api_call old_version new_version library : string) (log : Log) (n : Z) :
  py_int new_version = Some n ->
  index_query log (the_query api_call library n) = inr [] ->
  exists v,
    check_api api_call old_version new_version library log
      = (inr v, (log ++ [the_query api_call library n])%list)
    /\ status v = breaking_change
    /\ old_api v = Some api_call
    /\ new_api v = Some "NOT FOUND"
    /\ similarity v = Some 0%float
    /\ migration v = Some match cataloged_guide api_call new_version with
                          | Some guide => guide
                          | None => no_guide_message
                          end.
Proof.
  intros Hn Hq. eexists. rewrite (check_api_int _ _ _ _ _ _ Hn), Hq.
  repeat (split; [reflexivity |]). cbn. f_equal. apply get_migration_cataloged.
Qed.

(** C3, first half: what one call does when the query raises. *)
Lemma check_api_query_raises api_call old_version new_version library log n e :
  py_int new_version = Some n ->
  index_query log (the_query api_call library n) = inl e ->
  check_api api_call old_version new_version library log
  = (inr (query_failed api_call e), (log ++ [the_query api_call library n])%list).
Proof. intros Hn Hq. now rewrite (check_api_int _ _ _ _ _ _ Hn), Hq. Qed.

Lemma check_api_symbol api_call old_version new_version library log v log' :
  check_api api_call old_version new_version library log = (inr v, log') ->
  verdict_symbol v = Some api_call.
Proof.
  unfold Checker.check_api. destruct (py_int new_version); [| discriminate].
  destruct (index_query _ _) as [e | [| best rest]]; intros [= <- _];
    auto using decide_match_symbol.
Qed.

End Classifier.

(** *** The aggregator *)

Lemma elem_of_occurrences api_usage f s :
  (f, s) ∈ occurrences api_usage <-> exists calls, (f, calls) ∈ api_usage /\ s ∈ calls.
Proof.
  unfold occurrences. induction api_usage as [| [f' calls'] usage IH]; simpl.
  - split; [intros H; inversion H | intros (? & H & _); inversion H].
  - rewrite elem_of_app, IH. split.
    + intros [H | (calls & Hin & Hs)].
      * apply list_elem_of_In, in_map_iff in H as (s' & [= <- <-] & Hs).
        exists calls'. split; [left | now apply list_elem_of_In].
      * exists calls. split; [now right | done].
    + intros (calls & Hin & Hs). apply elem_of_cons in Hin as [[= <- <-] | Hin].
      * left. apply list_elem_of_In, in_map_iff. exists s.
        split; [done | now apply list_elem_of_In].
      * right. eauto.
Qed.

Lemma elem_of_collect_from api_usage (acc : gset string) s :
  s ∈ fold_left (fun all_calls fc => set_update all_calls (snd fc)) api_usage acc
  <-> s ∈ acc \/ exists f, (f, s) ∈ occurrences api_usage.
Proof.
  revert acc. induction api_usage as [| [f' calls'] usage IH]; intros acc; simpl.
  - split; [auto | intros [H | [f H]]; [done | inversion H]].
  - rewrite IH, PyFacts.elem_of_set_update. unfold occurrences. simpl. split.
    + intros [[H | H] | [f H]]; [auto | |].
      * right. exists f'. apply elem_of_app. left.
        apply list_elem_of_In, in_map_iff. exists s. split; [done | now apply list_elem_of_In].
      * right. exists f. apply elem_of_app. now right.
    + intros [H | [f H]]; [auto |].
      apply elem_of_app in H as [H | H].
      * apply list_elem_of_In, in_map_iff in H as (s' & [= <- <-] & Hs).
        left. right. now apply list_elem_of_In.
      * right. eauto.
Qed.

(** The unique symbols are exactly the symbols that occur in some file. *)
Lemma elem_of_collect_calls api_usage s :
  s ∈ collect_calls api_usage <-> exists f, (f, s) ∈ occurrences api_usage.
Proof.
  unfold collect_calls. rewrite elem_of_collect_from. split; [| auto].
  intros [H | H]; [set_solver | done].
Qed.

Lemma append_entry_bucket e r st :
  bucket st (append_entry e r)
  = (bucket st r ++ filter (fun e => status (verdict e) = st) [e])%list.
Proof.
  unfold append_entry. rewrite filter_cons, filter_nil.
  destruct (status (verdict e)) eqn:E, st; simpl;
    try (destruct (decide _); [| done]); try (destruct (decide _); [done |]);
    rewrite ?app_nil_r; reflexivity.
Qed.

Lemma append_entry_summary e r : summary (append_entry e r) = summary r.
Proof. unfold append_entry. destruct (status (verdict e)); reflexivity. Qed.

Lemma map_back_calls_ok (cache : gmap string Verdict) f calls :
  forall r,
    (forall s, s ∈ calls -> is_Some (cache !! s)) ->
    exists r',
      map_back_calls cache f calls r = inr r'
      /\ summary r' = summary r
      /\ forall st,
          bucket st r'
          = (bucket st r
             ++ filter (fun e => status (verdict e) = st)
                  (omap (entry_of cache) (map (pair f) calls)))%list.
Proof.
  induction calls as [| s calls IH]; intros r Hall; simpl.
  - exists r. repeat split. intros st. now rewrite app_nil_r.
  - destruct (Hall s) as [v Hv]; [left |]. rewrite Hv.
    destruct (IH (append_entry (mkEntry f v) r)) as (r' & Hr' & Hsum & Hb).
    { intros s' Hs'. apply Hall. now right. }
    exists r'. split; [done |]. split.
    + now rewrite Hsum, append_entry_summary.
    + intros st. rewrite Hb, append_entry_bucket.
      unfold entry_of at 2. simpl. rewrite Hv. simpl.
      rewrite <- app_assoc. f_equal.
      rewrite (filter_cons _ (mkEntry f v)), filter_cons, filter_nil.
      simpl. destruct (decide _); reflexivity.
Qed.

Lemma map_back_ok (cache : gmap string Verdict) api_usage :
  forall r,
    (forall f s, (f, s) ∈ occurrences api_usage -> is_Some (cache !! s)) ->
    exists r',
      map_back cache api_usage r = inr r'
      /\ summary r' = summary r
      /\ forall st,
          bucket st r'
          = (bucket st r
             ++ filter (fun e => status (verdict e) = st)
                  (omap (entry_of cache) (occurrences api_usage)))%list.
Proof.
  induction api_usage as [| [f calls] usage IH]; intros r Hall; simpl.
  - exists r. repeat split. intros st. now rewrite app_nil_r.
  - destruct (map_back_calls_ok cache f calls r) as (r1 & Hr1 & Hsum1 & Hb1).
    { intros s Hs. apply (Hall f). unfold occurrences. simpl. apply elem_of_app. left.
      apply list_elem_of_In, in_map_iff. exists s. split; [done | now apply list_elem_of_In]. }
    rewrite Hr1. simpl.
    destruct (IH r1) as (r' & Hr' & Hsum & Hb).
    { intros f' s Hs. apply (Hall f'). unfold occurrences. simpl.
      apply elem_of_app. now right. }
    exists r'. split; [done |]. split; [congruence |].
    intros st. rewrite Hb, Hb1. unfold occurrences at 2. simpl.
    rewrite omap_app, filter_app, <- app_assoc. reflexivity.
Qed.

Lemma omap_entry_of_empty (occs : list (string * string)) :
  omap (entry_of ∅) occs = [].
Proof.
  induction occs as [| o l IH]; [done |]. simpl.
  unfold entry_of at 1. now rewrite lookup_empty.
Qed.

Lemma count_status_sum (cache : gmap string Verdict) :
  count_status cache breaking_change + count_status cache minor_change
  + count_status cache compatible + count_status cache error = size cache.
Proof.
  unfold count_status. rewrite <- length_map_to_list, <- (length_map snd).
  induction (map snd (map_to_list cache)) as [| v l IH]; simpl; [done |].
  destruct (status v); simpl; lia.
Qed.

Lemma filter_ext_in {A} (P Q : A -> Prop) `{!forall x, Decision (P x)}
    `{!forall x, Decision (Q x)} (l : list A) :
  (forall x, x ∈ l -> P x <-> Q x) -> filter P l = filter Q l.
Proof.
  induction l as [| a l IH]; intros Hext; [done |].
  rewrite !filter_cons, IH by (intros x Hx; apply Hext; now right).
  destruct (decide (P a)) as [Ha | Ha], (decide (Q a)) as [Hb | Hb]; try reflexivity.
  - exfalso. apply Hb, (Hext a); [left | done].
  - exfalso. apply Ha, (Hext a); [left | done].
Qed.

Lemma count_status_perm (f : Verdict -> bool) (l l' : list (string * Verdict)) :
  l ≡ₚ l' ->
  length (List.filter f (map snd l)) = length (List.filter f (map snd l')).
Proof.
  induction 1 as [| x l l' _ IH | x y l | l l' l'' _ IH1 _ IH2]; simpl.
  - reflexivity.
  - destruct (f (snd x)); simpl; congruence.
  - destruct (f (snd x)), (f (snd y)); reflexivity.
  - congruence.
Qed.

Lemma count_status_insert (m : gmap string Verdict) s v st :
  m !! s = None ->
  count_status (<[s := v]> m) st
  = (if decide (status v = st) then 1 else 0) + count_status m st.
Proof.
  intros Hs. unfold count_status.
  rewrite (count_status_perm _ _ _ (map_to_list_insert m s v Hs)). simpl.
  destruct (decide (status v = st)) as [E | E].
  - now rewrite (bool_decide_eq_true_2 _ E).
  - now rewrite (bool_decide_eq_false_2 _ E).
Qed.

(** The summary counts the unique symbols by the status of their verdict. *)
Lemma count_status_unique (syms : list string) :
  forall (cache : gmap string Verdict) st,
    NoDup syms ->
    (forall s, s ∈ syms <-> s ∈ dom cache) ->
    count_status cache st
    = length (filter (fun sym => status <$> cache !! sym = Some st) syms).
Proof.
  induction syms as [| s syms IH]; intros cache st Hnd Hdom.
  - assert (cache = ∅) as ->.
    { apply map_empty. intros k. apply not_elem_of_dom. rewrite <- Hdom. apply not_elem_of_nil. }
    unfold count_status. now rewrite map_to_list_empty.
  - apply NoDup_cons in Hnd as [Hs Hnd].
    assert (Hin : s ∈ dom cache) by (apply Hdom; left).
    apply elem_of_dom in Hin as [v Hv].
    rewrite <- (insert_delete_id cache s v Hv) at 1.
    rewrite count_status_insert by apply lookup_delete_eq.
    rewrite (IH (delete s cache) st Hnd).
    + rewrite filter_cons, Hv. simpl.
      assert (Hrest : filter (fun sym => status <$> delete s cache !! sym = Some st) syms
                      = filter (fun sym => status <$> cache !! sym = Some st) syms).
      { apply filter_ext_in. intros x Hx.
        rewrite lookup_delete_ne; [done |]. intros ->. contradiction. }
      rewrite Hrest.
      destruct (decide (status v = st)) as [E | E];
        destruct (decide (Some (status v) = Some st)) as [E' | E']; simpl; try reflexivity.
      * exfalso. apply E'. now f_equal.
      * exfalso. apply E. now injection E'.
    + intros x. rewrite dom_delete_L, elem_of_difference, <- Hdom, elem_of_cons.
      rewrite elem_of_singleton. split.
      * intros Hx. split; [now right |]. intros ->. contradiction.
      * intros [[-> | Hx] Hne]; [contradiction | done].
Qed.

Lemma buckets_perm (l : list Entry) :
  (filter (fun e => status (verdict e) = breaking_change) l
   ++ filter (fun e => status (verdict e) = minor_change) l
   ++ filter (fun e => status (verdict e) = compatible) l
   ++ filter (fun e => status (verdict e) = error) l)%list ≡ₚ l.
Proof.
  induction l as [| e l IH]; [done |].
  rewrite !filter_cons.
  destruct (status (verdict e)) eqn:E; simpl;
    repeat (destruct (decide _); try discriminate; try contradiction).
  - now constructor.
  - rewrite <- Permutation_middle. now constructor.
  - rewrite app_assoc, <- Permutation_middle, <- app_assoc. now constructor.
  - rewrite !app_assoc, <- Permutation_middle, <- !app_assoc. now constructor.
Qed.

Lemma entries_of_occurrences (cache : gmap string Verdict) (occs : list (string * string)) s :
  (forall o, o ∈ occs -> exists v, cache !! snd o = Some v /\ verdict_symbol v = Some (snd o)) ->
  length (filter (fun e => verdict_symbol (verdict e) = Some s) (omap (entry_of cache) occs))
  = length (filter (fun o => snd o = s) occs).
Proof.
  induction occs as [| o occs IH]; intros Hall; [done |].
  destruct (Hall o) as (v & Hv & Hsym); [left |].
  simpl. unfold entry_of at 1. rewrite Hv. simpl.
  rewrite !filter_cons. simpl. rewrite Hsym.
  specialize (IH (fun o' Ho' => Hall o' (list_elem_of_further _ _ _ Ho'))).
  destruct (decide (Some (snd o) = Some s)) as [E | E], (decide (snd o = s)) as [E' | E'];
    simpl; try exact IH; try (f_equal; exact IH).
  - exfalso. apply E'. now injection E.
  - exfalso. apply E. now f_equal.
Qed.

(** In a scan result a file lists a symbol once, so the occurrences of a
    symbol are as many as the files that use it. *)
Lemma occurrences_per_file (api_usage : list (string * list string)) s :
  Forall (fun fc => NoDup (snd fc)) api_usage ->
  length (filter (fun o => snd o = s) (occurrences api_usage))
  = length (filter (fun fc => s ∈ snd fc) api_usage).
Proof.
  induction 1 as [| [f calls] usage Hnd _ IH]; [done |].
  unfold occurrences in *. simpl in *. rewrite filter_app, length_app, IH, filter_cons.
  simpl. clear IH.
  assert (Hcalls : length (filter (fun o : string * string => snd o = s) (map (pair f) calls))
                   = if decide (s ∈ calls) then 1 else 0).
  { induction Hnd as [| c calls Hc Hnd IH]; [done |].
    simpl. rewrite filter_cons. simpl.
    destruct (decide (c = s)) as [-> | Hne].
    - simpl. rewrite IH. destruct (decide (s ∈ calls)); [contradiction |].
      destruct (decide (s ∈ s :: calls)) as [_ | Hn]; [done |].
      exfalso. apply Hn. left.
    - rewrite IH. destruct (decide (s ∈ calls)) as [Hin | Hin];
        destruct (decide (s ∈ c :: calls)) as [Hin' | Hin']; try reflexivity.
      + exfalso. apply Hin'. now right.
      + exfalso. apply elem_of_cons in Hin' as [-> | Hin']; contradiction. }
  rewrite Hcalls. destruct (decide (s ∈ calls)); reflexivity.
Qed.

Section Aggregator.
Context {Vector : Type}.
Variable encode : string -> Vector.
Variable py_int : string -> option Z.
Variable py_round : float -> Z -> float.
Variable index_query : list (Query Vector) -> Query Vector -> result (list Candidate).
Variables old_version new_version library : string.

#[local] Abbreviation check_api :=
  (fun api_call => check_api encode py_int py_round index_query api_call
                     old_version new_version library).
#[local] Abbreviation check_each :=
  (fun calls => check_each encode py_int py_round index_query calls
                  old_version new_version library).
#[local] Abbreviation check_project :=
  (fun api_usage => check_project encode py_int py_round index_query api_usage
                      old_version new_version library).
#[local] Abbreviation queries :=
  (fun n calls => map (fun api_call => the_query encode api_call library n) calls).

Lemma check_each_int n :
  py_int new_version = Some n ->
  forall calls (cache : gmap string Verdict) log,
  exists cache',
    check_each calls cache log = (inr cache', (log ++ queries n calls)%list)
    /\ dom cache' = dom cache ∪ list_to_set calls
    /\ (forall s, s ∉ calls -> cache' !! s = cache !! s)
    /\ (NoDup calls ->
        forall i s, calls !! i = Some s ->
          exists v,
            cache' !! s = Some v
            /\ check_api s (log ++ queries n (take i calls))%list
               = (inr v, (log ++ queries n (take (S i) calls))%list)).
Proof.
  intros Hn. induction calls as [| c calls IH]; intros cache log.
  - exists cache. simpl. rewrite app_nil_r. repeat split;
      [now rewrite (right_id_L ∅ (∪)) |].
    intros _ i s H. now rewrite lookup_nil in H.
  - simpl. rewrite (check_api_int _ _ _ _ _ _ _ _ _ _ Hn).
    match goal with |- context [<[c := ?v]> cache] => set (v0 := v) end.
    destruct (IH (<[c := v0]> cache) (log ++ [the_query encode c library n])%list)
      as (cache' & Heq & Hdom & Hother & Hin).
    exists cache'. rewrite Heq, <- app_assoc. split; [reflexivity |]. split.
    { rewrite Hdom, dom_insert_L. apply set_eq. intros x.
      rewrite !elem_of_union. tauto. }
    split.
    { intros s Hs. apply not_elem_of_cons in Hs as [Hne Hs].
      rewrite (Hother s Hs). now apply lookup_insert_ne. }
    intros Hnd i s Hi. apply NoDup_cons in Hnd as [Hc Hnd].
    destruct i as [| i]; simpl in Hi.
    + injection Hi as <-. exists v0. split.
      * rewrite (Hother c Hc). apply lookup_insert_eq.
      * simpl. rewrite app_nil_r, (check_api_int _ _ _ _ _ _ _ _ _ _ Hn). reflexivity.
    + destruct (Hin Hnd i s Hi) as (v & Hv & Hcall). exists v. split; [done |].
      simpl. rewrite <- !app_assoc in Hcall. exact Hcall.
Qed.

(** The whole of [check_project] when [int(new_version)] has a value:
    one query per unique symbol, in sorted order; a table with the
    verdict each of these calls returned; every list of the report is
    the occurrences whose verdict has that status, in scan order. *)
Lemma check_project_int n api_usage log :
  py_int new_version = Some n ->
  let syms := sorted_set (collect_calls api_usage) in
  exists (cache : gmap string Verdict) r,
    check_project api_usage log = (inr r, (log ++ queries n syms)%list)
    /\ dom cache = collect_calls api_usage
    /\ (forall i s, syms !! i = Some s ->
          exists v,
            cache !! s = Some v
            /\ check_api s (log ++ queries n (take i syms))%list
               = (inr v, (log ++ queries n (take (S i) syms))%list))
    /\ (forall st,
          bucket st r
          = filter (fun e => status (verdict e) = st)
              (omap (entry_of cache) (occurrences api_usage)))
    /\ summary r = summarize (collect_calls api_usage) cache.
Proof.
  intros Hn syms. unfold Checker.check_project. fold syms.
  destruct (check_each_int n Hn syms ∅ log) as (cache & Heq & Hdom & _ & Hin).
  assert (Hdom' : dom cache = collect_calls api_usage).
  { rewrite Hdom, dom_empty_L, (left_id_L ∅ (∪)). apply set_eq. intros s.
    rewrite elem_of_list_to_set. apply PyFacts.elem_of_sorted_set. }
  rewrite Heq.
  destruct (map_back_ok cache api_usage
              (mkReport [] [] [] [] (summarize (collect_calls api_usage) cache)))
    as (r & Hr & Hsum & Hb).
  { intros f s Hs. apply elem_of_dom. rewrite Hdom'.
    apply elem_of_collect_calls. eauto. }
  exists cache, r. rewrite Hr. split; [reflexivity |]. split; [done |].
  split; [apply Hin, PyFacts.NoDup_sorted_set |]. split; [| done].
  intros st. rewrite Hb. now destruct st.
Qed.

(** ... and when it has none: the first check raises, unless there is
    nothing to check. *)
Lemma check_project_no_int api_usage log :
  py_int new_version = None ->
  (collect_calls api_usage = ∅ /\
   exists r, check_project api_usage log = (inr r, log)
             /\ entries r = [] /\ summary r = mkSummary 0 0 0 0 0)
  \/ (collect_calls api_usage <> ∅ /\
      exists e, check_project api_usage log = (inl e, log)).
Proof.
  intros Hn. unfold Checker.check_project.
  destruct (sorted_set (collect_calls api_usage)) as [| c syms] eqn:Es.
  - left. apply PyFacts.sorted_set_nil in Es. split; [done |]. simpl.
    destruct (map_back_ok ∅ api_usage
                (mkReport [] [] [] [] (summarize (collect_calls api_usage) ∅)))
      as (r & Hr & Hsum & Hb).
    { intros f s Hs. exfalso.
      assert (Hs' : s ∈ collect_calls api_usage) by (apply elem_of_collect_calls; eauto).
      rewrite Es in Hs'. now apply not_elem_of_empty in Hs'. }
    exists r. rewrite Hr. split; [reflexivity |]. split.
    + unfold entries.
      pose proof (omap_entry_of_empty (occurrences api_usage)) as Hnone.
      pose proof (Hb breaking_change) as H1. pose proof (Hb minor_change) as H2.
      pose proof (Hb compatible) as H3. pose proof (Hb error) as H4.
      rewrite Hnone in H1, H2, H3, H4. simpl in *. now rewrite H1, H2, H3, H4.
    + rewrite Hsum. simpl. unfold summarize, count_status. rewrite Es.
      now rewrite map_to_list_empty, size_empty.
  - right. split.
    + intros Hempty. apply PyFacts.sorted_set_nil in Hempty. congruence.
    + simpl. unfold Checker.check_api. rewrite Hn. eexists. reflexivity.
Qed.

(** The facts every statement about a report rests on. *)
Lemma report_facts n api_usage log :
  py_int new_version = Some n ->
  let syms := sorted_set (collect_calls api_usage) in
  exists (cache : gmap string Verdict) r,
    check_project api_usage log = (inr r, (log ++ queries n syms)%list)
    /\ dom cache = collect_calls api_usage
    /\ (forall i s, syms !! i = Some s ->
          exists v,
            cache !! s = Some v
            /\ verdict_symbol v = Some s
            /\ check_api s (log ++ queries n (take i syms))%list
               = (inr v, (log ++ queries n (take (S i) syms))%list))
    /\ (forall o, o ∈ occurrences api_usage ->
          exists v, cache !! snd o = Some v /\ verdict_symbol v = Some (snd o))
    /\ (forall st,
          bucket st r
          = filter (fun e => status (verdict e) = st)
              (omap (entry_of cache) (occurrences api_usage)))
    /\ entries r ≡ₚ omap (entry_of cache) (occurrences api_usage)
    /\ summary r = summarize (collect_calls api_usage) cache.
Proof.
  intros Hn syms.
  destruct (check_project_int n api_usage log Hn) as (cache & r & Hr & Hdom & Hv & Hb & Hsum).
  fold syms in Hr, Hv.
  assert (Hv' : forall i s, syms !! i = Some s ->
            exists v, cache !! s = Some v /\ verdict_symbol v = Some s
              /\ check_api s (log ++ queries n (take i syms))%list
                 = (inr v, (log ++ queries n (take (S i) syms))%list)).
  { intros i s Hi. destruct (Hv i s Hi) as (v & Hc & Hcall).
    exists v. repeat split; [done | | done]. eapply check_api_symbol, Hcall. }
  exists cache, r. repeat split; try done.
  - intros [f s] Ho. simpl.
    assert (Hs : s ∈ syms).
    { apply PyFacts.elem_of_sorted_set, elem_of_collect_calls. eauto. }
    apply list_elem_of_lookup in Hs as [i Hi].
    destruct (Hv' i s Hi) as (v & Hc & Hsym & _). eauto.
  - unfold entries. change (breaking_changes r) with (bucket breaking_change r).
    change (minor_changes r) with (bucket minor_change r).
    change (compatible_list r) with (bucket compatible r).
    change (errors r) with (bucket error r).
    rewrite !Hb. apply buckets_perm.
Qed.

(** C3. When the query of the index raises, [check_api] returns an
    Error verdict for the symbol that carries the text of the
    exception, and the log gains that one query and no other (nothing
    is tried again). In [check_project] the failure stays with its
    symbol: the report is produced all the same, every occurrence of
    every symbol has its entry, the verdict of the entry is the one the
    check of that symbol returned, and it is an Error verdict if and
    only if the query made for that very symbol raised. *)
Theorem C3_query_failure_is_local
    (api_usage : list (string * list string)) (api_call : string) (log : Log) (n : Z) :
  py_int new_version = Some n ->
  let syms := sorted_set (collect_calls api_usage) in
  (forall e,
      index_query log (the_query encode api_call library n) = inl e ->
      exists v,
        check_api api_call log = (inr v, (log ++ [the_query encode api_call library n])%list)
        /\ status v = error /\ api v = Some api_call
        /\ error_detail v = Some (exn_str e))
  /\ exists r,
      check_project api_usage log = (inr r, (log ++ queries n syms)%list)
      /\ forall f s, (f, s) ∈ occurrences api_usage ->
           exists i v,
             syms !! i = Some s
             /\ check_api s (log ++ queries n (take i syms))%list
                = (inr v, (log ++ queries n (take (S i) syms))%list)
             /\ mkEntry f v ∈ bucket (status v) r
             /\ (status v = error <->
                 exists e, index_query (log ++ queries n (take i syms))%list
                             (the_query encode s library n) = inl e).
Proof.
  intros Hn syms. split.
  - intros e He. eexists. rewrite (check_api_query_raises _ _ _ _ _ _ _ _ _ _ _ Hn He).
    repeat split.
  - destruct (report_facts n api_usage log Hn)
      as (cache & r & Hr & Hdom & Hv & Hocc & Hb & _ & _).
    fold syms in Hr, Hv. exists r. split; [done |].
    intros f s Ho.
    assert (Hs : s ∈ syms).
    { apply PyFacts.elem_of_sorted_set, elem_of_collect_calls. eauto. }
    apply list_elem_of_lookup in Hs as [i Hi].
    destruct (Hv i s Hi) as (v & Hc & Hsym & Hcall).
    exists i, v. repeat split; try done.
    + rewrite Hb. apply list_elem_of_filter. split; [done |].
      apply list_elem_of_omap. exists (f, s). split; [done |].
      unfold entry_of. simpl. now rewrite Hc.
    + rewrite (check_api_int _ _ _ _ _ _ _ _ _ _ Hn) in Hcall.
      injection Hcall as <-. intros Hst.
      destruct (index_query _ _) as [e | [| best rest]]; [eauto | discriminate |].
      rewrite decide_match_status in Hst. unfold decision_table in Hst.
      destruct (_ || _); [discriminate |]. destruct (PrimFloat.ltb _ _); discriminate.
    + intros [e He]. rewrite (check_api_int _ _ _ _ _ _ _ _ _ _ Hn), He in Hcall.
      now injection Hcall as <-.
Qed.

(** C4. [check_project] queries the index once for each unique symbol
    of the scan result, in sorted order: the log gains exactly the
    list of these queries, and the list of symbols has no repetition
    and holds the symbols that occur in some file. The report has as
    many entries about a symbol as the symbol has occurrences, so one
    per file that uses it when no file lists a symbol twice, and two
    entries about the same symbol have the same verdict: they differ
    in their file only. *)
Theorem C4_one_check_per_symbol
    (api_usage : list (string * list string)) (log : Log) (n : Z) :
  py_int new_version = Some n ->
  let syms := sorted_set (collect_calls api_usage) in
  exists r,
    check_project api_usage log = (inr r, (log ++ queries n syms)%list)
    /\ NoDup syms
    /\ (forall s, s ∈ syms <-> exists f, (f, s) ∈ occurrences api_usage)
    /\ (forall s,
          length (filter (fun e => verdict_symbol (verdict e) = Some s) (entries r))
          = length (filter (fun o => snd o = s) (occurrences api_usage)))
    /\ (Forall (fun fc => NoDup (snd fc)) api_usage ->
        forall s,
          length (filter (fun e => verdict_symbol (verdict e) = Some s) (entries r))
          = length (filter (fun fc => s ∈ snd fc) api_usage))
    /\ (forall e1 e2,
          e1 ∈ entries r -> e2 ∈ entries r ->
          verdict_symbol (verdict e1) = verdict_symbol (verdict e2) ->
          verdict e1 = verdict e2).
Proof.
  intros Hn syms.
  destruct (report_facts n api_usage log Hn)
    as (cache & r & Hr & Hdom & Hv & Hocc & Hb & Hperm & _).
  fold syms in Hr, Hv. exists r. split; [done |].
  split; [apply PyFacts.NoDup_sorted_set |].
  split; [intros s; unfold syms; rewrite PyFacts.elem_of_sorted_set;
          apply elem_of_collect_calls |].
  assert (Hcount : forall s,
            length (filter (fun e => verdict_symbol (verdict e) = Some s) (entries r))
            = length (filter (fun o => snd o = s) (occurrences api_usage))).
  { intros s. rewrite Hperm. now apply entries_of_occurrences. }
  split; [done |]. split.
  - intros Hnd s. rewrite Hcount. now apply occurrences_per_file.
  - intros e1 e2 H1 H2 Hsame. rewrite Hperm in H1, H2.
    apply list_elem_of_omap in H1 as (o1 & Ho1 & He1), H2 as (o2 & Ho2 & He2).
    destruct (Hocc o1 Ho1) as (v1 & Hc1 & Hs1), (Hocc o2 Ho2) as (v2 & Hc2 & Hs2).
    unfold entry_of in He1, He2. rewrite Hc1 in He1. rewrite Hc2 in He2.
    simpl in He1, He2. injection He1 as <-. injection He2 as <-. simpl in *.
    rewrite Hs1, Hs2 in Hsame. injection Hsame as Hsame.
    rewrite Hsame in Hc1. congruence.
Qed.

(** C5. Whenever [check_project] returns a report, the four counts of
    its summary add up to [total_apis], which is the number of unique
    symbols. Each unique symbol has one verdict, the one its check
    returned in this run, and each count is the number of unique symbols
    whose verdict has that status, whatever the number of files a symbol
    occurs in. The entries carry these verdicts: every unique symbol has
    as many entries as it has occurrences, at least one, all with its
    verdict. The only way not to return a report is that
    [int(new_version)] raises while there is a symbol to check. *)
Theorem C5_summary_counts (api_usage : list (string * list string)) (log : Log) :
  match check_project api_usage log with
  | (inr r, _) =>
      let syms := sorted_set (collect_calls api_usage) in
      breaking (summary r) + minor (summary r) + compatible_count (summary r)
        + errors_count (summary r) = total_apis (summary r)
      /\ total_apis (summary r) = length syms
      /\ exists verdict_of : gmap string Verdict,
          (forall st,
              count_of st (summary r)
              = length (filter (fun sym => status <$> verdict_of !! sym = Some st) syms))
          /\ (forall i sym, syms !! i = Some sym ->
                exists n v,
                  py_int new_version = Some n
                  /\ verdict_of !! sym = Some v
                  /\ check_api sym (log ++ queries n (take i syms))%list
                     = (inr v, (log ++ queries n (take (S i) syms))%list))
          /\ (forall sym, sym ∈ syms ->
                exists e,
                  e ∈ entries r /\ verdict_symbol (verdict e) = Some sym
                  /\ verdict_of !! sym = Some (verdict e))
          /\ (forall e, e ∈ entries r ->
                exists sym, sym ∈ syms /\ verdict_symbol (verdict e) = Some sym
                            /\ verdict_of !! sym = Some (verdict e))
          /\ (forall sym,
                length (filter (fun e => verdict_symbol (verdict e) = Some sym) (entries r))
                = length (filter (fun o => snd o = sym) (occurrences api_usage)))
  | (inl e, _) => py_int new_version = None /\ collect_calls api_usage <> ∅
  end.
Proof.
  destruct (py_int new_version) as [n |] eqn:Hn.
  - destruct (report_facts n api_usage log Hn)
      as (cache & r & Hr & Hdom & Hv & Hocc & Hb & Hperm & Hsum).
    rewrite Hr. cbv zeta. rewrite Hsum. simpl.
    split; [rewrite count_status_sum, <- Hdom; symmetry; apply size_dom |].
    split; [now rewrite PyFacts.length_sorted_set |].
    exists cache. split; [| split; [| split; [| split]]].
    + intros st.
      rewrite <- (count_status_unique (sorted_set (collect_calls api_usage)) cache st).
      * now destruct st.
      * apply PyFacts.NoDup_sorted_set.
      * intros s. now rewrite PyFacts.elem_of_sorted_set, Hdom.
    + intros i sym Hi. destruct (Hv i sym Hi) as (v & Hc & _ & Hcall).
      exists n, v. split; [reflexivity |]. split; [exact Hc | exact Hcall].
    + intros sym Hsym.
      apply PyFacts.elem_of_sorted_set, elem_of_collect_calls in Hsym as [f Ho].
      destruct (Hocc _ Ho) as (v & Hc & Hs). simpl in Hc, Hs.
      exists (mkEntry f v). split; [| split; [exact Hs | exact Hc]].
      rewrite Hperm. apply list_elem_of_omap. exists (f, sym). split; [exact Ho |].
      unfold entry_of. simpl. now rewrite Hc.
    + intros e He. rewrite Hperm in He.
      apply list_elem_of_omap in He as ([f s] & Ho & He).
      destruct (Hocc _ Ho) as (v & Hc & Hs). simpl in *.
      unfold entry_of in He. simpl in He. rewrite Hc in He. injection He as <-.
      exists s. simpl. split; [| done].
      apply PyFacts.elem_of_sorted_set, elem_of_collect_calls. eauto.
    + intros sym. rewrite Hperm. now apply entries_of_occurrences.
  - destruct (check_project_no_int api_usage log Hn)
      as [(Hempty & r & Hr & Hent & Hsum) | (Hne & e & He)].
    + rewrite Hr. cbv zeta. rewrite Hsum, Hempty. simpl.
      assert (Hnil : sorted_set (∅ : gset string) = []) by now apply PyFacts.sorted_set_nil.
      rewrite Hnil. split; [done |]. split; [done |].
      exists ∅. split; [intros []; reflexivity |].
      split; [intros i sym Hi; inversion Hi |].
      split; [intros sym Hsym; inversion Hsym |].
      split; [intros e He; rewrite Hent in He; inversion He |].
      intros sym. rewrite Hent. simpl.
      assert (Hocc : occurrences api_usage = []).
      { destruct (occurrences api_usage) as [| [f s] occs] eqn:Eo; [reflexivity |].
        exfalso. assert (Hs : s ∈ collect_calls api_usage).
        { apply elem_of_collect_calls. exists f. rewrite Eo. left. }
        rewrite Hempty in Hs. now apply not_elem_of_empty in Hs. }
      now rewrite Hocc.
    + rewrite He. done.
Qed.

End Aggregator.
End CheckerSpec.

(** ** The classifier and the aggregator on concrete inputs *)
Module CheckerExamples.
Import Checker Stated Samples.

#[local] Abbreviation check_api := (check_api keep_text decimal_int keep_value scripted_index).
#[local] Abbreviation check_project :=
  (check_project keep_text decimal_int keep_value scripted_index).
#[local] Abbreviation query_for := (fun s => the_query keep_text s "react" 18).

Lemma C1_decision_table_witness :
  decimal_int "18" = Some 18%Z
  /\ scripted_index [] (query_for "ReactDOM.render")
     = inr [candidate 0.40 true "createRoot"; candidate 0.30 false "hydrateRoot"]
  /\ exists v,
      check_api "ReactDOM.render" "17" "18" "react" []
      = (inr v, [query_for "ReactDOM.render"])
      /\ verdict_symbol v = Some "ReactDOM.render"
      /\ status v = breaking_change.
Proof.
  split; [reflexivity |]. split; [reflexivity |].
  destruct (CheckerSpec.C1_decision_table keep_text decimal_int keep_value scripted_index
              "ReactDOM.render" "17" "18" "react" [] 18 _ _ eq_refl eq_refl)
    as (v & Hv & Hsym & Hst & _).
  exists v. split; [exact Hv |]. split; [exact Hsym | exact Hst].
Defined.

Lemma C2_no_candidates_witness :
  decimal_int "18" = Some 18%Z
  /\ scripted_index [] (query_for "ReactDOM.hydrate") = inr []
  /\ exists v,
      check_api "ReactDOM.hydrate" "17" "18" "react" []
      = (inr v, [query_for "ReactDOM.hydrate"])
      /\ status v = breaking_change
      /\ new_api v = Some "NOT FOUND"
      /\ similarity v = Some 0%float
      /\ migration v = cataloged_guide "ReactDOM.hydrate" "18"
      /\ is_Some (cataloged_guide "ReactDOM.hydrate" "18").
Proof.
  split; [reflexivity |]. split; [reflexivity |].
  destruct (CheckerSpec.C2_no_candidates keep_text decimal_int keep_value scripted_index
              "ReactDOM.hydrate" "17" "18" "react" [] 18 eq_refl eq_refl)
    as (v & Hv & Hst & _ & Hnew & Hsim & Hmig).
  exists v. repeat split; try assumption. eexists. reflexivity.
Defined.

Lemma C3_query_failure_is_local_witness :
  decimal_int "18" = Some 18%Z
  /\ (exists v,
        check_api "useRef" "17" "18" "react" [] = (inr v, [query_for "useRef"])
        /\ status v = error /\ error_detail v = Some "connection refused")
  /\ exists r,
      check_project mixed_usage "17" "18" "react" []
      = (inr r, map query_for ["React.memo"; "ReactDOM.render"; "useRef"; "useState"])
      /\ exists v,
          mkEntry "/app/src/App.jsx" v ∈ bucket (status v) r
          /\ check_api "useState" "17" "18" "react"
               (map query_for ["React.memo"; "ReactDOM.render"; "useRef"])
             = (inr v, map query_for ["React.memo"; "ReactDOM.render"; "useRef"; "useState"]).
Proof.
  split; [reflexivity |].
  destruct (CheckerSpec.C3_query_failure_is_local keep_text decimal_int keep_value
              scripted_index "17" "18" "react" mixed_usage "useRef" [] 18 eq_refl)
    as (Hone & r & Hr & Hocc).
  split.
  - destruct (Hone _ eq_refl) as (v & Hv & Hst & _ & Herr). eauto.
  - exists r. split; [exact Hr |].
    destruct (Hocc "/app/src/App.jsx" "useState") as (i & v & Hi & Hcall & Hin & _).
    { vm_compute. repeat constructor. }
    assert (i = 3) as ->.
    { destruct i as [| [| [| [| i]]]]; vm_compute in Hi; congruence. }
    exists v. split; [exact Hin | exact Hcall].
Defined.

Lemma C4_one_check_per_symbol_witness :
  decimal_int "18" = Some 18%Z
  /\ exists r,
      check_project five_files_usage "17" "18" "react" [] = (inr r, [query_for "useMemo"])
      /\ length (filter (fun e => verdict_symbol (verdict e) = Some "useMemo") (entries r)) = 5.
Proof.
  split; [reflexivity |].
  destruct (CheckerSpec.C4_one_check_per_symbol keep_text decimal_int keep_value
              scripted_index "17" "18" "react" five_files_usage [] 18 eq_refl)
    as (r & Hr & _ & _ & Hcount & _).
  exists r. split; [exact Hr | exact (Hcount "useMemo")].
Defined.

(** The end-to-end scenario: one Breaking entry for [ReactDOM.render],
    one Compatible entry for [useState], and the summary 2/1/0/1/0. *)
Example two_files_report :
  exists r log,
    check_project two_files_usage "17" "18" "react" [] = (inr r, log)
    /\ map (fun e => (file e, verdict_symbol (verdict e))) (breaking_changes r)
       = [("/app/a.js", Some "ReactDOM.render")]
    /\ map (fun e => (file e, verdict_symbol (verdict e))) (compatible_list r)
       = [("/app/b.js", Some "useState")]
    /\ minor_changes r = [] /\ errors r = []
    /\ summary r = mkSummary 2 1 0 1 0
    /\ length log = 2.
Proof. eexists _, _. split; [vm_compute; reflexivity |]. repeat split. Qed.

(** The dedup scenario: five files, one query, five Minor entries that
    differ in the file only, counted once. *)
Example five_files_report :
  exists r v,
    check_project five_files_usage "17" "18" "react" [] = (inr r, [query_for "useMemo"])
    /\ minor_changes r
       = map (fun f => mkEntry f v) ["/app/a.js"; "/app/b.js"; "/app/c.js"; "/app/d.js"; "/app/e.js"]
    /\ status v = minor_change
    /\ summary r = mkSummary 1 0 1 0 0.
Proof. eexists _, _. split; [vm_compute; reflexivity |]. repeat split. Qed.

(** A version that [int] refuses stops the aggregation at the first
    symbol, before any query. *)
Example bad_version_raises :
  exists e, check_project two_files_usage "17" "18.2" "react" [] = (inl e, []).
Proof. eexists. vm_compute. reflexivity. Qed.

End CheckerExamples.

(** ** The extractors and the scanner *)
Module AnalyzerSpec.
Import Analyzer Stated.

(** Induction on a tree, with the property known for the items of a list
    and for the values of a dict. *)
Lemma json_nested_ind (P : json -> Prop) :
  P JNull ->
  (forall b, P (JBool b)) ->
  (forall n, P (JNum n)) ->
  (forall s, P (JStr s)) ->
  (forall items, Forall P items -> P (JList items)) ->
  (forall fields, Forall (fun kv => P (snd kv)) fields -> P (JDict fields)) ->
  forall j, P j.
Proof.
  intros Hnull Hbool Hnum Hstr Hlist Hdict.
  fix IH 1. intros [| b | n | s | items | fields].
  - exact Hnull.
  - apply Hbool.
  - apply Hnum.
  - apply Hstr.
  - apply Hlist. induction items as [| x items IHitems]; constructor.
    + apply IH.
    + exact IHitems.
  - apply Hdict. induction fields as [| [k v] fields IHfields]; constructor.
    + apply IH.
    + exact IHfields.
Qed.

(** *** Every symbol an extractor reports is canonical *)

Lemma all_canonical_empty : all_canonical ∅.
Proof. intros name H. set_solver. Qed.

Lemma all_canonical_add name api_calls :
  canonical name = true -> all_canonical api_calls -> all_canonical (add name api_calls).
Proof.
  intros Hname Hall x Hx. unfold add in Hx.
  apply elem_of_union in Hx as [Hx | Hx]; [| auto].
  apply elem_of_singleton in Hx. now subst.
Qed.

Lemma mem_app x l1 l2 : mem x (l1 ++ l2)%list = mem x l1 || mem x l2.
Proof. apply existsb_app. Qed.

Lemma mem_In x l : mem x l = true <-> In x l.
Proof.
  unfold mem. rewrite existsb_exists. split.
  - intros (y & Hy & E). apply String.eqb_eq in E. now subst.
  - intros H. exists x. split; [done | apply String.eqb_refl].
Qed.

Lemma hook_canonical n : mem n REACT_HOOKS = true -> canonical n = true.
Proof.
  intros H. unfold canonical, VOCABULARY. rewrite !mem_app, H.
  now rewrite !orb_true_r.
Qed.

Lemma import_canonical n : mem n REACT_IMPORTS = true -> canonical n = true.
Proof.
  intros H. unfold canonical, VOCABULARY. rewrite !mem_app, H.
  now rewrite !orb_true_r.
Qed.

Lemma component_canonical n : mem n REACT_COMPONENT_APIS = true -> canonical n = true.
Proof.
  intros H. unfold canonical, VOCABULARY. rewrite !mem_app, H.
  now rewrite !orb_true_r.
Qed.

Lemma member_in_table (tbl : list (string * list string)) owner method :
  mem owner (map fst tbl) = true ->
  mem method (default [] (dict_get tbl owner)) = true ->
  mem (owner ++ "." ++ method)
    (flat_map (fun om => map (fun m => fst om ++ "." ++ m) (snd om)) tbl) = true.
Proof.
  induction tbl as [| [k ms] tbl IH]; simpl; [discriminate |].
  intros Howner Hmethod. rewrite mem_app. apply orb_true_iff.
  rewrite String.eqb_sym in Howner.
  destruct (String.eqb k owner) eqn:E.
  - left. apply String.eqb_eq in E. subst k. simpl in Hmethod.
    apply mem_In, in_map_iff. exists method. split; [done | now apply mem_In].
  - right. simpl in Howner. auto.
Qed.

Lemma member_canonical owner method :
  mem owner (map fst REACT_MEMBER_APIS) = true ->
  mem method (default [] (dict_get REACT_MEMBER_APIS owner)) = true ->
  canonical (owner ++ "." ++ method) = true.
Proof.
  intros Ho Hm. unfold canonical, VOCABULARY, member_names.
  now rewrite mem_app, (member_in_table _ _ _ Ho Hm).
Qed.

Lemma hashed_in_true x names :
  hashed_in x names = inr true -> exists n, x = JStr n /\ mem n names = true.
Proof. destruct x; simpl; intros [= H]; eauto; discriminate. Qed.

Lemma visit_member_canonical node acc acc' :
  all_canonical acc -> visit_member node acc = inr acc' -> all_canonical acc'.
Proof.
  intros Hacc H. unfold visit_member, bind, ret in H.
  destruct (get _ "name" _) as [| obj_name]; [discriminate |].
  destruct (get _ "name" _) as [| prop_name]; [discriminate |].
  remember (is_str obj_name "React" && is_str prop_name "Children") as children eqn:Hc.
  clear Hc.
  assert (Hmap : forall a, all_canonical a ->
                   all_canonical (if children then add "React.Children.map" a else a)).
  { intros a Ha. destruct children; [now apply all_canonical_add | done]. }
  destruct (hashed_in obj_name _) as [| known_owner] eqn:Ho; [discriminate |].
  destruct known_owner; [| injection H as <-; auto].
  apply hashed_in_true in Ho as (owner & -> & Howner).
  destruct (hashed_in prop_name _) as [| known] eqn:Hp; [discriminate |].
  destruct prop_name as [| | | method | |]; simpl in Hp; try discriminate Hp;
    try (injection H as <-; now auto).
  injection Hp as Hp. injection H as <-.
  destruct known; [| now auto].
  apply Hmap, all_canonical_add; auto using member_canonical.
Qed.

Lemma visit_call_canonical node acc acc' :
  all_canonical acc -> visit_call node acc = inr acc' -> all_canonical acc'.
Proof.
  intros Hacc H. unfold visit_call, bind, ret in H.
  destruct (get _ "name" _) as [| callee_name]; [discriminate |].
  destruct (hashed_in callee_name REACT_HOOKS) as [| hook] eqn:Hh; [discriminate |].
  destruct (hashed_in callee_name REACT_IMPORTS) as [| imp] eqn:Hi; [discriminate |].
  injection H as <-.
  destruct callee_name as [| | | n | |]; auto.
  simpl in Hh, Hi. injection Hh as Hh. injection Hi as Hi.
  destruct hook, imp; auto using all_canonical_add, hook_canonical, import_canonical.
Qed.

Lemma visit_class_canonical node acc acc' :
  all_canonical acc -> visit_class node acc = inr acc' -> all_canonical acc'.
Proof.
  intros Hacc H. unfold visit_class, bind, ret in H.
  destruct (field node "superClass" _) as [| | | | | sup]; try (injection H as <-; now auto).
  destruct (get _ "name" _) as [| obj_name]; [discriminate |].
  destruct (is_str obj_name "React"); [| injection H as <-; auto].
  destruct (get _ "name" _) as [| prop_name]; [discriminate |].
  destruct prop_name as [| | | n | |]; try (injection H as <-; now auto).
  destruct (eq_in _ _) eqn:E; injection H as <-; auto.
  apply all_canonical_add; auto.
  unfold eq_in in E. apply mem_In in E. simpl in E.
  destruct E as [<- | [<- | []]]; reflexivity.
Qed.

Lemma visit_jsx_canonical node acc acc' :
  all_canonical acc -> visit_jsx node acc = inr acc' -> all_canonical acc'.
Proof.
  intros Hacc H. unfold visit_jsx, bind, ret in H.
  destruct (get _ "name" _) as [| obj_name]; [discriminate |].
  destruct (is_str obj_name "React"); [| injection H as <-; auto].
  destruct (get _ "name" _) as [| prop_name]; [discriminate |].
  destruct (inserted_name prop_name) as [n |]; [| injection H as <-; auto].
  destruct (mem _ REACT_COMPONENT_APIS) eqn:E; injection H as <-; auto.
  apply all_canonical_add; auto using component_canonical.
Qed.

Lemma visit_specifier_canonical spec acc acc' :
  all_canonical acc -> visit_specifier spec acc = inr acc' -> all_canonical acc'.
Proof.
  intros Hacc H. unfold visit_specifier, bind, ret in H.
  destruct spec as [| | | | | sp]; try (injection H as <-; now auto).
  destruct (get _ "name" _) as [| imported_name]; [discriminate |].
  destruct (if truthy imported_name then _ else _) as [| name]; [discriminate |].
  destruct (hashed_in name REACT_IMPORTS) as [| imp] eqn:Hi; [discriminate |].
  destruct (hashed_in name REACT_HOOKS) as [| hook] eqn:Hh; [discriminate |].
  injection H as <-.
  destruct name as [| | | n | |]; auto.
  simpl in Hh, Hi. injection Hh as Hh. injection Hi as Hi.
  destruct hook, imp; auto using all_canonical_add, hook_canonical, import_canonical.
Qed.

Lemma visit_specifiers_canonical specs :
  forall acc acc',
    all_canonical acc -> visit_specifiers specs acc = inr acc' -> all_canonical acc'.
Proof.
  induction specs as [| spec specs IH]; intros acc acc' Hacc H; simpl in H.
  - now injection H as <-.
  - unfold bind in H. destruct (visit_specifier spec acc) as [| acc1] eqn:E; [discriminate |].
    eauto using visit_specifier_canonical.
Qed.

Lemma visit_node_canonical node acc acc' :
  all_canonical acc -> visit_node node acc = inr acc' -> all_canonical acc'.
Proof.
  intros Hacc H. unfold visit_node, bind, ret in H.
  destruct (if is_str _ "MemberExpression" then _ else _) as [| acc1] eqn:E1; [discriminate |].
  destruct (if is_str _ "CallExpression" then _ else _) as [| acc2] eqn:E2; [discriminate |].
  destruct (if is_str _ "ClassDeclaration" then _ else _) as [| acc3] eqn:E3; [discriminate |].
  destruct (if is_str _ "JSXMemberExpression" then _ else _) as [| acc4] eqn:E4; [discriminate |].
  assert (H1 : all_canonical acc1).
  { destruct (is_str _ _); [eauto using visit_member_canonical | now injection E1 as <-]. }
  assert (H2 : all_canonical acc2).
  { destruct (is_str _ "CallExpression");
      [eauto using visit_call_canonical | now injection E2 as <-]. }
  assert (H3 : all_canonical acc3).
  { destruct (is_str _ "ClassDeclaration");
      [eauto using visit_class_canonical | now injection E3 as <-]. }
  assert (H4 : all_canonical acc4).
  { destruct (is_str _ "JSXMemberExpression");
      [eauto using visit_jsx_canonical | now injection E4 as <-]. }
  destruct (is_str _ "ImportDeclaration"); [| now injection H as <-].
  unfold visit_import, bind in H.
  destruct (get _ "value" _); [discriminate |].
  destruct (iterate _) as [| specifiers]; [discriminate |].
  eauto using visit_specifiers_canonical.
Qed.

(** The structural extractor adds canonical symbols only. *)
Lemma walk_canonical node :
  forall acc acc', all_canonical acc -> walk node acc = inr acc' -> all_canonical acc'.
Proof.
  induction node as [| b | n | s | items IH | fields IH] using json_nested_ind;
    intros acc acc' Hacc H; simpl in H; try (now injection H as <-).
  - revert acc Hacc H. induction IH as [| item items Hitem _ IHitems]; intros acc Hacc H.
    + now injection H as <-.
    + unfold bind in H. destruct (walk item acc) as [| acc1] eqn:E; [discriminate |].
      eauto.
  - unfold bind in H at 1.
    destruct (visit_node fields acc) as [| acc1] eqn:E; [discriminate |].
    apply visit_node_canonical in E; [| done].
    clear Hacc. revert acc1 E H.
    induction IH as [| [k v] fields Hv _ IHfields]; intros acc1 Hacc H.
    + now injection H as <-.
    + simpl in Hv. destruct v; eauto.
      * unfold bind in H. destruct (walk (JList items) acc1) as [| acc2] eqn:E; [discriminate |].
        eauto.
      * unfold bind in H. destruct (walk (JDict fields0) acc1) as [| acc2] eqn:E; [discriminate |].
        eauto.
Qed.


(** *** What a match of the lexical extractor captures *)

(** Finds the group of a pattern that is a sequence. *)
Ltac find_group :=
  lazymatch goal with
  | |- sets_group _ (Group (alts _ _)) => apply sg_group; apply incl_refl
  | |- sets_group _ (Seq (Group _) _) => apply sg_seq_l; [find_group | repeat constructor]
  | |- sets_group _ (Seq _ _) => apply sg_seq_r; find_group
  end.

Section Matching.
Variable unicode_alnum : N -> bool.

#[local] Abbreviation run := (run unicode_alnum).
#[local] Abbreviation match_at := (match_at unicode_alnum).
#[local] Abbreviation finditer_from := (finditer_from unicode_alnum).

Lemma lit_matches (l : list ascii) :
  forall pos prev s (k : nat -> option N -> text -> option (nat * text)) x,
    lit l pos prev s k = Some x ->
    exists prev' s',
      s = (map N_of_ascii l ++ s')%list /\ k (pos + length l) prev' s' = Some x.
Proof.
  induction l as [| c l IH]; intros pos prev s k x H; simpl in H.
  - exists prev, s. now rewrite Nat.add_0_r.
  - destruct s as [| d s]; [discriminate |].
    destruct (N.eqb_spec (N_of_ascii c) d) as [<- |]; [| discriminate].
    apply IH in H as (prev' & s' & -> & H). exists prev', s'. split; [done |].
    simpl. now rewrite <- Nat.add_succ_comm.
Qed.

Lemma star_continues (p : N -> bool) (s : text) :
  forall pos prev (k : nat -> option N -> text -> option (nat * text)) x,
    star p pos prev s k = Some x -> exists pos' prev' s', k pos' prev' s' = Some x.
Proof.
  induction s as [| c s IH]; intros pos prev k x H; simpl in H; [eauto |].
  destruct (p c); [| eauto].
  destruct (star p (S pos) (Some c) s k) eqn:E; [| eauto].
  injection H as ->. eauto.
Qed.

Lemma keeps_group_run r :
  keeps_group r ->
  forall pos prev s cap k x,
    run r pos prev s cap k = Some x -> exists pos' prev' s', k pos' prev' s' cap = Some x.
Proof.
  induction 1 as [l | p | p | p | | r1 r2 _ IH1 _ IH2 | r1 r2 _ IH1 _ IH2];
    intros pos prev s cap k x H; simpl in H.
  - apply lit_matches in H as (prev' & s' & _ & H). eauto.
  - destruct s as [| c s]; [discriminate |]. destruct (p c); [eauto | discriminate].
  - apply star_continues in H. exact H.
  - destruct s as [| c s]; [discriminate |]. destruct (p c); [| discriminate].
    apply star_continues in H. exact H.
  - destruct (xorb _ _); [eauto | discriminate].
  - apply IH1 in H as (pos1 & prev1 & s1 & H). eauto.
  - destruct (run r1 pos prev s cap k) eqn:E; [injection H as ->; eauto | eauto].
Qed.

Lemma run_continues r :
  forall pos prev s cap k x,
    run r pos prev s cap k = Some x ->
    exists pos' prev' s' cap', k pos' prev' s' cap' = Some x.
Proof.
  induction r as [l | p | p | p | | r1 IH1 r2 IH2 | r1 IH1 r2 IH2 | r IH];
    intros pos prev s cap k x H; simpl in H.
  - apply lit_matches in H as (prev' & s' & _ & H). eauto.
  - destruct s as [| c s]; [discriminate |]. destruct (p c); [eauto | discriminate].
  - apply star_continues in H as (pos' & prev' & s' & H). eauto.
  - destruct s as [| c s]; [discriminate |]. destruct (p c); [| discriminate].
    apply star_continues in H as (pos' & prev' & s' & H). eauto.
  - destruct (xorb _ _); [eauto | discriminate].
  - apply IH1 in H as (pos1 & prev1 & s1 & cap1 & H). eauto.
  - destruct (run r1 pos prev s cap k) eqn:E; [injection H as ->; eauto | eauto].
  - apply IH in H as (pos1 & prev1 & s1 & cap1 & H). eauto.
Qed.

Lemma firstn_literal (l : list ascii) (s' : text) pos :
  firstn (pos + length l - pos) (map N_of_ascii l ++ s')%list = map N_of_ascii l.
Proof.
  replace (pos + length l - pos) with (length (map N_of_ascii l))
    by (rewrite length_map; lia).
  now rewrite firstn_app, Nat.sub_diag, firstn_all, app_nil_r.
Qed.

Lemma alts_run rest :
  forall a pos prev s cap k x,
    run (alts a rest) pos prev s cap k = Some x ->
    exists name prev' s',
      In name (a :: rest)
      /\ s = (of_string name ++ s')%list
      /\ k (pos + length (list_ascii_of_string name)) prev' s' cap = Some x.
Proof.
  induction rest as [| b rest IH]; intros a pos prev s cap k x H; simpl in H.
  - apply lit_matches in H as (prev' & s' & -> & H).
    exists a, prev', s'. repeat split; [now left | done].
  - destruct (lit _ pos prev s _) eqn:E.
    + injection H as ->. apply lit_matches in E as (prev' & s' & -> & H).
      exists a, prev', s'. repeat split; [now left | done].
    + apply IH in H as (name & prev' & s' & Hin & -> & H).
      exists name, prev', s'. repeat split; [now right | done].
Qed.

Lemma sets_group_run names r :
  sets_group names r ->
  forall pos prev s cap k x,
    run r pos prev s cap k = Some x ->
    exists name pos' prev' s',
      In name names /\ k pos' prev' s' (Some (of_string name)) = Some x.
Proof.
  induction 1 as [a rest Hincl | r1 r2 _ IH Hkeep | r1 r2 _ IH];
    intros pos prev s cap k x H; simpl in H.
  - apply alts_run in H as (name & prev' & s' & Hin & -> & H).
    unfold of_string in H at 1. rewrite firstn_literal in H.
    exists name. eauto 10.
  - apply IH in H as (name & pos1 & prev1 & s1 & Hin & H).
    apply (keeps_group_run _ Hkeep) in H as (pos' & prev' & s' & H). eauto 10.
  - apply run_continues in H as (pos1 & prev1 & s1 & cap1 & H). eauto.
Qed.

Lemma match_at_group names r pos prev s e g :
  sets_group names r -> match_at r pos prev s = Some (e, g) ->
  exists name, In name names /\ g = of_string name.
Proof.
  intros Hr H. unfold Re.match_at in H.
  apply (sets_group_run _ _ Hr) in H as (name & pos' & prev' & s' & Hin & H).
  injection H as _ <-. eauto.
Qed.

Lemma finditer_from_matches r (s : text) :
  forall pos prev skip m,
    In m (finditer_from r pos prev s skip) ->
    exists pos' prev' s', match_at r pos' prev' s' = Some (m_end m, m_group1 m).
Proof.
  induction s as [| c s IH]; intros pos prev skip m Hm; simpl in Hm.
  - destruct skip; [| contradiction].
    destruct (match_at r pos prev []) as [[e g] |] eqn:E; [| contradiction].
    destruct Hm as [<- | []]. eauto.
  - destruct skip; [| eauto].
    destruct (match_at r pos prev (c :: s)) as [[e g] |] eqn:E; [| eauto].
    destruct Hm as [<- | Hm]; eauto.
Qed.

Lemma add_matches_canonical names owner pattern code acc :
  sets_group names pattern ->
  forallb (fun name => canonical (owner ++ to_string (of_string name))) names = true ->
  all_canonical acc ->
  all_canonical (add_matches unicode_alnum owner pattern code acc).
Proof.
  intros Hr Hnames. unfold add_matches, finditer.
  assert (Hall : forall m, In m (finditer_from pattern 0 None code 0) ->
                   canonical (owner ++ to_string (m_group1 m)) = true).
  { intros m Hm. apply finditer_from_matches in Hm as (pos' & prev' & s' & Hm).
    apply (match_at_group _ _ _ _ _ _ _ Hr) in Hm as (name & Hin & ->).
    rewrite forallb_forall in Hnames. auto. }
  revert acc. induction (finditer_from pattern 0 None code 0) as [| m ms IH]; intros acc Hacc.
  - exact Hacc.
  - simpl. apply IH.
    + intros m' Hm'. apply Hall. now right.
    + apply all_canonical_add; [apply Hall; now left | done].
Qed.

(** The lexical extractor adds canonical symbols only. *)
Lemma regex_symbols_canonical code : all_canonical (regex_symbols unicode_alnum code).
Proof.
  unfold regex_symbols.
  assert (H : all_canonical
                (add_matches unicode_alnum "React." component_pattern code
                   (add_matches unicode_alnum "React." class_pattern code
                      (add_matches unicode_alnum "" new_api_pattern code
                         (add_matches unicode_alnum "" hooks_pattern code
                            (add_matches unicode_alnum "React." react_pattern code
                               (add_matches unicode_alnum "ReactDOM." reactdom_pattern code ∅))))))).
  { unfold component_pattern, class_pattern, new_api_pattern, hooks_pattern,
      react_pattern, reactdom_pattern.
    repeat (eapply add_matches_canonical; [find_group | vm_compute; reflexivity |]).
    apply all_canonical_empty. }
  destruct (search _ _ _); [| exact H].
  apply all_canonical_add; [reflexivity | exact H].
Qed.


End Matching.

(** *** The scanner *)

Lemma dict_set_In {V} (d : list (string * V)) k v p c :
  In (p, c) (dict_set d k v) -> (p, c) = (k, v) \/ In (p, c) d.
Proof.
  induction d as [| [k' v'] d IH]; simpl.
  - intros [H | []]. now left.
  - destruct (String.eqb k' k).
    + intros [H | H]; [now left | right; now right].
    + intros [H | H]; [right; now left |].
      destruct (IH H) as [E | Hin]; [now left | right; now right].
Qed.

Section Scanner.
Variable unicode_alnum : N -> bool.
Variable HAS_ESPRIMA : bool.
Variable parseScript parseModule : text -> option json.

#[local] Abbreviation extract_regex := (extract_api_calls_regex unicode_alnum).
#[local] Abbreviation extract_ast :=
  (extract_api_calls_ast unicode_alnum HAS_ESPRIMA parseScript parseModule).
#[local] Abbreviation scan_file :=
  (scan_file unicode_alnum HAS_ESPRIMA parseScript parseModule).
#[local] Abbreviation scan_project_locals :=
  (scan_project_locals unicode_alnum HAS_ESPRIMA parseScript parseModule).
#[local] Abbreviation scan_project :=
  (scan_project unicode_alnum HAS_ESPRIMA parseScript parseModule).

(** Reading never fails on the bytes: whatever they are, the lexical
    extractor works on the decoded text. *)
Lemma extract_regex_content bs :
  extract_regex (Content bs) = inr (sorted_set (regex_symbols unicode_alnum (read_text bs))).
Proof. reflexivity. Qed.

Lemma extract_regex_unreadable e : extract_regex (Unreadable e) = inl e.
Proof. reflexivity. Qed.

(** What an extraction returns is a set of canonical symbols, sorted. *)
Lemma extract_ast_returns f calls :
  extract_ast f = inr calls ->
  exists api_calls : gset string, all_canonical api_calls /\ calls = sorted_set api_calls.
Proof.
  unfold Analyzer.extract_api_calls_ast.
  assert (Hregex : extract_regex f = inr calls ->
            exists api_calls : gset string,
              all_canonical api_calls /\ calls = sorted_set api_calls).
  { destruct f as [e | bs]; [discriminate |]. rewrite extract_regex_content.
    intros [= <-]. eauto using regex_symbols_canonical. }
  destruct (negb HAS_ESPRIMA); [exact Hregex |].
  destruct f as [e | bs]; [discriminate |]. simpl. unfold bind.
  destruct (parseScript _) as [t |].
  - destruct (walk t ∅) as [| api_calls] eqn:E; [discriminate |]. intros [= <-].
    exists api_calls. split; [| done]. eapply walk_canonical; eauto using all_canonical_empty.
  - destruct (parseModule _) as [t |]; [| exact Hregex].
    destruct (walk t ∅) as [| api_calls] eqn:E; [discriminate |]. intros [= <-].
    exists api_calls. split; [| done]. eapply walk_canonical; eauto using all_canonical_empty.
Qed.

(** An extraction raises for an unreadable file, or when the walk of a
    parsed tree raises; never because of the bytes read. *)
Lemma extract_ast_raises f e :
  extract_ast f = inl e ->
  f = Unreadable e
  \/ exists bs t,
      f = Content bs
      /\ (parseScript (read_text bs) = Some t \/ parseModule (read_text bs) = Some t)
      /\ walk t ∅ = inl e.
Proof.
  unfold Analyzer.extract_api_calls_ast.
  destruct (negb HAS_ESPRIMA).
  { destruct f as [e' | bs]; [intros [= ->]; now left | discriminate]. }
  destruct f as [e' | bs]; [intros [= ->]; now left |]. simpl. unfold bind.
  destruct (parseScript _) as [t |] eqn:Es.
  - destruct (walk t ∅) as [e' |] eqn:E; [| discriminate]. intros [= ->]. right. eauto 6.
  - destruct (parseModule _) as [t |] eqn:Em; [| discriminate].
    destruct (walk t ∅) as [e' |] eqn:E; [| discriminate]. intros [= ->]. right. eauto 6.
Qed.

#[local] Abbreviation results_traced := (results_traced extract_ast).
#[local] Abbreviation skipped_traced := (skipped_traced extract_ast).

Lemma scan_file_traced files root file st :
  (eligible (fst file) = true -> In (os_path_join root (fst file), snd file) files) ->
  results_traced files st /\ skipped_traced files st ->
  results_traced files (scan_file root file st) /\ skipped_traced files (scan_file root file st).
Proof.
  intros Hfile [Hres Hskip]. unfold Analyzer.scan_file. fold (eligible (fst file)).
  destruct (eligible (fst file)); [| done]. specialize (Hfile eq_refl).
  destruct (extract_ast (snd file)) as [e | calls] eqn:E.
  - split; [exact Hres |]. intros p msg Hin. simpl in Hin.
    apply in_app_or in Hin as [Hin | [[= <- <-] | []]]; [auto | eauto].
  - destruct calls as [| c calls]; [done |]. split; [| exact Hskip].
    intros p calls' Hin. simpl in Hin. apply dict_set_In in Hin as [[= -> ->] | Hin]; [| auto].
    split; [discriminate | eauto].
Qed.

Lemma scan_files_traced files root (dir_files : list (string * FileData)) :
  forall st,
    (forall file, In file dir_files -> eligible (fst file) = true ->
                  In (os_path_join root (fst file), snd file) files) ->
    results_traced files st /\ skipped_traced files st ->
    results_traced files (fold_left (fun st file => scan_file root file st) dir_files st)
    /\ skipped_traced files (fold_left (fun st file => scan_file root file st) dir_files st).
Proof.
  induction dir_files as [| file dir_files IH]; intros st Hfiles Hst; [exact Hst |].
  simpl. apply IH.
  - intros file' Hin. apply Hfiles. now right.
  - apply scan_file_traced; [apply Hfiles; now left | exact Hst].
Qed.

Lemma scan_visits_traced files (visits : list (string * list (string * FileData))) :
  forall st,
    (forall visit file, In visit visits -> In file (snd visit) -> eligible (fst file) = true ->
                        In (os_path_join (fst visit) (fst file), snd file) files) ->
    results_traced files st /\ skipped_traced files st ->
    let st' :=
      fold_left
        (fun st visit => fold_left (fun st file => scan_file (fst visit) file st) (snd visit) st)
        visits st in
    results_traced files st' /\ skipped_traced files st'.
Proof.
  induction visits as [| visit visits IH]; intros st Hvisits Hst; [exact Hst |].
  simpl. apply IH.
  - intros visit' file Hin. apply Hvisits. now right.
  - apply scan_files_traced; [| exact Hst].
    intros file Hin. apply Hvisits; [now left | done].
Qed.

Lemma scan_project_traced project_path top :
  results_traced (eligible_files project_path top) (scan_project_locals project_path top)
  /\ skipped_traced (eligible_files project_path top) (scan_project_locals project_path top).
Proof.
  unfold Analyzer.scan_project_locals. apply scan_visits_traced.
  - intros visit file Hvisit Hfile Hel. unfold eligible_files.
    apply in_flat_map. exists visit. split; [exact Hvisit |].
    apply in_map_iff. exists file. split; [done |].
    apply filter_In. now split.
  - split; intros p x [].
Qed.

(** C9. Every list in the mapping [scan_project] returns is the result
    of the extraction of a source file the walk reached, and it is not
    empty, sorted in the order of Python's string comparison, free of
    duplicates and made of canonical symbols. A file whose extraction
    gives no symbol changes neither the mapping nor the list of skipped
    files. *)
Theorem C9_mapping_lists_sorted (project_path : string) (top : Dir) :
  (forall p calls,
      In (p, calls) (scan_project project_path top) ->
      calls <> []
      /\ StronglySorted str_le calls
      /\ NoDup calls
      /\ Forall (fun name => canonical name = true) calls
      /\ exists data,
          In (p, data) (eligible_files project_path top) /\ extract_ast data = inr calls)
  /\ (forall root file st, extract_ast (snd file) = inr [] -> scan_file root file st = st).
Proof.
  split.
  - intros p calls Hin.
    destruct (scan_project_traced project_path top) as [Hres _].
    destruct (Hres p calls Hin) as (Hne & data & Hdata & Hex).
    destruct (extract_ast_returns _ _ Hex) as (api_calls & Hcan & ->).
    split; [exact Hne |]. split; [apply PyFacts.sorted_strongly |].
    split; [apply PyFacts.NoDup_sorted_set |]. split; [| eauto].
    apply Forall_forall. intros name Hname.
    apply Hcan, PyFacts.elem_of_sorted_set. exact Hname.
  - intros root file st Hex. unfold Analyzer.scan_file. rewrite Hex.
    now destruct (mem _ _).
Qed.

End Scanner.

(** *** Bytes that are not UTF-8 *)

(** *** The walk on a tree of the usual shape *)

Lemma has_dict_get node key d :
  has_dict node key = true -> exists x, get (field node key (JDict [])) "name" d = inr x.
Proof.
  unfold has_dict. destruct (field node key (JDict [])); try discriminate. intros _.
  eexists. reflexivity.
Qed.

Lemma has_named_get node key :
  has_named node key = true ->
  exists x, get (field node key (JDict [])) "name" (JStr "") = inr x /\ hashable x = true.
Proof.
  unfold has_named. destruct (field node key (JDict [])); try discriminate. intros H.
  eexists. split; [reflexivity | exact H].
Qed.

Lemma hashable_hashed x names : hashable x = true -> exists b, hashed_in x names = inr b.
Proof. destruct x; try discriminate; intros _; eexists; reflexivity. Qed.

Lemma visit_member_returns node acc :
  has_named node "object" = true -> has_named node "property" = true ->
  exists found, visit_member node acc = inr found.
Proof.
  intros Hobj Hprop. unfold visit_member.
  destruct (has_named_get _ _ Hobj) as (obj_name & -> & Hobj_name).
  destruct (has_named_get _ _ Hprop) as (prop_name & -> & Hprop_name).
  cbn [bind].
  destruct (hashable_hashed obj_name (map fst REACT_MEMBER_APIS) Hobj_name) as [known ->].
  cbn [bind]. destruct known; [| eexists; reflexivity].
  destruct obj_name as [| b | n | owner | items | fields]; try (eexists; reflexivity).
  destruct (hashable_hashed prop_name (default [] (dict_get REACT_MEMBER_APIS owner))
              Hprop_name) as [known ->].
  cbn [bind]. destruct prop_name; eexists; reflexivity.
Qed.

Lemma visit_call_returns node acc :
  has_named node "callee" = true -> exists found, visit_call node acc = inr found.
Proof.
  intros Hcallee. unfold visit_call.
  destruct (has_named_get _ _ Hcallee) as (callee_name & -> & Hname). cbn [bind].
  destruct (hashable_hashed callee_name REACT_HOOKS Hname) as [hook ->].
  destruct (hashable_hashed callee_name REACT_IMPORTS Hname) as [imp ->].
  eexists. reflexivity.
Qed.

Lemma visit_class_returns node acc :
  match field node "superClass" (JDict []) with
  | JDict sup => has_dict sup "object" && has_dict sup "property"
  | _ => true
  end = true ->
  exists found, visit_class node acc = inr found.
Proof.
  unfold visit_class. destruct (field node "superClass" (JDict [])) as [| | | | | sup];
    try (intros _; eexists; reflexivity).
  intros H. apply andb_true_iff in H as [Hobj Hprop].
  destruct (has_dict_get _ _ JNull Hobj) as [obj_name ->]. cbn [bind].
  destruct (is_str obj_name "React"); [| eexists; reflexivity].
  destruct (has_dict_get _ _ JNull Hprop) as [prop_name ->]. cbn [bind].
  destruct prop_name; eexists; reflexivity.
Qed.

Lemma visit_jsx_returns node acc :
  has_dict node "object" = true -> has_dict node "property" = true ->
  exists found, visit_jsx node acc = inr found.
Proof.
  intros Hobj Hprop. unfold visit_jsx.
  destruct (has_dict_get _ _ JNull Hobj) as [obj_name ->]. cbn [bind].
  destruct (is_str obj_name "React"); [| eexists; reflexivity].
  destruct (has_dict_get _ _ (JStr "") Hprop) as [prop_name ->]. cbn [bind].
  destruct (inserted_name prop_name); eexists; reflexivity.
Qed.

Lemma visit_specifier_returns spec acc :
  specifier_ok spec = true -> exists found, visit_specifier spec acc = inr found.
Proof.
  destruct spec as [| | | | | sp]; try (intros _; eexists; reflexivity).
  intros H. apply andb_true_iff in H as [Himported Hlocal]. unfold visit_specifier.
  destruct (has_named_get _ _ Himported) as (imported_name & -> & Hiname).
  destruct (has_named_get _ _ Hlocal) as (local_name & Hlname & Hlhash).
  cbn [bind].
  assert (Hname : exists name,
            (if truthy imported_name then ret imported_name
             else get (field sp "local" (JDict [])) "name" (JStr "")) = inr name
            /\ hashable name = true).
  { destruct (truthy imported_name); [exists imported_name | exists local_name]; auto. }
  destruct Hname as (name & -> & Hhash). cbn [bind].
  destruct (hashable_hashed name REACT_IMPORTS Hhash) as [imp ->].
  destruct (hashable_hashed name REACT_HOOKS Hhash) as [hook ->].
  eexists. reflexivity.
Qed.

Lemma visit_specifiers_returns specs :
  forallb specifier_ok specs = true ->
  forall acc, exists found, visit_specifiers specs acc = inr found.
Proof.
  induction specs as [| spec specs IH]; intros H acc; [eexists; reflexivity |].
  simpl in H. apply andb_true_iff in H as [Hspec Hspecs]. cbn [visit_specifiers].
  destruct (visit_specifier_returns spec acc Hspec) as [found ->]. cbn [bind]. now apply IH.
Qed.

Lemma visit_import_returns node acc :
  has_dict node "source" = true ->
  match field node "specifiers" (JList []) with
  | JList specs => forallb specifier_ok specs
  | _ => false
  end = true ->
  exists found, visit_import node acc = inr found.
Proof.
  intros Hsource Hspecs. unfold visit_import.
  assert (Hvalue : exists x, get (field node "source" (JDict [])) "value" (JStr "") = inr x).
  { unfold has_dict in Hsource. destruct (field node "source" (JDict [])); try discriminate.
    eexists. reflexivity. }
  destruct Hvalue as [source ->]. cbn [bind].
  destruct (field node "specifiers" (JList [])) as [| | | | specs |]; try discriminate.
  cbn [iterate bind ret]. now apply visit_specifiers_returns.
Qed.

Lemma visit_node_returns node acc :
  node_ok node = true -> exists found, visit_node node acc = inr found.
Proof.
  unfold node_ok, visit_node. intros H.
  apply andb_true_iff in H as [H Himport]. apply andb_true_iff in H as [H Hjsx].
  apply andb_true_iff in H as [H Hclass]. apply andb_true_iff in H as [Hmember Hcall].
  assert (Hstep1 : exists acc1,
            (if is_str (field node "type" (JStr "")) "MemberExpression"
             then visit_member node acc else ret acc) = inr acc1).
  { destruct (is_str _ "MemberExpression"); [| eexists; reflexivity].
    apply andb_true_iff in Hmember as [Hobj Hprop]. now apply visit_member_returns. }
  destruct Hstep1 as [acc1 ->]. cbn [bind].
  assert (Hstep2 : exists acc2,
            (if is_str (field node "type" (JStr "")) "CallExpression"
             then visit_call node acc1 else ret acc1) = inr acc2).
  { destruct (is_str _ "CallExpression"); [| eexists; reflexivity].
    now apply visit_call_returns. }
  destruct Hstep2 as [acc2 ->]. cbn [bind].
  assert (Hstep3 : exists acc3,
            (if is_str (field node "type" (JStr "")) "ClassDeclaration"
             then visit_class node acc2 else ret acc2) = inr acc3).
  { destruct (is_str _ "ClassDeclaration"); [| eexists; reflexivity].
    now apply visit_class_returns. }
  destruct Hstep3 as [acc3 ->]. cbn [bind].
  assert (Hstep4 : exists acc4,
            (if is_str (field node "type" (JStr "")) "JSXMemberExpression"
             then visit_jsx node acc3 else ret acc3) = inr acc4).
  { destruct (is_str _ "JSXMemberExpression"); [| eexists; reflexivity].
    apply andb_true_iff in Hjsx as [Hobj Hprop]. now apply visit_jsx_returns. }
  destruct Hstep4 as [acc4 ->]. cbn [bind].
  destruct (is_str _ "ImportDeclaration"); [| eexists; reflexivity].
  apply andb_true_iff in Himport as [Hsource Hspecs]. now apply visit_import_returns.
Qed.

Lemma walk_returns tree :
  well_shaped tree = true -> forall acc, exists found, walk tree acc = inr found.
Proof.
  induction tree as [| b | n | s | items IH | fields IH] using json_nested_ind;
    intros Hshape acc; try (eexists; reflexivity).
  - simpl in *. revert Hshape acc.
    induction IH as [| item items Hitem _ IHitems]; intros Hshape acc; [eexists; reflexivity |].
    apply andb_true_iff in Hshape as [Hfirst Hrest].
    destruct (Hitem Hfirst acc) as [acc1 ->]. cbn [bind]. now apply IHitems.
  - simpl in *. apply andb_true_iff in Hshape as [Hnode Hvalues].
    destruct (visit_node_returns fields acc Hnode) as [acc1 ->]. cbn [bind].
    clear Hnode acc. revert Hvalues acc1.
    induction IH as [| [k v] fields Hv _ IHfields]; intros Hvalues acc;
      [eexists; reflexivity |].
    apply andb_true_iff in Hvalues as [Hfirst Hrest]. simpl in Hv.
    destruct v; try (now apply IHfields).
    + destruct (Hv Hfirst acc) as [acc1 ->]. cbn [bind]. now apply IHfields.
    + destruct (Hv Hfirst acc) as [acc1 ->]. cbn [bind]. now apply IHfields.
Qed.

Section Decoding.
Variable unicode_alnum : N -> bool.
Variable HAS_ESPRIMA : bool.
Variable parseScript parseModule : text -> option json.

#[local] Abbreviation extract_regex := (extract_api_calls_regex unicode_alnum).
#[local] Abbreviation extract_ast :=
  (extract_api_calls_ast unicode_alnum HAS_ESPRIMA parseScript parseModule).
#[local] Abbreviation scan_project_locals :=
  (scan_project_locals unicode_alnum HAS_ESPRIMA parseScript parseModule).


End Decoding.

(** C6, on the code. For a file that cannot be read the scanner adds an
    item to its local list [skipped] and leaves the mapping as it is; and
    [scan_project] returns the mapping alone. On the sample project the
    failure of [locked.js] is in [skipped] and the value returned shows
    nothing of it. *)
Theorem C6_skipped_list_is_dropped :
  (forall unicode_alnum HAS_ESPRIMA parseScript parseModule root name e st,
      eligible name = true ->
      let st' := scan_file unicode_alnum HAS_ESPRIMA parseScript parseModule root
                   (name, Unreadable e) st in
      results st' = results st
      /\ skipped st' = (skipped st ++ [(os_path_join root name, exn_str e)])%list)
  /\ (forall unicode_alnum HAS_ESPRIMA parseScript parseModule project_path top,
        scan_project unicode_alnum HAS_ESPRIMA parseScript parseModule project_path top
        = results (scan_project_locals unicode_alnum HAS_ESPRIMA parseScript parseModule
                     project_path top))
  /\ skipped (scan_project_locals Samples.ascii_only false Samples.no_parser Samples.no_parser
                "/app" Samples.sample_project)
     = [("/app/src/locked.js", "[Errno 13] Permission denied: '/app/src/locked.js'")]
  /\ scan_project Samples.ascii_only false Samples.no_parser Samples.no_parser
       "/app" Samples.sample_project
     = [("/app/src/state.js", ["useState"])].
Proof.
  split.
  - intros ua has ps pm root name e st Hel.
    assert (Hex : extract_api_calls_ast ua has ps pm (Unreadable e) = inl e)
      by (unfold extract_api_calls_ast; now destruct (negb has)).
    unfold eligible in Hel. unfold scan_file. cbn [fst snd]. rewrite Hel, Hex.
    split; reflexivity.
  - split; [reflexivity |]. split; vm_compute; reflexivity.
Qed.

End AnalyzerSpec.

(** ** The extractors on concrete inputs *)
Module AnalyzerExamples.
Import Analyzer Stated Samples.

Lemma gap_call_parser_shaped code t :
  gap_call_parser code = Some t \/ gap_call_parser code = Some t -> well_shaped t = true.
Proof.
  intros [H | H]; unfold gap_call_parser in H;
    destruct (bool_decide _); try discriminate; injection H as <-; reflexivity.
Defined.



(** The lexical extractor finds the call when it is written without the
    gap, and every canonical symbol in the text of all forms. *)
Example lexical_finds_plain_call :
  extract_api_calls_regex ascii_only (Content (list_byte_of_string "ReactDOM.render(app, root);"))
  = inr ["ReactDOM.render"].
Proof. vm_compute. reflexivity. Qed.

Example lexical_finds_all_forms :
  forall name,
    In name VOCABULARY ->
    In name (reported (extract_api_calls_regex ascii_only
                         (Content (list_byte_of_string all_forms_source)))).
Proof.
  intros name Hname. apply AnalyzerSpec.mem_In.
  assert (Hall : forallb
                   (fun n => mem n (reported (extract_api_calls_regex ascii_only
                      (Content (list_byte_of_string all_forms_source)))))
                   VOCABULARY = true) by (vm_compute; reflexivity).
  rewrite forallb_forall in Hall. auto.
Qed.

(** The sample project with and without the parser. *)
Example sample_scan_structural :
  scan_project_locals ascii_only true gap_call_parser gap_call_parser "/app" sample_project
  = mkScan
      [("/app/src/state.js", ["useState"]); ("/app/src/main.JSX", ["ReactDOM.render"])]
      [("/app/src/locked.js", "[Errno 13] Permission denied: '/app/src/locked.js'")].
Proof. vm_compute. reflexivity. Qed.

Example decoding_drops_ill_formed_bytes :
  read_text [x61; xff; xe2; x82; x62; xe2; x82; xac; x0d; x0a; xc3]
  = [97; 98; 8364; 10]%N.
Proof. vm_compute. reflexivity. Qed.

End AnalyzerExamples.

(** ** The command line *)
Module CliSpec.
Import Analyzer Checker Cli Stated Samples MoreSamples.

(** C7, on the code: the value given to [--threshold] never reaches the
    classifier, so [main] ends the same way for every value of it. With
    [--threshold 0.5] and a best match at 0.70 the report still has the
    symbol under the breaking changes, where a cutoff of 0.5 would make
    it a minor change: the cutoff used is the constant 0.85. *)
Theorem C7_threshold_flag_is_ignored :
  (forall (Vector : Type) (encode : string -> Vector) py_int py_round index_query
          unicode_alnum HAS_ESPRIMA parseScript parseModule abspath tree_at
          str_repeat new_checker write_json
          (args : Args) (t : float) (log : Log),
      main encode py_int py_round index_query unicode_alnum HAS_ESPRIMA parseScript
        parseModule abspath tree_at str_repeat new_checker write_json
        (with_threshold t args) log
      = main encode py_int py_round index_query unicode_alnum HAS_ESPRIMA parseScript
          parseModule abspath tree_at str_repeat new_checker write_json args log)
  /\ exists r v log',
      main keep_text decimal_int keep_value (constant_index 0.70) ascii_only false
        no_parser no_parser already_absolute sample_tree_at
        always_fits checker_ready json_written
        (with_threshold 0.5 (default_args "/app")) []
      = (Reported r None, log')
      /\ breaking_changes r = [mkEntry "/app/src/state.js" v]
      /\ minor_changes r = []
      /\ old_api v = Some "useState"
      /\ similarity v = Some 0.70%float
      /\ status v = breaking_change
      /\ decision_table 0.5 0.95 false 0.70 = minor_change.
Proof.
  split; [reflexivity |].
  eexists _, _, _. split; [vm_compute; reflexivity |]. repeat split.
Qed.

End CliSpec.

(** ** Reading a file *)
Module TextFacts.
Import Analyzer Stated StatedMore.

Lemma check_below_spec (ok : N -> bool) (n : N) :
  fst (check_below ok n) = n
  /\ (snd (check_below ok n) = true -> forall c, (c < n)%N -> ok c = true).
Proof.
  unfold check_below. induction n as [| n [IHfst IHsnd]] using N.peano_ind.
  - split; [reflexivity |]. intros _ c Hc. lia.
  - rewrite N.iter_succ. cbn [fst snd]. rewrite IHfst. split; [reflexivity |].
    intros Hok c Hc. apply andb_true_iff in Hok as [Hprev Hn].
    destruct (N.eq_dec c n) as [-> | Hne]; [exact Hn |].
    apply IHsnd; [exact Hprev | lia].
Qed.

(** The checks run on all the values there are. *)
Lemma all_tails_checked : snd (check_below tail_ok 64) = true.
Proof. vm_compute. reflexivity. Qed.

Lemma all_leads_checked :
  snd (check_below (fun q => negb (lead_of_scalar q) || lead_ok q) 0x4400) = true.
Proof. vm_compute. reflexivity. Qed.

(** A code point is its bits above the six low ones and these six. *)
Lemma high_and_low (c : N) : N.lor (N.shiftl (N.shiftr c 6) 6) (N.land c 0x3F) = c.
Proof.
  change 0x3F%N with (N.ones 6). rewrite <- N.ldiff_ones_r. apply N.lor_ldiff_and.
Qed.

Lemma high_bits (c k : N) : ((c <? 64 * k) = (N.shiftr c 6 <? k))%N.
Proof.
  rewrite N.shiftr_div_pow2. change (2 ^ 6)%N with 64%N.
  pose proof (N.Div0.div_mod c 64) as Hdiv.
  pose proof (N.mod_lt c 64 ltac:(lia)) as Hmod.
  revert Hdiv Hmod. generalize (c / 64)%N (c mod 64)%N. intros q m Hdiv Hmod.
  destruct (N.ltb_spec c (64 * k)), (N.ltb_spec q k); try reflexivity; lia.
Qed.

Lemma scalar_parts (c : N) :
  is_scalar c = true -> (c <? 0x80)%N = false ->
  lead_ok (N.shiftr c 6) = true /\ tail_ok (N.land c 0x3F) = true.
Proof.
  intros Hscalar Hbig. split.
  - assert (Hlead : lead_of_scalar (N.shiftr c 6) = true).
    { unfold lead_of_scalar. unfold is_scalar in Hscalar.
      change 0x80%N with (64 * 2)%N in Hbig. rewrite high_bits in Hbig.
      change 0xD800%N with (64 * 0x360)%N in Hscalar.
      change 0xE000%N with (64 * 0x380)%N in Hscalar.
      change 0x110000%N with (64 * 0x4400)%N in Hscalar.
      rewrite !high_bits in Hscalar.
      rewrite (N.leb_antisym _ 2), Hbig. cbn [negb andb].
      destruct (N.shiftr c 6 <? 0x360)%N; [reflexivity |]. cbn [orb] in *.
      apply andb_true_iff in Hscalar as [Hlow Hhigh]. rewrite Hhigh, andb_true_r.
      rewrite N.leb_antisym. apply negb_true_iff, N.ltb_ge.
      apply N.leb_le in Hlow.
      rewrite N.shiftr_div_pow2. change (2 ^ 6)%N with 64%N.
      pose proof (N.Div0.div_mod c 64) as Hdiv.
      pose proof (N.mod_lt c 64 ltac:(lia)) as Hmod.
      revert Hdiv Hmod. generalize (c / 64)%N (c mod 64)%N. intros q m Hdiv Hmod. lia. }
    assert (Hbound : (N.shiftr c 6 < 0x4400)%N).
    { unfold lead_of_scalar in Hlead. apply andb_true_iff in Hlead as [_ Hlead].
      apply orb_true_iff in Hlead as [H | H].
      - apply N.ltb_lt in H. lia.
      - apply andb_true_iff in H as [_ H]. now apply N.ltb_lt in H. }
    pose proof (proj2 (check_below_spec _ 0x4400) all_leads_checked _ Hbound) as Hok.
    cbv beta in Hok. now rewrite Hlead in Hok.
  - apply (proj2 (check_below_spec tail_ok 64) all_tails_checked).
    change 0x3F%N with (N.ones 6). rewrite N.land_ones. apply N.mod_lt. discriminate.
Qed.

Ltac use_checks H :=
  repeat match type of H with
         | _ && _ = true => let H' := fresh "Hc" in apply andb_true_iff in H as [H H']
         end;
  repeat match goal with
         | Hc : negb _ = true |- _ => apply negb_true_iff in Hc
         | Hc : (_ =? _)%N = true |- _ => apply N.eqb_eq in Hc
         end.

(** One code point at a time: the bytes of a scalar value are read back
    as that value, whatever follows. *)
Lemma decode_encode1 (c : N) (rest : list N) :
  is_scalar c = true ->
  decode_utf8_ignore (utf8_encode1 c ++ rest) = c :: decode_utf8_ignore rest.
Proof.
  intros Hscalar. unfold utf8_encode1.
  destruct (c <? 0x80)%N eqn:Hsmall.
  { cbn [app decode_utf8_ignore]. now rewrite Hsmall. }
  destruct (scalar_parts c Hscalar Hsmall) as [Hlead Htail].
  pose proof (high_and_low c) as Hjoin.
  change 0x800%N with (64 * 0x20)%N. change 0x10000%N with (64 * 0x400)%N.
  rewrite !high_bits.
  change 12%N with (6 + 6)%N. change 18%N with (6 + 12)%N. rewrite <- !N.shiftr_shiftr.
  unfold tail_ok in Htail. unfold lead_ok in Hlead.
  set (q := N.shiftr c 6) in *. set (r := N.land c 0x3F) in *.
  destruct (q <? 0x20)%N; [| destruct (q <? 0x400)%N];
    cbv zeta in Hlead, Htail; use_checks Hlead; use_checks Htail;
    cbn [app decode_utf8_ignore];
    repeat match goal with Hc : _ = _ :> bool |- _ => rewrite Hc; clear Hc end;
    f_equal;
    match goal with
    | Hq : ?high = q, Hr : low6 _ = r |- _ =>
        transitivity (N.lor (N.shiftl high 6) r); [| rewrite Hq; exact Hjoin];
        rewrite Hr, ?N.shiftl_lor, ?N.shiftl_shiftl, ?N.lor_assoc; reflexivity
    end.
Qed.

Lemma decode_encode (t : text) :
  Forall (fun c => is_scalar c = true) t -> decode_utf8_ignore (utf8_encode t) = t.
Proof.
  unfold utf8_encode. induction 1 as [| c t Hc _ IH]; [reflexivity |].
  simpl. rewrite decode_encode1 by exact Hc. now rewrite IH.
Qed.

Lemma universal_newlines_without_cr (t : text) : ~ In 13%N t -> universal_newlines t = t.
Proof.
  induction t as [| c t IH]; intros Hcr; [reflexivity |].
  assert (Hc : c <> 13%N) by (intros ->; apply Hcr; now left).
  assert (E : universal_newlines (c :: t) = c :: universal_newlines t).
  { simpl. destruct c as [| p]; [reflexivity |].
    repeat (destruct p as [p | p |]; try reflexivity); contradiction. }
  rewrite E, IH; [reflexivity |]. intros H. apply Hcr. now right.
Qed.

(** X1. A file that holds the UTF-8 bytes of a text is read as that text
    with the line ends of text mode, [\r\n] and a lone [\r] read as
    [\n], and with no other change: decoding with the errors ignored
    drops and changes nothing of well-formed UTF-8. A text without a
    carriage return is read exactly as it was written. *)
Theorem utf8_text_is_read_up_to_line_ends (bs : list byte) (t : text) :
  map Strings.Byte.to_N bs = utf8_encode t ->
  Forall (fun c => is_scalar c = true) t ->
  read_text bs = universal_newlines t
  /\ (~ In 13%N t -> read_text bs = t).
Proof.
  intros Hbytes Hscalar. unfold read_text. rewrite Hbytes, decode_encode by exact Hscalar.
  split; [reflexivity |]. apply universal_newlines_without_cr.
Qed.

Lemma universal_newlines_no_cr_len (n : nat) :
  forall t, length t <= n -> ~ In 13%N (universal_newlines t).
Proof.
  induction n as [| n IH]; intros t Hlen.
  - destruct t; [intros [] | simpl in Hlen; lia].
  - destruct t as [| c t]; [intros [] |]. simpl in Hlen.
    assert (Ht : ~ In 13%N (universal_newlines t)) by (apply IH; lia).
    destruct (N.eq_dec c 13%N) as [-> | Hc].
    + destruct t as [| d t].
      * simpl. intros [H | []]. discriminate.
      * destruct (N.eq_dec d 10%N) as [-> | Hd].
        -- change (universal_newlines (13%N :: 10%N :: t))
             with (10%N :: universal_newlines t).
           intros [H | H]; [discriminate |]. revert H. apply IH. simpl in Hlen. lia.
        -- assert (E : universal_newlines (13%N :: d :: t)
                       = 10%N :: universal_newlines (d :: t)).
           { simpl. destruct d as [| p]; [reflexivity |].
             repeat (destruct p as [p | p |]; try reflexivity); contradiction. }
           rewrite E. intros [H | H]; [discriminate | contradiction].
    + assert (E : universal_newlines (c :: t) = c :: universal_newlines t).
      { simpl. destruct c as [| p]; [reflexivity |].
        repeat (destruct p as [p | p |]; try reflexivity); contradiction. }
      rewrite E. intros [H | H]; [congruence | contradiction].
Qed.

(** X2. The text read from a file never holds a carriage return:
    [\r\n] and a lone [\r] have become [\n], whatever the bytes. *)
Theorem read_text_has_no_carriage_return (bs : list byte) : ~ In 13%N (read_text bs).
Proof. unfold read_text. eapply universal_newlines_no_cr_len. reflexivity. Qed.

End TextFacts.

(** ** More on the scanner *)
Module ScannerFacts.
Import Analyzer Stated StatedMore.

Lemma Dir_nested_ind (P : Dir -> Prop) :
  (forall subdirs files, Forall (fun nd => P (snd nd)) subdirs -> P (MkDir subdirs files)) ->
  forall d, P d.
Proof.
  intros Hdir. fix IH 1. intros [subdirs files]. apply Hdir.
  induction subdirs as [| [name sub] subdirs IHsubs]; constructor.
  - apply IH.
  - exact IHsubs.
Qed.

Lemma os_walk_prune (keep : string -> bool) (d : Dir) :
  forall root, os_walk keep root d = os_walk (fun _ => true) root (prune keep d).
Proof.
  induction d as [subdirs files IH] using Dir_nested_ind. intros root.
  cbn [os_walk prune]. f_equal.
  induction IH as [| [name sub] subdirs Hsub _ IHsubs]; [reflexivity |].
  cbn [snd] in Hsub. destruct (keep name); [| exact IHsubs].
  now rewrite Hsub, IHsubs.
Qed.

Lemma prune_dir_names (keep : string -> bool) (d : Dir) :
  Forall (fun name => keep name = true) (dir_names (prune keep d)).
Proof.
  induction d as [subdirs files IH] using Dir_nested_ind. cbn [prune dir_names].
  induction IH as [| [name sub] subdirs Hsub _ IHsubs]; [constructor |].
  cbn [snd] in Hsub. destruct (keep name) eqn:E; [| exact IHsubs].
  constructor; [exact E |]. apply Forall_app. now split.
Qed.

Lemma prune_kept (keep : string -> bool) (d : Dir) :
  Forall (fun name => keep name = true) (dir_names d) -> prune keep d = d.
Proof.
  induction d as [subdirs files IH] using Dir_nested_ind. cbn [prune dir_names].
  intros Hall. f_equal.
  induction IH as [| [name sub] subdirs Hsub _ IHsubs]; [reflexivity |].
  cbn [snd] in Hsub. apply Forall_cons in Hall as [Hname Hall].
  apply Forall_app in Hall as [Hsubnames Hrest].
  now rewrite Hname, Hsub, IHsubs.
Qed.

Section Scanner.
Variable unicode_alnum : N -> bool.
Variable HAS_ESPRIMA : bool.
Variable parseScript parseModule : text -> option json.

#[local] Abbreviation scan_file :=
  (scan_file unicode_alnum HAS_ESPRIMA parseScript parseModule).
#[local] Abbreviation scan_project_locals :=
  (scan_project_locals unicode_alnum HAS_ESPRIMA parseScript parseModule).
#[local] Abbreviation scan_project :=
  (scan_project unicode_alnum HAS_ESPRIMA parseScript parseModule).

(** X3. What lies below a directory named [node_modules], [.git], [dist],
    [build], [__pycache__] or [.next] has no effect on a scan, at any
    depth: the scan of a tree is the scan of the tree with these
    directories cut out, both for the mapping and for the skipped files,
    and a tree without such a directory is scanned whole. *)
Theorem excluded_directories_are_not_entered (project_path : string) (top : Dir) :
  scan_project_locals project_path top
  = scan_project_locals project_path (prune not_skipped top)
  /\ eligible_files project_path top = eligible_files project_path (prune not_skipped top)
  /\ Forall (fun name => mem name skip_dirs = false) (dir_names (prune not_skipped top))
  /\ (Forall (fun name => mem name skip_dirs = false) (dir_names top) ->
      prune not_skipped top = top).
Proof.
  assert (Hwalk : forall d,
            os_walk (fun d => negb (mem d skip_dirs)) project_path d
            = os_walk (fun d => negb (mem d skip_dirs)) project_path (prune not_skipped d)).
  { intros d. change (fun d0 : string => negb (mem d0 skip_dirs)) with not_skipped.
    rewrite (os_walk_prune not_skipped d), (os_walk_prune not_skipped (prune not_skipped d)).
    now rewrite (prune_kept not_skipped (prune not_skipped d)) by apply prune_dir_names. }
  split; [unfold Analyzer.scan_project_locals; now rewrite <- Hwalk |].
  split; [unfold eligible_files; now rewrite <- Hwalk |].
  split.
  - eapply Forall_impl; [apply (prune_dir_names not_skipped) |].
    intros name H. now apply negb_true_iff in H.
  - intros Hall. apply prune_kept. eapply Forall_impl; [exact Hall |].
    intros name H. unfold not_skipped. now rewrite H.
Qed.

End Scanner.

(** *** The keys of the mapping *)

Lemma dict_set_keys {V} (d : list (string * V)) k v :
  map fst (dict_set d k v)
  = if mem k (map fst d) then map fst d else (map fst d ++ [k])%list.
Proof.
  induction d as [| [k' v'] d IH]; simpl; [reflexivity |].
  rewrite (String.eqb_sym k k'). destruct (String.eqb k' k) eqn:E; simpl.
  - apply String.eqb_eq in E. now subst.
  - rewrite IH. now destruct (mem k (map fst d)).
Qed.

(** *** Which names are source files *)

Lemma string_of_list_ascii_app (a b : list ascii) :
  string_of_list_ascii (a ++ b) = string_of_list_ascii a ++ string_of_list_ascii b.
Proof. induction a as [| c a IH]; simpl; [reflexivity | now rewrite IH]. Qed.

Lemma list_ascii_of_string_app (a b : string) :
  list_ascii_of_string (a ++ b) = (list_ascii_of_string a ++ list_ascii_of_string b)%list.
Proof. induction a as [| c a IH]; simpl; [reflexivity | now rewrite IH]. Qed.

Lemma In_firstn_skipn {A} (x : A) (m s : nat) (l : list A) :
  In x (firstn m (skipn s l)) -> In x (firstn (s + m) l).
Proof.
  revert l. induction s as [| s IH]; intros l H; [exact H |].
  destruct l as [| a l]; [now destruct m |]. simpl. right. now apply IH.
Qed.

Lemma rfind_from_absent c (l : list ascii) :
  forall i last, existsb (fun d => Ascii.eqb d c) l = false -> rfind_from c l i last = last.
Proof.
  induction l as [| d l IH]; intros i last H; simpl in *; [reflexivity |].
  apply orb_false_iff in H as [Hd Hl]. rewrite Hd. now apply IH.
Qed.

Lemma rfind_from_last c (a b : list ascii) :
  forall i last,
    existsb (fun d => Ascii.eqb d c) b = false ->
    rfind_from c (a ++ c :: b) i last = (i + Z.of_nat (length a))%Z.
Proof.
  induction a as [| x a IH]; intros i last Hb; simpl.
  - rewrite Ascii.eqb_refl, rfind_from_absent by exact Hb. lia.
  - rewrite IH by exact Hb. lia.
Qed.

Lemma lower_ascii_dot (d : ascii) : lower_ascii d = "."%char -> d = "."%char.
Proof.
  destruct d as [[] [] [] [] [] [] [] []]; intros H; try reflexivity;
    vm_compute in H; discriminate H.
Qed.

(** An extension of the allowlist, in any letter case, is a dot followed
    by characters that are not dots. *)
Lemma supported_extension_shape (ext : string) :
  mem (lower ext) supported_extensions = true ->
  exists rest,
    list_ascii_of_string ext = "."%char :: rest
    /\ existsb (fun d => Ascii.eqb d ".") rest = false.
Proof.
  intros H. apply AnalyzerSpec.mem_In in H. unfold lower in H.
  assert (Hchars : In (map lower_ascii (list_ascii_of_string ext))
                     (map list_ascii_of_string supported_extensions)).
  { apply in_map_iff. exists (string_of_list_ascii (map lower_ascii (list_ascii_of_string ext))).
    split; [apply list_ascii_of_string_of_list_ascii | exact H]. }
  clear H. destruct (list_ascii_of_string ext) as [| d rest]; simpl in Hchars.
  { repeat (destruct Hchars as [Hchars | Hchars]; [discriminate |]). contradiction. }
  exists rest.
  assert (Hd : lower_ascii d = "."%char
               /\ existsb (fun c => Ascii.eqb c ".") (map lower_ascii rest) = false).
  { repeat (destruct Hchars as [Hchars | Hchars];
            [injection Hchars as <- <-; split; reflexivity |]).
    contradiction. }
  destruct Hd as [Hd Hrest]. apply lower_ascii_dot in Hd. subst d. split; [reflexivity |].
  clear Hchars. induction rest as [| c rest IH]; [reflexivity |].
  simpl in *. apply orb_false_iff in Hrest as [Hc Hrest].
  rewrite (IH Hrest), orb_false_r.
  destruct (Ascii.eqb_spec c "."); [subst c; discriminate Hc | reflexivity].
Qed.

Lemma rfind_from_bound c (l : list ascii) :
  forall i last, (-1 <= last)%Z -> (0 <= i)%Z -> (-1 <= rfind_from c l i last)%Z.
Proof.
  induction l as [| d l IH]; intros i last Hl Hi; simpl; [exact Hl |].
  apply IH; [destruct (Ascii.eqb d c); lia | lia].
Qed.

Lemma In_firstn {A} (x : A) (n : nat) (l : list A) : In x (firstn n l) -> In x l.
Proof.
  revert l. induction n as [| n IH]; intros [| a l] H; simpl in *; try contradiction.
  destruct H as [H | H]; [now left | right; now apply IH].
Qed.

(** X5. The files [scan_project] reads are those whose name ends, in any
    letter case, with [.js], [.jsx], [.tsx], [.ts] or [.mjs] after a
    stem that is not made of dots only. Every eligible name splits so; a
    name without a slash that splits so is eligible; and a name made of
    dots only, or one such as [.ts] that [os.path.splitext] gives no
    extension, is left out. *)
Theorem eligible_names (name : string) :
  (eligible name = true ->
   exists stem ext,
     name = stem ++ ext
     /\ mem (lower ext) supported_extensions = true
     /\ has_non_dot stem = true)
  /\ (forall stem ext,
        name = stem ++ ext ->
        has_slash name = false ->
        has_non_dot stem = true ->
        mem (lower ext) supported_extensions = true ->
        eligible name = true)
  /\ (forall dots ext,
        name = dots ++ ext ->
        has_non_dot dots = false ->
        mem (lower ext) supported_extensions = true ->
        eligible name = false).
Proof.
  split; [| split].
  - unfold eligible, splitext_ext.
    set (cs := list_ascii_of_string name).
    set (sepIndex := rfind "/" cs). set (dotIndex := rfind "." cs).
    assert (Hsep : (-1 <= sepIndex)%Z) by (apply rfind_from_bound; lia).
    destruct (sepIndex <? dotIndex)%Z eqn:Hlt; [| discriminate].
    apply Z.ltb_lt in Hlt.
    destruct (existsb _ _) eqn:Hstem; [| discriminate].
    intros Hext.
    exists (string_of_list_ascii (firstn (Z.to_nat dotIndex) cs)),
      (string_of_list_ascii (skipn (Z.to_nat dotIndex) cs)).
    split; [| split; [exact Hext |]].
    + rewrite <- string_of_list_ascii_app, firstn_skipn. unfold cs.
      symmetry. apply string_of_list_ascii_of_string.
    + unfold has_non_dot. rewrite list_ascii_of_string_of_list_ascii.
      apply existsb_exists in Hstem as (c & Hin & Hc). apply existsb_exists.
      exists c. split; [| exact Hc].
      apply In_firstn_skipn in Hin.
      replace (Z.to_nat dotIndex)
        with (Z.to_nat (sepIndex + 1) + (Z.to_nat dotIndex - Z.to_nat (sepIndex + 1)))
        by lia.
      exact Hin.
  - intros stem ext -> Hslash Hstem Hext.
    destruct (supported_extension_shape ext Hext) as (rest & Hshape & Hrest).
    unfold eligible, splitext_ext.
    rewrite list_ascii_of_string_app, Hshape.
    unfold has_slash in Hslash. rewrite list_ascii_of_string_app, Hshape in Hslash.
    unfold rfind. rewrite (rfind_from_absent "/") by exact Hslash.
    rewrite (rfind_from_last "." _ rest) by exact Hrest.
    assert (Hlt : (-1 <? 0 + Z.of_nat (length (list_ascii_of_string stem)))%Z = true)
      by (apply Z.ltb_lt; lia).
    rewrite Hlt.
    replace (Z.to_nat (-1 + 1)) with 0 by lia.
    replace (Z.to_nat (0 + Z.of_nat (length (list_ascii_of_string stem))))
      with (length (list_ascii_of_string stem)) by lia.
    rewrite Nat.sub_0_r. change (skipn 0 ?l) with l.
    rewrite firstn_app, firstn_all, Nat.sub_diag, firstn_O, app_nil_r.
    unfold has_non_dot in Hstem. rewrite Hstem.
    rewrite skipn_app, skipn_all, Nat.sub_diag. cbn [skipn app].
    rewrite <- Hshape, string_of_list_ascii_of_string. exact Hext.
  - intros dots ext -> Hdots Hext.
    destruct (supported_extension_shape ext Hext) as (rest & Hshape & Hrest).
    unfold eligible, splitext_ext.
    rewrite list_ascii_of_string_app, Hshape.
    set (cs := (list_ascii_of_string dots ++ "."%char :: rest)%list).
    assert (Hdot : rfind "." cs = Z.of_nat (length (list_ascii_of_string dots))).
    { unfold rfind, cs. now rewrite (rfind_from_last "." _ rest) by exact Hrest. }
    rewrite Hdot. destruct (_ <? _)%Z; [| reflexivity].
    rewrite Nat2Z.id.
    destruct (existsb _ (firstn _ (skipn _ cs))) eqn:Hbefore; [| reflexivity].
    exfalso. apply existsb_exists in Hbefore as (c & Hin & Hc).
    assert (Hin' : In c (list_ascii_of_string dots)).
    { destruct (Nat.le_gt_cases (Z.to_nat (rfind "/" cs + 1))
                  (length (list_ascii_of_string dots))) as [Hle | Hgt].
      - apply In_firstn_skipn in Hin.
        replace (_ + (_ - _)) with (length (list_ascii_of_string dots) + 0) in Hin by lia.
        unfold cs in Hin. rewrite firstn_app_2, firstn_O, app_nil_r in Hin. exact Hin.
      - replace (_ - _) with 0 in Hin by lia. destruct Hin. }
    unfold has_non_dot in Hdots.
    assert (Hex : existsb (fun c => negb (Ascii.eqb c ".")) (list_ascii_of_string dots) = true)
      by (apply existsb_exists; eauto).
    congruence.
Qed.

End ScannerFacts.

(** ** The line numbers of a symbol *)
Module LocatorFacts.
Import Analyzer Locator Stated StatedMore.

Lemma starts_with_spec (needle hay : text) :
  starts_with needle hay = true <-> exists post, hay = (needle ++ post)%list.
Proof.
  revert hay. induction needle as [| c needle IH]; intros hay; simpl.
  - split; [eauto | reflexivity].
  - destruct hay as [| d hay].
    + split; [discriminate | intros [post H]; discriminate].
    + rewrite andb_true_iff, IH, N.eqb_eq. split.
      * intros [-> [post ->]]. eauto.
      * intros [post [= -> ->]]. eauto.
Qed.

(** [needle in hay] holds exactly when [hay] has [needle] as a piece. *)
Lemma contains_spec (needle hay : text) :
  contains needle hay = true <-> exists pre post, hay = (pre ++ needle ++ post)%list.
Proof.
  induction hay as [| d hay IH]; simpl.
  - rewrite orb_false_r, starts_with_spec. split.
    + intros [post H]. exists [], post. exact H.
    + intros (pre & post & H). destruct pre as [| x pre]; [eauto | discriminate].
  - rewrite orb_true_iff, starts_with_spec, IH. split.
    + intros [[post H] | (pre & post & H)].
      * exists [], post. exact H.
      * exists (d :: pre), post. simpl. now rewrite H.
    + intros (pre & post & H). destruct pre as [| x pre].
      * left. eauto.
      * right. injection H as -> H. eauto.
Qed.

Lemma contains_piece (part whole hay : text) :
  contains part whole = true -> contains whole hay = true -> contains part hay = true.
Proof.
  rewrite !contains_spec. intros (p1 & q1 & ->) (p2 & q2 & ->).
  exists (p2 ++ p1)%list, (q1 ++ q2)%list. now rewrite <- !app_assoc.
Qed.

Lemma split_at_pieces sep (t : text) :
  forall cur part,
    In part (split_at sep t cur) ->
    exists pre post, (rev cur ++ t)%list = (pre ++ part ++ post)%list.
Proof.
  induction t as [| c t IH]; intros cur part Hin; simpl in Hin.
  - destruct Hin as [<- | []]. exists [], []. now rewrite !app_nil_r.
  - destruct (c =? sep)%N.
    + destruct Hin as [<- | Hin].
      * exists [], (c :: t). reflexivity.
      * apply IH in Hin as (pre & post & H). simpl in H.
        exists (rev cur ++ c :: pre)%list, post. rewrite H, <- !app_assoc. reflexivity.
    + apply IH in Hin as (pre & post & H). simpl in H.
      exists pre, post. rewrite <- H, <- app_assoc. reflexivity.
Qed.

Lemma split_at_no_sep sep (t : text) :
  forall cur, existsb (N.eqb sep) t = false -> split_at sep t cur = [(rev cur ++ t)%list].
Proof.
  induction t as [| c t IH]; intros cur H; simpl in *.
  - now rewrite app_nil_r.
  - apply orb_false_iff in H as [Hc Ht]. rewrite N.eqb_sym, Hc, IH by exact Ht.
    simpl. now rewrite <- app_assoc.
Qed.

Lemma split_at_first sep (a b : text) :
  forall cur,
    existsb (N.eqb sep) a = false ->
    split_at sep (a ++ sep :: b)%list cur = (rev cur ++ a)%list :: split_at sep b [].
Proof.
  induction a as [| c a IH]; intros cur H; simpl in *.
  - now rewrite N.eqb_refl, app_nil_r.
  - apply orb_false_iff in H as [Hc Ha]. rewrite N.eqb_sym, Hc, IH by exact Ha.
    simpl. now rewrite <- app_assoc.
Qed.

Lemma contains_dot_spec (t : text) : contains [46%N] t = existsb (N.eqb 46) t.
Proof.
  induction t as [| c t IH]; [reflexivity |]. simpl in *. rewrite IH.
  now rewrite andb_true_r.
Qed.

(** X6. A line is reported for a symbol exactly when each piece of the
    symbol between its dots occurs somewhere in the line: for a symbol
    without a dot that is the symbol itself, and for a dotted symbol the
    test for the whole symbol adds nothing. So a line that holds the owner
    and the method apart, in either order, is reported for
    [owner.method]. *)
Theorem a_line_matches_when_all_parts_occur (api_call line : text) :
  line_matches api_call line
  = forallb (fun part => contains part line) (split_dot api_call)
  /\ forall owner method x y z,
      existsb (N.eqb 46) owner = false ->
      existsb (N.eqb 46) method = false ->
      api_call = (owner ++ 46%N :: method)%list ->
      line = (x ++ method ++ y ++ owner ++ z)%list \/ line = (x ++ owner ++ y ++ method ++ z)%list ->
      line_matches api_call line = true.
Proof.
  assert (Hmain : line_matches api_call line
                  = forallb (fun part => contains part line) (split_dot api_call)).
  { unfold line_matches. destruct (contains api_call line) eqn:Hwhole.
    - symmetry. apply forallb_forall. intros part Hpart.
      apply (contains_piece part api_call line); [| exact Hwhole].
      apply split_at_pieces in Hpart as (pre & post & H). simpl in H.
      apply contains_spec. eauto.
    - rewrite contains_dot_spec. destruct (existsb (N.eqb 46) api_call) eqn:Hdot; [reflexivity |].
      unfold split_dot. rewrite split_at_no_sep by exact Hdot. simpl.
      now rewrite Hwhole. }
  split; [exact Hmain |].
  intros owner method x y z Howner Hmethod -> Hline. rewrite Hmain.
  unfold split_dot. rewrite split_at_first by exact Howner.
  rewrite split_at_no_sep by exact Hmethod. simpl. rewrite andb_true_r.
  apply andb_true_iff. split; apply contains_spec.
  - destruct Hline as [-> | ->].
    + exists (x ++ method ++ y)%list, z. now rewrite <- ?app_assoc.
    + exists x, (y ++ method ++ z)%list. now rewrite <- ?app_assoc.
  - destruct Hline as [-> | ->].
    + exists x, (y ++ owner ++ z)%list. now rewrite <- ?app_assoc.
    + exists (x ++ owner ++ y)%list, z. now rewrite <- ?app_assoc.
Qed.

Lemma locate_from_spec (api_call : text) (lines : list text) :
  forall start n,
    In n (locate_from api_call lines start)
    <-> exists i line,
        nth_error lines i = Some line /\ n = start + i /\ line_matches api_call line = true.
Proof.
  induction lines as [| l lines IH]; intros start n; simpl.
  - split; [intros [] | intros (i & line & H & _)]. now destruct i.
  - assert (Hrest : In n (locate_from api_call lines (S start))
                    <-> exists i line, nth_error lines i = Some line /\ n = start + S i
                                       /\ line_matches api_call line = true).
    { rewrite IH. split; intros (i & line & H1 & H2 & H3); exists i, line;
        repeat split; auto; lia. }
    destruct (line_matches api_call l) eqn:Hl.
    + simpl. rewrite Hrest. split.
      * intros [<- | (i & line & H1 & H2 & H3)].
        -- exists 0, l. repeat split; auto.
        -- exists (S i), line. auto.
      * intros ([| i] & line & H1 & H2 & H3).
        -- left. lia.
        -- right. exists i, line. auto.
    + rewrite Hrest. split.
      * intros (i & line & H1 & H2 & H3). exists (S i), line. auto.
      * intros ([| i] & line & H1 & H2 & H3).
        -- simpl in H1. injection H1 as ->. congruence.
        -- exists i, line. auto.
Qed.

Lemma locate_from_increasing (api_call : text) (lines : list text) :
  forall start,
    StronglySorted lt (locate_from api_call lines start)
    /\ Forall (fun n => start <= n) (locate_from api_call lines start).
Proof.
  induction lines as [| l lines IH]; intros start; simpl.
  - split; constructor.
  - destruct (IH (S start)) as [Hsorted Hge].
    assert (Hge' : Forall (fun n => start <= n) (locate_from api_call lines (S start))).
    { eapply Forall_impl; [exact Hge |]. intros n Hn. simpl in Hn. lia. }
    destruct (line_matches api_call l); [| now split].
    split; constructor; auto.
Qed.

(** X7. [get_api_call_locations] never raises: for a file that cannot be
    read it returns the empty list. For a readable file it returns, in
    increasing order and without repetition, the numbers (counted from 1)
    of exactly the lines that match, none beyond the last line. *)
Theorem locations_are_the_matching_lines (f : FileData) (api_call : string) :
  let locations := get_api_call_locations f api_call in
  StronglySorted lt locations
  /\ (forall e, f = Unreadable e -> locations = [])
  /\ (forall bs, f = Content bs ->
      forall n,
        In n locations
        <-> exists line,
            1 <= n <= length (file_lines (read_text bs))
            /\ nth_error (file_lines (read_text bs)) (n - 1) = Some line
            /\ line_matches (name_text api_call) line = true).
Proof.
  unfold get_api_call_locations. split; [| split].
  - destruct (read_code f); [constructor | apply locate_from_increasing].
  - now intros e ->.
  - intros bs -> n. simpl. rewrite locate_from_spec. split.
    + intros (i & line & Hnth & -> & Hmatch). exists line.
      replace (1 + i - 1) with i by lia. repeat split; auto; [lia |].
      apply nth_error_Some. congruence.
    + intros (line & Hn & Hnth & Hmatch). exists (n - 1), line.
      repeat split; auto. lia.
Qed.

End LocatorFacts.

(** ** More on the classifier and the aggregator *)
Module CheckerFacts.
Import Checker Stated StatedMore.

Section Reports.
Context {Vector : Type}.
Variable encode : string -> Vector.
Variable py_int : string -> option Z.
Variable py_round : float -> Z -> float.
Variable index_query : list (Query Vector) -> Query Vector -> result (list Candidate).

#[local] Abbreviation check_api := (check_api encode py_int py_round index_query).
#[local] Abbreviation check_each := (check_each encode py_int py_round index_query).
#[local] Abbreviation check_project := (check_project encode py_int py_round index_query).
#[local] Abbreviation queries :=
  (fun library n calls => map (fun api_call => the_query encode api_call library n) calls).

Lemma decide_match_keys api_call new_version best :
  has_keys (decide_match py_round api_call new_version best).
Proof.
  unfold decide_match, has_keys.
  destruct (_ || _); [simpl; repeat split; eauto; discriminate |].
  destruct (PrimFloat.ltb _ MINOR_THRESHOLD); simpl; repeat split; eauto.
Qed.

Lemma check_api_keys api_call old_version new_version library log v log' :
  check_api api_call old_version new_version library log = (inr v, log') -> has_keys v.
Proof.
  unfold Checker.check_api. destruct (py_int new_version); [| discriminate].
  destruct (index_query _ _) as [e | [| best rest]]; intros [= <- _].
  - unfold has_keys. simpl. repeat split; eauto.
  - unfold has_keys. simpl. repeat split; eauto; intros [x Hx]; discriminate.
  - apply decide_match_keys.
Qed.

Lemma placed_entries (cache : gmap string Verdict) (occs : list (string * string)) :
  (forall o, o ∈ occs -> exists v, cache !! snd o = Some v /\ verdict_symbol v = Some (snd o)) ->
  placed <$> omap (entry_of cache) occs = (fun o => (fst o, Some (snd o))) <$> occs.
Proof.
  induction occs as [| o occs IH]; intros Hall; [done |].
  destruct (Hall o) as (v & Hv & Hsym); [left |].
  simpl. unfold entry_of at 1. rewrite Hv. simpl. unfold placed at 1. simpl.
  rewrite Hsym. f_equal. apply IH. intros o' Ho'. apply Hall. now right.
Qed.

Lemma check_api_answer api_call old_version new_version library log n v log' :
  py_int new_version = Some n ->
  check_api api_call old_version new_version library log = (inr v, log') ->
  let answer := index_query log (the_query encode api_call library n) in
  (answer = inr [] <-> status v = breaking_change /\ confidence v = None)
  /\ ((exists e, answer = inl e) <-> status v = error).
Proof.
  intros Hn Hcall answer.
  rewrite (CheckerSpec.check_api_int encode py_int py_round index_query
             api_call old_version new_version library log n Hn) in Hcall.
  fold answer in Hcall. injection Hcall as <- _.
  destruct answer as [e | [| best rest]].
  - split; [split; [discriminate | intros [H _]; discriminate] |].
    split; [reflexivity | eauto].
  - split; [split; [now split | reflexivity] |].
    split; [intros [e H]; discriminate | discriminate].
  - assert (Hst : status (decide_match py_round api_call new_version best) <> error
                  /\ confidence (decide_match py_round api_call new_version best) <> None).
    { unfold decide_match. destruct (_ || _); [split; discriminate |].
      destruct (PrimFloat.ltb _ MINOR_THRESHOLD); split; discriminate. }
    destruct Hst as [Hst Hconf].
    split; [split; [discriminate | intros [_ H]; contradiction] |].
    split; [intros [e H]; discriminate | contradiction].
Qed.

(** What [check_project] returns when the target version is an integer:
    the lists the entries are in, and the check each entry comes from. *)
Lemma report_entries_checked
    (api_usage : list (string * list string)) (old_version new_version library : string)
    (log : Log) (n : Z) :
  py_int new_version = Some n ->
  let syms := sorted_set (collect_calls api_usage) in
  exists r,
    check_project api_usage old_version new_version library log
    = (inr r, (log ++ queries library n syms)%list)
    /\ (forall st e, e ∈ bucket st r <-> e ∈ entries r /\ status (verdict e) = st)
    /\ (forall e, e ∈ entries r ->
          exists i sym,
            syms !! i = Some sym /\ verdict_symbol (verdict e) = Some sym
            /\ check_api sym old_version new_version library
                 (log ++ queries library n (take i syms))%list
               = (inr (verdict e), (log ++ queries library n (take (S i) syms))%list)).
Proof.
  intros Hn syms.
  destruct (CheckerSpec.report_facts encode py_int py_round index_query
              old_version new_version library n api_usage log Hn)
    as (cache & r & Hr & _ & Hsyms & _ & Hb & Hperm & _).
  fold syms in Hr, Hsyms.
  exists r. split; [exact Hr |]. split.
  - intros st e. rewrite Hperm, Hb, list_elem_of_filter. tauto.
  - intros e He. rewrite Hperm in He.
    apply list_elem_of_omap in He as ([f s] & Ho & He).
    unfold entry_of in He. simpl in He.
    destruct (cache !! s) as [v |] eqn:Hv; [| discriminate]. injection He as <-. simpl.
    assert (Hs : s ∈ syms).
    { apply PyFacts.elem_of_sorted_set, CheckerSpec.elem_of_collect_calls. eauto. }
    apply list_elem_of_lookup in Hs as [i Hi].
    destruct (Hsyms i s Hi) as (v' & Hv' & Hsym & Hcall).
    rewrite Hv in Hv'. injection Hv' as <-. eauto.
Qed.

(** X8. In a report, each of the four lists holds exactly the entries of
    its status, and an entry has the keys of its status: a Breaking or
    a Minor entry has [old_api], [new_api], [similarity] and [message],
    a Compatible entry [api], [matched], [similarity] and [confidence],
    an Error entry [api] and [error] and no [similarity]. Every entry
    comes from the answer of the index to the query for its symbol: it
    is a Breaking entry without [confidence] exactly when that answer
    was empty, and an Error entry exactly when the query raised. *)
Theorem report_entries_have_the_keys_of_their_status
    (api_usage : list (string * list string)) (old_version new_version library : string)
    (log : Log) (n : Z) :
  py_int new_version = Some n ->
  let syms := sorted_set (collect_calls api_usage) in
  exists r,
    check_project api_usage old_version new_version library log
    = (inr r, (log ++ queries library n syms)%list)
    /\ Forall (fun e => has_keys (verdict e)) (entries r)
    /\ (forall st e, e ∈ bucket st r <-> e ∈ entries r /\ status (verdict e) = st)
    /\ (forall e, e ∈ entries r ->
          exists i sym,
            syms !! i = Some sym
            /\ verdict_symbol (verdict e) = Some sym
            /\ let answer :=
                 index_query (log ++ queries library n (take i syms))%list
                   (the_query encode sym library n) in
               (answer = inr [] <->
                status (verdict e) = breaking_change /\ confidence (verdict e) = None)
               /\ ((exists err, answer = inl err) <-> status (verdict e) = error)).
Proof.
  intros Hn syms.
  destruct (report_entries_checked api_usage old_version new_version library log n Hn)
    as (r & Hr & Hbuckets & Hentry).
  fold syms in Hr, Hentry. exists r. split; [exact Hr |]. split; [| split].
  - apply Forall_forall. intros e He.
    destruct (Hentry e He) as (i & sym & _ & _ & Hcall). eapply check_api_keys, Hcall.
  - exact Hbuckets.
  - intros e He. destruct (Hentry e He) as (i & sym & Hi & Hsym & Hcall).
    exists i, sym. split; [exact Hi |]. split; [exact Hsym |].
    exact (check_api_answer _ _ _ _ _ _ _ _ Hn Hcall).
Qed.

(** X9. Each list of a report follows the order of the usage mapping:
    file by file in the order of the keys, and within a file in the order
    of its list of symbols. *)
Theorem report_lists_follow_the_usage_order
    (api_usage : list (string * list string)) (old_version new_version library : string)
    (log : Log) (n : Z) :
  py_int new_version = Some n ->
  exists r log',
    check_project api_usage old_version new_version library log = (inr r, log')
    /\ forall st,
        placed <$> bucket st r
        `sublist_of` (fun o => (fst o, Some (snd o))) <$> occurrences api_usage.
Proof.
  intros Hn.
  destruct (CheckerSpec.report_facts encode py_int py_round index_query
              old_version new_version library n api_usage log Hn)
    as (cache & r & Hr & _ & _ & Hocc & Hb & _).
  eexists r, _. split; [exact Hr |]. intros st.
  rewrite Hb, <- (placed_entries cache) by exact Hocc.
  apply fmap_sublist, sublist_filter.
Qed.

Lemma check_project_raises
    (api_usage : list (string * list string)) (old_version new_version library : string)
    (log : Log) :
  py_int new_version = None ->
  collect_calls api_usage <> ∅ ->
  exists e,
    check_project api_usage old_version new_version library log = (inl e, log)
    /\ exn_kind e = ValueError.
Proof.
  intros Hn Hne. unfold Checker.check_project.
  destruct (sorted_set (collect_calls api_usage)) as [| c syms] eqn:Es.
  - apply PyFacts.sorted_set_nil in Es. contradiction.
  - simpl. unfold Checker.check_api. rewrite Hn. eexists. split; reflexivity.
Qed.

(** X10. A target version that [int] refuses is noticed by the first check
    only: every [check_api] raises [ValueError] before it queries the
    index, so [check_project] raises it and no query is sent; but when the
    usage mapping has no symbol, nothing is checked and an empty report
    with a zero summary comes back. *)
Theorem non_integer_version_sends_no_query
    (api_usage : list (string * list string)) (old_version new_version library : string)
    (log : Log) :
  py_int new_version = None ->
  (forall api_call,
      exists e,
        check_api api_call old_version new_version library log = (inl e, log)
        /\ exn_kind e = ValueError)
  /\ (collect_calls api_usage = ∅ ->
      exists r,
        check_project api_usage old_version new_version library log = (inr r, log)
        /\ entries r = [] /\ summary r = mkSummary 0 0 0 0 0)
  /\ (collect_calls api_usage <> ∅ ->
      exists e,
        check_project api_usage old_version new_version library log = (inl e, log)
        /\ exn_kind e = ValueError).
Proof.
  intros Hn. split; [| split].
  - intros api_call. unfold Checker.check_api. rewrite Hn. eexists. split; reflexivity.
  - intros Hempty.
    destruct (CheckerSpec.check_project_no_int encode py_int py_round index_query
                old_version new_version library api_usage log Hn)
      as [[_ H] | [Hne _]]; [exact H | contradiction].
  - now apply check_project_raises.
Qed.

Lemma check_each_old_version old1 old2 new_version library calls :
  forall cache log,
    check_each calls old1 new_version library cache log
    = check_each calls old2 new_version library cache log.
Proof.
  induction calls as [| c calls IH]; intros cache log; [reflexivity |].
  simpl. change (Checker.check_api encode py_int py_round index_query c old1 new_version library log)
    with (Checker.check_api encode py_int py_round index_query c old2 new_version library log).
  destruct (Checker.check_api _ _ _ _ c old2 new_version library log) as [[e | v] log'];
    [reflexivity | apply IH].
Qed.

(** X11. The current version has no part in a check: neither the verdict
    of a symbol, nor the report of a project, nor the queries sent to the
    index depend on it; a query carries the library, the target version
    as an integer, [top_k = 5] and the context of the symbol. *)
Theorem current_version_is_not_used
    (api_usage : list (string * list string)) (api_call old1 old2 new_version library : string)
    (log : Log) :
  check_api api_call old1 new_version library log
  = check_api api_call old2 new_version library log
  /\ check_project api_usage old1 new_version library log
     = check_project api_usage old2 new_version library log
  /\ forall n, py_int new_version = Some n ->
       snd (check_project api_usage old1 new_version library log)
       = (log ++ map (fun s => mkQuery Vector (encode (_build_context s)) 5 library n false)
                   (sorted_set (collect_calls api_usage)))%list.
Proof.
  split; [reflexivity |]. split.
  - unfold Checker.check_project. now rewrite (check_each_old_version old1 old2).
  - intros n Hn.
    destruct (CheckerSpec.report_facts encode py_int py_round index_query
                old1 new_version library n api_usage log Hn) as (cache & r & Hr & _).
    now rewrite Hr.
Qed.

End Reports.
End CheckerFacts.

(** ** Building the knowledge base *)
Module KnowledgeBaseFacts.
Import KnowledgeBase.

Lemma firstn_add {A} (a b : nat) (l : list A) :
  firstn (a + b) l = (firstn a l ++ firstn b (skipn a l))%list.
Proof.
  revert l. induction a as [| a IH]; intros l; [reflexivity |].
  destruct l as [| x l]; simpl.
  - now rewrite firstn_nil.
  - now rewrite IH.
Qed.

Lemma concat_slices {A} (step : nat) (l : list A) (m : nat) :
  concat (map (fun i => firstn step (skipn i l)) (map (fun k => k * step) (seq 0 m)))
  = firstn (m * step) l.
Proof.
  induction m as [| m IH]; [reflexivity |].
  rewrite seq_S, !map_app, concat_app, IH. simpl. rewrite app_nil_r.
  now rewrite (Nat.add_comm step), firstn_add.
Qed.

Lemma batch_count (n : nat) :
  n <= (n + batch_size - 1) / batch_size * batch_size
  /\ (forall k, k < (n + batch_size - 1) / batch_size -> k * batch_size < n).
Proof.
  unfold batch_size.
  pose proof (Nat.div_mod_eq (n + 50 - 1) 50) as Hdiv.
  pose proof (Nat.mod_upper_bound (n + 50 - 1) 50 ltac:(lia)) as Hmod.
  split; [lia |]. intros k Hk. nia.
Qed.

(** X12. The upsert calls split the records into consecutive batches:
    put end to end the batches are the records, each one once and in
    order; no batch is empty and none has more than 50 records; only the
    last one can have fewer; and no call is made when there is no
    record. *)
Theorem batches_partition_the_records {A} (upsert_data : list A) :
  concat (batches upsert_data) = upsert_data
  /\ Forall (fun batch => 1 <= length batch <= 50) (batches upsert_data)
  /\ (forall k batch rest,
        batches upsert_data !! k = Some batch ->
        batches upsert_data !! S k = Some rest -> length batch = 50)
  /\ length (batches upsert_data) = (length upsert_data + 49) / 50
  /\ (upsert_data = [] -> batches upsert_data = []).
Proof.
  destruct (batch_count (length upsert_data)) as [Hcover Hbelow].
  unfold batches, range_step. split; [| split; [| split; [| split]]].
  - rewrite concat_slices. apply firstn_all2. exact Hcover.
  - apply List.Forall_forall. intros batch Hin.
    apply in_map_iff in Hin as (i & <- & Hi). apply in_map_iff in Hi as (k & <- & Hk).
    apply in_seq in Hk. specialize (Hbelow k ltac:(lia)).
    rewrite length_firstn, length_skipn. unfold batch_size in *. lia.
  - intros k batch rest Hk Hnext.
    rewrite !list_lookup_fmap in Hk, Hnext.
    destruct (seq 0 _ !! k) as [i |] eqn:Ei; [| discriminate].
    destruct (seq 0 _ !! S k) as [j |] eqn:Ej; [| discriminate].
    apply lookup_seq in Ei as [-> _]. apply lookup_seq in Ej as [-> Hlt].
    simpl in Hk. injection Hk as <-.
    specialize (Hbelow (S k) Hlt).
    rewrite length_firstn, length_skipn. unfold batch_size in *. lia.
  - rewrite !length_map, length_seq. unfold batch_size.
    f_equal. lia.
  - intros ->. reflexivity.
Qed.

Lemma replace_char_chars (a b : ascii) (s : string) :
  list_ascii_of_string (replace_char a b s)
  = map (fun c => if Ascii.eqb c a then b else c) (list_ascii_of_string s).
Proof. unfold replace_char. apply list_ascii_of_string_of_list_ascii. Qed.

Lemma safe_name_chars (func_name : string) :
  list_ascii_of_string (safe_name func_name)
  = map (fun c => if (Ascii.eqb c "." || Ascii.eqb c " ")%bool then "_"%char else c)
      (list_ascii_of_string func_name).
Proof.
  unfold safe_name. rewrite !replace_char_chars, map_map.
  apply map_ext. intros c.
  destruct (Ascii.eqb c ".") eqn:E1; [reflexivity |].
  destruct (Ascii.eqb c " "); reflexivity.
Qed.

Lemma list_ascii_of_string_inj (s t : string) :
  list_ascii_of_string s = list_ascii_of_string t -> s = t.
Proof.
  intros H. rewrite <- (string_of_list_ascii_of_string s), <- (string_of_list_ascii_of_string t).
  now rewrite H.
Qed.

Lemma length_chars (s : string) : String.length s = length (list_ascii_of_string s).
Proof. induction s as [| c s IH]; simpl; congruence. Qed.

(** X13. The name in a vector id has the length of the function name and
    neither a dot nor a space; a name without them is kept as it is.
    The ids are not one per name: two names that differ only in a dot, a
    space or an underscore at the same place get the same id. *)
Theorem vector_ids_can_collide (version func_name : string) :
  String.length (safe_name func_name) = String.length func_name
  /\ ~ In "."%char (list_ascii_of_string (safe_name func_name))
  /\ ~ In " "%char (list_ascii_of_string (safe_name func_name))
  /\ (~ In "."%char (list_ascii_of_string func_name) ->
      ~ In " "%char (list_ascii_of_string func_name) ->
      safe_name func_name = func_name)
  /\ safe_name (safe_name func_name) = safe_name func_name
  /\ forall owner method,
      vector_id version (owner ++ "." ++ method) = vector_id version (owner ++ "_" ++ method)
      /\ vector_id version (owner ++ " " ++ method) = vector_id version (owner ++ "_" ++ method).
Proof.
  split; [| split; [| split; [| split; [| split]]]].
  - rewrite !length_chars, safe_name_chars. apply length_map.
  - rewrite safe_name_chars. intros Hin. apply in_map_iff in Hin as (c & Hc & _).
    destruct (Ascii.eqb c ".") eqn:E1; simpl in Hc; [discriminate |].
    destruct (Ascii.eqb c " ") eqn:E2; [discriminate |].
    subst c. now rewrite Ascii.eqb_refl in E1.
  - rewrite safe_name_chars. intros Hin. apply in_map_iff in Hin as (c & Hc & _).
    destruct (Ascii.eqb c ".") eqn:E1; simpl in Hc; [discriminate |].
    destruct (Ascii.eqb c " ") eqn:E2; [discriminate |].
    subst c. now rewrite Ascii.eqb_refl in E2.
  - intros Hdot Hspace. apply list_ascii_of_string_inj. rewrite safe_name_chars.
    rewrite <- (map_id (list_ascii_of_string func_name)) at 2.
    apply map_ext_in. intros c Hc.
    destruct (Ascii.eqb c ".") eqn:E1; [apply Ascii.eqb_eq in E1; now subst c |].
    destruct (Ascii.eqb c " ") eqn:E2; [apply Ascii.eqb_eq in E2; now subst c |].
    reflexivity.
  - apply list_ascii_of_string_inj. rewrite !safe_name_chars, map_map.
    apply map_ext. intros c.
    destruct (Ascii.eqb c ".") eqn:E1; [reflexivity |].
    destruct (Ascii.eqb c " ") eqn:E2; [reflexivity |]. simpl. now rewrite E1, E2.
  - intros owner method. unfold vector_id.
    assert (Hdot : safe_name (owner ++ "." ++ method) = safe_name (owner ++ "_" ++ method)).
    { apply list_ascii_of_string_inj.
      now rewrite !safe_name_chars, !ScannerFacts.list_ascii_of_string_app, !map_app. }
    assert (Hspace : safe_name (owner ++ " " ++ method) = safe_name (owner ++ "_" ++ method)).
    { apply list_ascii_of_string_inj.
      now rewrite !safe_name_chars, !ScannerFacts.list_ascii_of_string_app, !map_app. }
    now rewrite Hdot, Hspace.
Qed.

End KnowledgeBaseFacts.

(** ** The ways [main] ends *)
Module CliFacts.
Import Analyzer Checker Cli Stated StatedMore.

Section Main.
Context {Vector : Type}.
Variable encode : string -> Vector.
Variable py_int : string -> option Z.
Variable py_round : float -> Z -> float.
Variable index_query : list (Query Vector) -> Query Vector -> result (list Candidate).
Variable unicode_alnum : N -> bool.
Variable HAS_ESPRIMA : bool.
Variable parseScript parseModule : text -> option json.
Variable abspath : string -> string.
Variable tree_at : string -> option Dir.
Variable str_repeat : Z -> result unit.
Variable new_checker : option PyExn.
Variable write_json : string -> option PyExn.

#[local] Abbreviation main :=
  (main encode py_int py_round index_query unicode_alnum HAS_ESPRIMA parseScript parseModule
     abspath tree_at str_repeat new_checker write_json).
#[local] Abbreviation scan_project :=
  (scan_project unicode_alnum HAS_ESPRIMA parseScript parseModule).
#[local] Abbreviation format_similarity_bar := (format_similarity_bar str_repeat).
#[local] Abbreviation print_breaking := (print_breaking str_repeat).
#[local] Abbreviation print_minor := (print_minor str_repeat).
#[local] Abbreviation print_compatible := (print_compatible str_repeat).
#[local] Abbreviation print_report := (print_report str_repeat).

Lemma scan_has_a_symbol project_path top :
  scan_project project_path top <> [] ->
  collect_calls (scan_project project_path top) <> ∅.
Proof.
  intros Hne Hempty.
  destruct (scan_project project_path top) as [| [p calls] rest] eqn:Escan; [contradiction |].
  destruct (AnalyzerSpec.scan_project_traced unicode_alnum HAS_ESPRIMA parseScript parseModule
              project_path top) as [Hres _].
  destruct (Hres p calls) as [Hcalls _].
  { unfold Analyzer.scan_project in Escan. rewrite Escan. now left. }
  destruct calls as [| c calls]; [contradiction |].
  assert (Hc : c ∈ collect_calls ((p, c :: calls) :: rest)).
  { apply CheckerSpec.elem_of_collect_calls. exists p.
    apply CheckerSpec.elem_of_occurrences. exists (c :: calls). split; left. }
  rewrite Hempty in Hc. now apply not_elem_of_empty in Hc.
Qed.

(** *** What showing the report can raise *)

Lemma print_breaking_raises (all l : list Entry) (e : PyExn) :
  (forall c, In c all -> is_Some (old_api (verdict c))) ->
  (forall c, In c l -> is_Some (old_api (verdict c)) /\ is_Some (similarity (verdict c))) ->
  forall seen,
    print_breaking all l seen = inl e ->
    exists c s,
      In c l /\ similarity (verdict c) = Some s /\ format_similarity_bar s = inl e.
Proof.
  intros Hall. induction l as [| change rest IH]; intros Hl seen; [discriminate |].
  destruct (Hl change (or_introl eq_refl)) as [[api Hapi] [sim Hsim]].
  assert (Hrest : forall c, In c rest ->
            is_Some (old_api (verdict c)) /\ is_Some (similarity (verdict c)))
    by (intros c Hc; apply Hl; now right).
  assert (Hnext : forall seen',
            print_breaking all rest seen' = inl e ->
            exists c s, In c (change :: rest) /\ similarity (verdict c) = Some s
                        /\ format_similarity_bar s = inl e).
  { intros seen' H. destruct (IH Hrest seen' H) as (c & s & Hc & Hs & Hf).
    exists c, s. split; [now right | now split]. }
  cbn [Cli.print_breaking]. rewrite Hapi, Hsim. cbn [subscript bind ret].
  destruct (mem api seen); [apply Hnext |].
  assert (Haffected : forall cs, (forall c, In c cs -> In c all) ->
            (fix affected (cs : list Entry) : result unit :=
               match cs with
               | [] => ret tt
               | c :: cs' => let! _ := subscript "old_api" (old_api (verdict c)) in affected cs'
               end) cs = inr tt).
  { induction cs as [| c cs IHcs]; intros Hcs; [reflexivity |].
    destruct (Hall c (Hcs c (or_introl eq_refl))) as [a Ha]. rewrite Ha. cbn [subscript bind ret].
    apply IHcs. intros c' Hc'. apply Hcs. now right. }
  rewrite (Haffected all) by auto.
  destruct (confidence (verdict change)); cbn [bind].
  - destruct (format_similarity_bar sim) as [e' | []] eqn:Hf; cbn [bind].
    + intros [= ->]. exists change, sim. split; [now left | now split].
    + apply Hnext.
  - apply Hnext.
Qed.

Lemma print_minor_raises (l : list Entry) (e : PyExn) :
  (forall c, In c l -> is_Some (old_api (verdict c)) /\ is_Some (similarity (verdict c))) ->
  forall seen,
    print_minor l seen = inl e ->
    exists c s,
      In c l /\ similarity (verdict c) = Some s /\ format_similarity_bar s = inl e.
Proof.
  induction l as [| change rest IH]; intros Hl seen; [discriminate |].
  destruct (Hl change (or_introl eq_refl)) as [[api Hapi] [sim Hsim]].
  assert (Hnext : forall seen',
            print_minor rest seen' = inl e ->
            exists c s, In c (change :: rest) /\ similarity (verdict c) = Some s
                        /\ format_similarity_bar s = inl e).
  { intros seen' H. destruct (IH (fun c Hc => Hl c (or_intror Hc)) seen' H)
      as (c & s & Hc & Hs & Hf).
    exists c, s. split; [now right | now split]. }
  cbn [Cli.print_minor]. rewrite Hapi, Hsim. cbn [subscript bind ret].
  destruct (mem api seen); [apply Hnext |].
  destruct (format_similarity_bar sim) as [e' | []] eqn:Hf; cbn [bind].
  - intros [= ->]. exists change, sim. split; [now left | now split].
  - apply Hnext.
Qed.

Lemma print_compatible_raises (l : list Entry) (e : PyExn) :
  (forall c, In c l -> is_Some (similarity (verdict c))) ->
  forall seen,
    print_compatible l seen = inl e ->
    exists c s,
      In c l /\ similarity (verdict c) = Some s /\ format_similarity_bar s = inl e.
Proof.
  induction l as [| item rest IH]; intros Hl seen; [discriminate |].
  destruct (Hl item (or_introl eq_refl)) as [sim Hsim].
  assert (Hnext : forall seen',
            print_compatible rest seen' = inl e ->
            exists c s, In c (item :: rest) /\ similarity (verdict c) = Some s
                        /\ format_similarity_bar s = inl e).
  { intros seen' H. destruct (IH (fun c Hc => Hl c (or_intror Hc)) seen' H)
      as (c & s & Hc & Hs & Hf).
    exists c, s. split; [now right | now split]. }
  cbn [Cli.print_compatible]. rewrite Hsim. cbn [default from_option id].
  destruct (mem _ seen); [apply Hnext |].
  destruct (format_similarity_bar sim) as [e' | []] eqn:Hf; cbn [bind].
  - intros [= ->]. exists item, sim. split; [now left | now split].
  - apply Hnext.
Qed.

(** Showing a report whose entries have the keys of their status raises
    only what a similarity bar raises. *)
Lemma print_report_raises (r : Report) (e : PyExn) :
  Forall (fun c => has_keys (verdict c)) (entries r) ->
  (forall st c, c ∈ bucket st r <-> c ∈ entries r /\ status (verdict c) = st) ->
  print_report r = inl e ->
  exists c s,
    c ∈ entries r /\ similarity (verdict c) = Some s /\ format_similarity_bar s = inl e.
Proof.
  intros Hkeys Hbuckets.
  assert (Hin : forall st c, In c (bucket st r) ->
            c ∈ entries r /\ status (verdict c) = st /\ has_keys (verdict c)).
  { intros st c Hc. apply list_elem_of_In, Hbuckets in Hc as [Hc Hst].
    split; [exact Hc |]. split; [exact Hst |].
    rewrite Forall_forall in Hkeys. now apply Hkeys. }
  assert (Hbreaking : forall c, In c (breaking_changes r) ->
            is_Some (old_api (verdict c)) /\ is_Some (similarity (verdict c))).
  { intros c Hc. destruct (Hin breaking_change c Hc) as (_ & Hst & Hk).
    unfold has_keys in Hk. rewrite Hst in Hk. tauto. }
  assert (Hminor : forall c, In c (minor_changes r) ->
            is_Some (old_api (verdict c)) /\ is_Some (similarity (verdict c))).
  { intros c Hc. destruct (Hin minor_change c Hc) as (_ & Hst & Hk).
    unfold has_keys in Hk. rewrite Hst in Hk. tauto. }
  assert (Hcompatible : forall c, In c (compatible_list r) ->
            is_Some (similarity (verdict c))).
  { intros c Hc. destruct (Hin compatible c Hc) as (_ & Hst & Hk).
    unfold has_keys in Hk. rewrite Hst in Hk. tauto. }
  assert (Hfrom : forall st c s,
            In c (bucket st r) -> similarity (verdict c) = Some s ->
            format_similarity_bar s = inl e ->
            exists c s, c ∈ entries r /\ similarity (verdict c) = Some s
                        /\ format_similarity_bar s = inl e).
  { intros st c s Hc Hs Hf. exists c, s. split; [apply (Hin st c Hc) | now split]. }
  unfold Cli.print_report.
  destruct (print_breaking (breaking_changes r) (breaking_changes r) []) as [e1 | []] eqn:H1;
    cbn [bind].
  { intros [= ->].
    destruct (print_breaking_raises _ _ _ (fun c Hc => proj1 (Hbreaking c Hc)) Hbreaking _ H1)
      as (c & s & Hc & Hs & Hf).
    exact (Hfrom breaking_change c s Hc Hs Hf). }
  destruct (print_minor (minor_changes r) []) as [e2 | []] eqn:H2; cbn [bind].
  { intros [= ->].
    destruct (print_minor_raises _ _ Hminor _ H2) as (c & s & Hc & Hs & Hf).
    exact (Hfrom minor_change c s Hc Hs Hf). }
  intros H3. destruct (print_compatible_raises _ _ Hcompatible _ H3) as (c & s & Hc & Hs & Hf).
  exact (Hfrom compatible c s Hc Hs Hf).
Qed.

(** X14. How [main] ends. A path that does not exist gives exit code 1 and
    a scan that finds no symbol exit code 0, in both cases without a query
    and without a look at the target version or at the checker. When the
    scan finds a symbol, an exception of [CompatibilityChecker()] ends
    [main] before any query, and so does the [ValueError] of a target
    version that is no integer. Otherwise one query is sent for each
    distinct symbol, at least one, whatever happens next: showing the
    report raises only what a similarity bar raises for the score of an
    entry (never a [KeyError]), and then [main] ends with that exception;
    if it raises nothing, [main] ends with the report, or with the
    exception of writing the JSON file when [--json] names one. *)
Theorem how_main_ends (args : Args) (log : Log) :
  let project_path := abspath (path args) in
  (tree_at project_path = None -> main args log = (Exit 1, log))
  /\ forall top,
      tree_at project_path = Some top ->
      let api_usage := scan_project project_path top in
      (api_usage = [] -> main args log = (Exit 0, log))
      /\ (api_usage <> [] ->
          forall e, new_checker = Some e -> main args log = (Raised e, log))
      /\ (api_usage <> [] -> new_checker = None ->
          py_int (new_version args) = None ->
          exists e, main args log = (Raised e, log) /\ exn_kind e = ValueError)
      /\ (api_usage <> [] -> new_checker = None ->
          forall n, py_int (new_version args) = Some n ->
          exists r queries,
            check_project encode py_int py_round index_query api_usage
              (old_version args) (new_version args) (library args) log
            = (inr r, (log ++ queries)%list)
            /\ queries = map (fun s => the_query encode s (library args) n)
                           (sorted_set (collect_calls api_usage))
            /\ length queries = total_apis (summary r)
            /\ 1 <= length queries
            /\ snd (main args log) = (log ++ queries)%list
            /\ match print_report r with
               | inl e =>
                   fst (main args log) = Raised e
                   /\ exists c s,
                       c ∈ entries r /\ similarity (verdict c) = Some s
                       /\ format_similarity_bar s = inl e
               | inr _ =>
                   fst (main args log)
                   = match json_output args with
                     | None => Reported r None
                     | Some file =>
                         if String.eqb file "" then Reported r None
                         else
                           match write_json file with
                           | Some e => Raised e
                           | None => Reported r (Some file)
                           end
                     end
               end).
Proof.
  intros project_path. unfold Cli.main. fold project_path. split.
  - now intros ->.
  - intros top ->. pose proof (scan_has_a_symbol project_path top) as Hsym.
    remember (scan_project project_path top) as api_usage eqn:Eusage. clear Eusage.
    split; [| split; [| split]].
    + now intros ->.
    + intros Hne e ->. now destruct api_usage.
    + intros Hne -> Hn.
      destruct (CheckerFacts.check_project_raises encode py_int py_round index_query
                  api_usage (old_version args) (new_version args) (library args) log Hn
                  (Hsym Hne)) as (e & He & Hkind).
      destruct api_usage; [contradiction |]. rewrite He. eauto.
    + intros Hne -> n Hn. specialize (Hsym Hne).
      destruct (CheckerFacts.report_entries_checked encode py_int py_round index_query
                  api_usage (old_version args) (new_version args) (library args) log n Hn)
        as (r & Hr & Hbuckets & Hentry).
      destruct (CheckerSpec.report_facts encode py_int py_round index_query
                  (old_version args) (new_version args) (library args) n api_usage log Hn)
        as (cache & r' & Hr' & _ & _ & _ & _ & _ & Hsum).
      rewrite Hr in Hr'. injection Hr' as <-.
      assert (Hkeys : Forall (fun c => has_keys (verdict c)) (entries r)).
      { apply Forall_forall. intros c Hc.
        destruct (Hentry c Hc) as (i & sym & _ & _ & Hcall).
        eapply CheckerFacts.check_api_keys, Hcall. }
      eexists r, _. destruct api_usage as [| fc rest]; [contradiction |].
      rewrite Hr. split; [reflexivity |]. split; [reflexivity |].
      rewrite length_map, Hsum. cbn [total_apis summarize].
      rewrite PyFacts.length_sorted_set. split; [reflexivity |]. split.
      { destruct (sorted_set (collect_calls (fc :: rest))) as [| c syms] eqn:Es.
        - apply PyFacts.sorted_set_nil in Es. contradiction.
        - rewrite <- PyFacts.length_sorted_set, Es. simpl. lia. }
      destruct (print_report r) as [e | []] eqn:Hprint.
      * split; [reflexivity |]. split; [reflexivity |].
        exact (print_report_raises r e Hkeys Hbuckets Hprint).
      * destruct (json_output args) as [file |]; [| split; reflexivity].
        destruct (String.eqb file ""); [split; reflexivity |].
        destruct (write_json file); split; reflexivity.
Qed.

End Main.
End CliFacts.

(** ** The walk over the syntax tree *)
Module WalkFacts.
Import Analyzer Stated StatedMore.

Ltac same_set :=
  apply set_eq; intros ?;
  set_unfold; tauto.

Lemma only_adds_ret : only_adds (fun api_calls => ret api_calls).
Proof. intros a. simpl. f_equal. same_set. Qed.

Lemma only_adds_add name (c : bool) :
  only_adds (fun api_calls => ret (if c then add name api_calls else api_calls)).
Proof. intros a. simpl. f_equal. unfold add. destruct c; same_set. Qed.

Lemma only_adds_bind (step next : gset string -> result (gset string)) :
  only_adds step -> only_adds next ->
  only_adds (fun api_calls => let! api_calls := step api_calls in next api_calls).
Proof.
  intros Hstep Hnext a. unfold bind. rewrite (Hstep a).
  destruct (step ∅) as [e | d]; [reflexivity |].
  rewrite (Hnext (d ∪ a)), (Hnext d).
  destruct (next ∅) as [e | d']; [reflexivity |]. f_equal. same_set.
Qed.

Lemma only_adds_read {A} (m : result A) (next : A -> gset string -> result (gset string)) :
  (forall x, only_adds (next x)) ->
  only_adds (fun api_calls => let! x := m in next x api_calls).
Proof. intros Hnext a. unfold bind. destruct m as [e | x]; [reflexivity | apply Hnext]. Qed.

Lemma only_adds_if (c : bool) (step other : gset string -> result (gset string)) :
  only_adds step -> only_adds other ->
  only_adds (fun api_calls => if c then step api_calls else other api_calls).
Proof. now destruct c. Qed.

(** Case analysis on every test a visitor makes. *)
Ltac split_tests :=
  repeat match goal with
         | |- context [match ?x with _ => _ end] =>
             lazymatch x with
             | context [match _ with _ => _ end] => fail
             | _ => destruct x eqn:?
             end
         end.

Ltac visitor_adds :=
  intros ?; unfold bind, ret, raise; split_tests;
  try reflexivity; try discriminate; f_equal; unfold add; same_set.

Lemma visit_member_adds node : only_adds (visit_member node).
Proof. unfold visit_member. visitor_adds. Qed.

Lemma visit_call_adds node : only_adds (visit_call node).
Proof. unfold visit_call. visitor_adds. Qed.

Lemma visit_class_adds node : only_adds (visit_class node).
Proof. unfold visit_class. visitor_adds. Qed.

Lemma visit_jsx_adds node : only_adds (visit_jsx node).
Proof. unfold visit_jsx. visitor_adds. Qed.

Lemma visit_specifier_adds spec : only_adds (visit_specifier spec).
Proof. unfold visit_specifier. visitor_adds. Qed.

Lemma visit_specifiers_adds specs : only_adds (visit_specifiers specs).
Proof.
  induction specs as [| spec specs IH]; [apply only_adds_ret |].
  apply (only_adds_bind (visit_specifier spec) (visit_specifiers specs));
    [apply visit_specifier_adds | exact IH].
Qed.

Lemma visit_import_adds node : only_adds (visit_import node).
Proof.
  unfold visit_import.
  apply (only_adds_read (get _ _ _) (fun _ a => let! specifiers := iterate _ in _)).
  intros _. apply (only_adds_read (iterate _) (fun specifiers a => visit_specifiers specifiers a)).
  apply visit_specifiers_adds.
Qed.

Lemma visit_node_adds node : only_adds (visit_node node).
Proof.
  unfold visit_node.
  repeat (apply only_adds_bind;
          [apply only_adds_if;
           [first [apply visit_member_adds | apply visit_call_adds
                  | apply visit_class_adds | apply visit_jsx_adds]
           | apply only_adds_ret] |]).
  apply only_adds_if; [apply visit_import_adds | apply only_adds_ret].
Qed.

(** *** What the walk collects *)

Lemma collected_ret (nodes : list (string * json) -> Prop) api_calls :
  (forall node, ~ nodes node) -> collected nodes api_calls (inr api_calls).
Proof.
  intros Hnone. split.
  - intros name. split; [now left |]. intros [H | (node & _ & Hnode & _)]; [exact H |].
    now apply Hnone in Hnode.
  - intros node Hnode. now apply Hnone in Hnode.
Qed.

Lemma collected_ext (nodes nodes' : list (string * json) -> Prop) api_calls res :
  (forall node, nodes node <-> nodes' node) ->
  collected nodes api_calls res -> collected nodes' api_calls res.
Proof.
  intros Hsame. destruct res as [e | found]; simpl.
  - intros (node & Hnode & Hvisit). exists node. split; [now apply Hsame | exact Hvisit].
  - intros [Hfound Hall]. split.
    + intros name. rewrite Hfound. split; (intros [H | (node & added & Hnode & Hrest)];
        [now left | right; exists node, added; split; [now apply Hsame | exact Hrest]]).
    + intros node Hnode. apply Hall. now apply Hsame.
Qed.

Lemma collected_bind (nodes1 nodes2 : list (string * json) -> Prop) api_calls
    (m : result (gset string)) (k : gset string -> result (gset string)) :
  collected nodes1 api_calls m ->
  (forall api_calls', collected nodes2 api_calls' (k api_calls')) ->
  collected (fun node => nodes1 node \/ nodes2 node) api_calls (let! x := m in k x).
Proof.
  intros Hm Hk. destruct m as [e | found]; simpl in *.
  - destruct Hm as (node & Hnode & Hvisit). exists node. split; [now left | exact Hvisit].
  - destruct Hm as [Hfound Hall]. specialize (Hk found).
    destruct (k found) as [e | found']; simpl in *.
    + destruct Hk as (node & Hnode & Hvisit). exists node. split; [now right | exact Hvisit].
    + destruct Hk as [Hfound' Hall']. split.
      * intros name. rewrite Hfound', Hfound. split.
        -- intros [[H | (node & added & Hnode & Hrest)] | (node & added & Hnode & Hrest)].
           ++ now left.
           ++ right. exists node, added. split; [now left | exact Hrest].
           ++ right. exists node, added. split; [now right | exact Hrest].
        -- intros [H | (node & added & [Hnode | Hnode] & Hrest)].
           ++ left. now left.
           ++ left. right. exists node, added. split; [exact Hnode | exact Hrest].
           ++ right. exists node, added. split; [exact Hnode | exact Hrest].
      * intros node [Hnode | Hnode]; [now apply Hall | now apply Hall'].
Qed.

Lemma collected_visit node api_calls :
  collected (eq node) api_calls (visit_node node api_calls).
Proof.
  rewrite (visit_node_adds node api_calls).
  destruct (visit_node node ∅) as [e | added] eqn:Hvisit; simpl.
  - exists node. split; [reflexivity | exact Hvisit].
  - split.
    + intros name. rewrite elem_of_union. split.
      * intros [H | H]; [right | now left]. exists node, added. repeat split; assumption.
      * intros [H | (node' & added' & <- & Hvisit' & H)]; [now right | left].
        rewrite Hvisit in Hvisit'. now injection Hvisit' as <-.
    + intros node' <-. eauto.
Qed.

Lemma within_list node items :
  within (JDict node) (JList items)
  <-> exists item, In item items /\ within (JDict node) item.
Proof.
  split.
  - intros H. inversion H; subst. eauto.
  - intros (item & Hin & H). eapply within_item; eauto.
Qed.

Lemma within_dict node fields :
  within (JDict node) (JDict fields)
  <-> node = fields \/ exists k value, In (k, value) fields /\ within (JDict node) value.
Proof.
  split.
  - intros H. inversion H; subst; [now left | right; eauto].
  - intros [-> | (k & value & Hin & H)]; [constructor | eapply within_value; eauto].
Qed.

Lemma walk_collects tree :
  forall api_calls,
    collected (fun node => within (JDict node) tree) api_calls (walk tree api_calls).
Proof.
  induction tree as [| b | n | s | items IH | fields IH] using AnalyzerSpec.json_nested_ind;
    intros acc; try (apply collected_ret; intros node H; inversion H).
  - simpl. apply (collected_ext (fun node => exists item, In item items /\ within (JDict node) item)).
    { intros node. symmetry. apply within_list. }
    revert acc. induction IH as [| item items Hitem _ IHitems]; intros acc.
    + apply collected_ret. intros node (item & [] & _).
    + eapply collected_ext; [| apply (collected_bind _ _ _ _ _ (Hitem acc) IHitems)].
      intros node. simpl. split.
      * intros [H | (item' & Hin & H)]; [exists item | exists item']; auto.
      * intros (item' & [<- | Hin] & H); [now left | right; eauto].
  - simpl. eapply collected_ext; [| apply (collected_bind (eq fields) (fun node => exists k value, In (k, value) fields /\ within (JDict node) value) _ _ _ (collected_visit fields acc))].
    { intros node. rewrite within_dict. split; (intros [H | H]; [left; now symmetry | now right]). }
    clear acc. induction IH as [| [k v] fields Hv _ IHfields]; intros acc.
    + apply collected_ret. intros node (k & value & [] & _).
    + simpl in Hv.
      assert (Hskip : (forall node, ~ within (JDict node) v) ->
                collected (fun node => exists k0 value, In (k0, value) ((k, v) :: fields)
                                                        /\ within (JDict node) value)
                  acc
                  ((fix values (l : list (string * json)) (api_calls : gset string)
                      : result (gset string) :=
                      match l with
                      | [] => ret api_calls
                      | (_, value) :: l' =>
                          match value with
                          | JDict _ | JList _ =>
                              let! api_calls := walk value api_calls in values l' api_calls
                          | _ => values l' api_calls
                          end
                      end) fields acc)).
      { intros Hnone. eapply collected_ext; [| apply IHfields].
        intros node. split.
        - intros (k0 & value & Hin & H). exists k0, value. split; [now right | exact H].
        - intros (k0 & value & [Heq | Hin] & Hw);
          [injection Heq as <- <-; now apply Hnone in Hw | eauto]. }
      assert (Hgo : collected (fun node => exists k0 value, In (k0, value) ((k, v) :: fields)
                                                          /\ within (JDict node) value)
                  acc
                  (let! api_calls := walk v acc in
                   (fix values (l : list (string * json)) (api_calls : gset string)
                      : result (gset string) :=
                      match l with
                      | [] => ret api_calls
                      | (_, value) :: l' =>
                          match value with
                          | JDict _ | JList _ =>
                              let! api_calls := walk value api_calls in values l' api_calls
                          | _ => values l' api_calls
                          end
                      end) fields api_calls)).
      { eapply collected_ext; [| apply (collected_bind _ _ _ _ _ (Hv acc) IHfields)].
        intros node. simpl. split.
        - intros [H | (k0 & value & Hin & H)]; [exists k, v | exists k0, value]; auto.
        - intros (k0 & value & [Heq | Hin] & Hw);
          [injection Heq as <- <-; now left | right; eauto]. }
      destruct v; try (apply Hskip; intros node H; inversion H); exact Hgo.
Qed.

(** X15. The walk visits every dict of the tree, at any depth below dicts
    and lists. When it returns, every visit has returned and the set holds
    what the set held before and what each visited node adds, nothing
    else; when it raises, the exception is that of the visit of a node.
    The order of the visits has no effect on the set. *)
Theorem walk_visits_every_node (tree : json) (api_calls : gset string) :
  match walk tree api_calls with
  | inr found =>
      (forall name,
          name ∈ found
          <-> name ∈ api_calls
              \/ exists node added,
                  within (JDict node) tree /\ visit_node node ∅ = inr added /\ name ∈ added)
      /\ (forall node, within (JDict node) tree -> exists added, visit_node node ∅ = inr added)
  | inl e => exists node, within (JDict node) tree /\ visit_node node ∅ = inl e
  end.
Proof. exact (walk_collects tree api_calls). Qed.

(** *** What a node adds *)

Lemma bind_ret (m : result (gset string)) : (let! x := m in ret x) = m.
Proof. now destruct m. Qed.

Ltac only_visitor node H :=
  let Hf := fresh "Hf" in
  assert (Hf : field node "type" (JStr "") = default (JStr "") (dict_get node "type"))
    by reflexivity;
  rewrite H in Hf; cbn [default from_option id] in Hf;
  unfold visit_node; pattern (field node "type" (JStr "")); rewrite Hf;
  cbn beta; cbn [is_str String.eqb Ascii.eqb Bool.eqb];
  cbn [bind ret]; rewrite ?bind_ret; try reflexivity.

Lemma visit_node_member node api_calls :
  has_type node "MemberExpression" -> visit_node node api_calls = visit_member node api_calls.
Proof. intros H. only_visitor node H. Qed.

Lemma visit_node_call node api_calls :
  has_type node "CallExpression" -> visit_node node api_calls = visit_call node api_calls.
Proof. intros H. only_visitor node H. Qed.

Lemma visit_node_class node api_calls :
  has_type node "ClassDeclaration" -> visit_node node api_calls = visit_class node api_calls.
Proof. intros H. only_visitor node H. Qed.

Lemma visit_node_jsx node api_calls :
  has_type node "JSXMemberExpression" -> visit_node node api_calls = visit_jsx node api_calls.
Proof. intros H. only_visitor node H. Qed.

Lemma visit_node_import node api_calls :
  has_type node "ImportDeclaration" -> visit_node node api_calls = visit_import node api_calls.
Proof. intros H. only_visitor node H. Qed.

Lemma dict_get_key {V} (d : list (string * V)) k v :
  dict_get d k = Some v -> mem k (map fst d) = true.
Proof.
  induction d as [| [k' v'] d IH]; [discriminate |]. simpl.
  rewrite (String.eqb_sym k k'). destruct (String.eqb k' k); [reflexivity | exact IH].
Qed.

Lemma mem_true x l : In x l -> mem x l = true.
Proof. apply AnalyzerSpec.mem_In. Qed.

Lemma elem_of_add name api_calls : name ∈ add name api_calls.
Proof. unfold add. apply elem_of_union_l. now apply elem_of_singleton. Qed.

Lemma elem_of_add_more name other api_calls : name ∈ api_calls -> name ∈ add other api_calls.
Proof. unfold add. apply elem_of_union_r. Qed.

(** Reads the parts of a node that the hypotheses give. *)
Ltac read_node :=
  repeat first
    [ match goal with
      | H : dict_get _ _ = Some _ |- _ => rewrite H
      | H : dict_get _ _ = None |- _ => rewrite H
      | H : mem _ _ = true |- _ => rewrite H
      end
    | progress unfold field
    | progress cbn [default from_option id get ret bind hashed_in is_str eq_in
                    inserted_name iterate] ].

Lemma member_reports node owner method added :
  names node "object" owner -> names node "property" method ->
  visit_member node ∅ = inr added ->
  (In method (default [] (dict_get REACT_MEMBER_APIS owner)) -> owner ++ "." ++ method ∈ added)
  /\ (owner = "React" -> method = "Children" -> "React.Children.map" ∈ added).
Proof.
  intros (obj & Hobj & Hobj_name) (prop & Hprop & Hprop_name).
  unfold visit_member, field. read_node. intros Hadded. split.
  - intros Hmethod.
    destruct (dict_get REACT_MEMBER_APIS owner) as [methods |] eqn:Howner; [| destruct Hmethod].
    apply dict_get_key in Howner. apply mem_true in Hmethod.
    cbn [default from_option id] in Hmethod. revert Hadded. read_node.
    intros [= <-]. destruct (_ && _); [apply elem_of_add_more |]; apply elem_of_add.
  - intros -> ->. revert Hadded. unfold bind.
    destruct (mem "React" _); [destruct (mem "Children" _) |]; intros [= <-];
      apply elem_of_add.
Qed.

Lemma returned_eq {A} (a b : A) : @ret A a = inr b -> a = b.
Proof. now intros [= ->]. Qed.

Lemma call_reports node name added :
  names node "callee" name ->
  visit_call node ∅ = inr added ->
  In name REACT_HOOKS \/ In name REACT_IMPORTS -> name ∈ added.
Proof.
  intros (callee & Hcallee & Hname). unfold visit_call. read_node.
  intros Hadded Hin. apply returned_eq in Hadded. subst added.
  destruct Hin as [H | H]; apply mem_true in H; rewrite H.
  - destruct (mem name REACT_IMPORTS); [apply elem_of_add_more |]; apply elem_of_add.
  - apply elem_of_add.
Qed.

Lemma jsx_reports node name added :
  names node "object" "React" -> names node "property" name ->
  visit_jsx node ∅ = inr added ->
  In ("React." ++ name) REACT_COMPONENT_APIS -> "React." ++ name ∈ added.
Proof.
  intros (obj & Hobj & Hobj_name) (prop & Hprop & Hprop_name). unfold visit_jsx. read_node.
  cbn [String.eqb Ascii.eqb Bool.eqb]. read_node.
  intros Hadded H. apply returned_eq in Hadded. subst added.
  apply mem_true in H. rewrite H. apply elem_of_add.
Qed.

Lemma class_reports node sup name added :
  dict_get node "superClass" = Some (JDict sup) ->
  names sup "object" "React" -> names sup "property" name ->
  visit_class node ∅ = inr added ->
  name = "Component" \/ name = "PureComponent" -> "React." ++ name ∈ added.
Proof.
  intros Hsup (obj & Hobj & Hobj_name) (prop & Hprop & Hprop_name). unfold visit_class.
  read_node. cbn [String.eqb Ascii.eqb Bool.eqb]. read_node.
  intros Hadded Hname. apply returned_eq in Hadded. subst added.
  destruct Hname as [-> | ->]; apply elem_of_add.
Qed.

Lemma hook_or_import_is_truthy name :
  In name REACT_HOOKS \/ In name REACT_IMPORTS -> truthy (JStr name) = true.
Proof.
  intros [H | H]; simpl in H;
    repeat (destruct H as [<- | H]; [reflexivity |]); destruct H.
Qed.

Lemma specifier_reports spec name added :
  names spec "imported" name
  \/ (dict_get spec "imported" = None /\ names spec "local" name) ->
  visit_specifier (JDict spec) ∅ = inr added ->
  In name REACT_HOOKS \/ In name REACT_IMPORTS -> name ∈ added.
Proof.
  intros Hspec Hadded Hname. pose proof (hook_or_import_is_truthy name Hname) as Htruthy.
  assert (Hvisit : visit_specifier (JDict spec) ∅
                   = let! imp := hashed_in (JStr name) REACT_IMPORTS in
                     let api_calls := if imp then add name ∅ else ∅ in
                     let! hook := hashed_in (JStr name) REACT_HOOKS in
                     ret (if hook then add name api_calls else api_calls)).
  { unfold visit_specifier.
    destruct Hspec as [(imported & Himported & Hiname) | (Hnone & local & Hlocal & Hlname)].
    - read_node. rewrite Htruthy. reflexivity.
    - read_node. cbn [dict_get]. read_node. cbn [truthy String.eqb negb]. read_node.
      reflexivity. }
  rewrite Hvisit in Hadded. cbn [hashed_in bind] in Hadded.
  apply returned_eq in Hadded. subst added.
  destruct Hname as [H | H]; apply mem_true in H; rewrite H.
  - apply elem_of_add.
  - destruct (mem name REACT_HOOKS); [apply elem_of_add_more |]; apply elem_of_add.
Qed.

Lemma specifiers_visit spec specs :
  forall api_calls added,
    visit_specifiers specs api_calls = inr added ->
    In spec specs ->
    exists found, visit_specifier spec ∅ = inr found /\ found ⊆ added.
Proof.
  induction specs as [| first rest IH]; intros acc added Hadded Hin; [destruct Hin |].
  cbn [visit_specifiers] in Hadded. unfold bind in Hadded.
  rewrite (visit_specifier_adds first acc) in Hadded.
  destruct (visit_specifier first ∅) as [e | found] eqn:Hfirst; [discriminate |].
  destruct Hin as [<- | Hin].
  - exists found. split; [exact Hfirst |].
    rewrite (visit_specifiers_adds rest (found ∪ acc)) in Hadded.
    destruct (visit_specifiers rest ∅) as [e | more]; [discriminate |].
    injection Hadded as <-. intros x Hx. apply elem_of_union_r, elem_of_union_l, Hx.
  - eapply IH; eassumption.
Qed.

Lemma import_reports node specs spec name added :
  dict_get node "specifiers" = Some (JList specs) ->
  In (JDict spec) specs ->
  names spec "imported" name
  \/ (dict_get spec "imported" = None /\ names spec "local" name) ->
  visit_import node ∅ = inr added ->
  In name REACT_HOOKS \/ In name REACT_IMPORTS -> name ∈ added.
Proof.
  intros Hspecs Hin Hspec. unfold visit_import, bind.
  destruct (get _ _ _) as [e | source]; [discriminate |].
  unfold field. rewrite Hspecs. cbn [default from_option id iterate ret].
  intros Hadded Hname.
  destruct (specifiers_visit (JDict spec) specs ∅ added Hadded Hin) as (found & Hfound & Hsub).
  apply Hsub. eapply specifier_reports; eassumption.
Qed.

(** X16. The structural extractor misses no use that has the usual shape,
    wherever the node stands in the tree. If the walk returns, its set
    holds: [owner.method] for a member expression on [ReactDOM] or [React]
    with a method of the table, called or not; [React.Children.map] for
    any member expression [React.Children]; the name of a called hook,
    [createRoot] or [hydrateRoot]; [React.Component] or
    [React.PureComponent] for a class that extends it; a [React.] element
    name of the table; and a hook, [createRoot] or [hydrateRoot] that an
    import specifier names as imported, or as local when it has no
    imported name. *)
Theorem usual_nodes_are_reported (tree : json) (api_calls found : gset string)
    (node : list (string * json)) :
  walk tree api_calls = inr found ->
  within (JDict node) tree ->
  (forall owner method,
      has_type node "MemberExpression" ->
      names node "object" owner -> names node "property" method ->
      (In method (default [] (dict_get REACT_MEMBER_APIS owner)) ->
       owner ++ "." ++ method ∈ found)
      /\ (owner = "React" -> method = "Children" -> "React.Children.map" ∈ found))
  /\ (forall name,
        has_type node "CallExpression" -> names node "callee" name ->
        In name REACT_HOOKS \/ In name REACT_IMPORTS -> name ∈ found)
  /\ (forall sup name,
        has_type node "ClassDeclaration" ->
        dict_get node "superClass" = Some (JDict sup) ->
        names sup "object" "React" -> names sup "property" name ->
        name = "Component" \/ name = "PureComponent" -> "React." ++ name ∈ found)
  /\ (forall name,
        has_type node "JSXMemberExpression" ->
        names node "object" "React" -> names node "property" name ->
        In ("React." ++ name) REACT_COMPONENT_APIS -> "React." ++ name ∈ found)
  /\ (forall specs spec name,
        has_type node "ImportDeclaration" ->
        dict_get node "specifiers" = Some (JList specs) ->
        In (JDict spec) specs ->
        names spec "imported" name
        \/ (dict_get spec "imported" = None /\ names spec "local" name) ->
        In name REACT_HOOKS \/ In name REACT_IMPORTS -> name ∈ found).
Proof.
  intros Hwalk Hnode. pose proof (walk_collects tree api_calls) as Hall.
  rewrite Hwalk in Hall. destruct Hall as [Hfound Hvisits].
  destruct (Hvisits node Hnode) as (added & Hadded).
  assert (Hsub : forall name, name ∈ added -> name ∈ found).
  { intros name Hname. apply Hfound. right. exists node, added. auto. }
  split; [| split; [| split; [| split]]].
  - intros owner method Hty Hobj Hprop. rewrite (visit_node_member node ∅ Hty) in Hadded.
    destruct (member_reports node owner method added Hobj Hprop Hadded) as [H1 H2].
    split; auto.
  - intros name Hty Hcallee Hname. rewrite (visit_node_call node ∅ Hty) in Hadded.
    eauto using call_reports.
  - intros sup name Hty Hsup Hobj Hprop Hname. rewrite (visit_node_class node ∅ Hty) in Hadded.
    eauto using class_reports.
  - intros name Hty Hobj Hprop Hname. rewrite (visit_node_jsx node ∅ Hty) in Hadded.
    eauto using jsx_reports.
  - intros specs spec name Hty Hspecs Hin Hspec Hname.
    rewrite (visit_node_import node ∅ Hty) in Hadded. eauto using import_reports.
Qed.

End WalkFacts.

(** ** The scan as a filter of the source files *)
Module ScanFacts.
Import Analyzer Stated StatedMore.

Lemma dict_set_fresh {V} (d : list (string * V)) k v :
  ~ In k (map fst d) -> dict_set d k v = (d ++ [(k, v)])%list.
Proof.
  induction d as [| [k' v'] d IH]; intros Hk; [reflexivity |]. simpl in *.
  destruct (String.eqb k' k) eqn:E.
  - apply String.eqb_eq in E. exfalso. apply Hk. now left.
  - f_equal. apply IH. intros H. apply Hk. now right.
Qed.

Lemma dict_set_has_key {V} (d : list (string * V)) k v k' :
  In k' (map fst d) \/ k' = k -> In k' (map fst (dict_set d k v)).
Proof.
  rewrite ScannerFacts.dict_set_keys. destruct (mem k (map fst d)) eqn:E.
  - intros [H | ->]; [exact H | now apply AnalyzerSpec.mem_In].
  - intros [H | ->]; apply in_or_app; [now left | right; now left].
Qed.

Section Scanner.
Variable unicode_alnum : N -> bool.
Variable HAS_ESPRIMA : bool.
Variable parseScript parseModule : text -> option json.

#[local] Abbreviation extract_ast :=
  (extract_api_calls_ast unicode_alnum HAS_ESPRIMA parseScript parseModule).
#[local] Abbreviation scan_file :=
  (scan_file unicode_alnum HAS_ESPRIMA parseScript parseModule).
#[local] Abbreviation scan_project_locals :=
  (scan_project_locals unicode_alnum HAS_ESPRIMA parseScript parseModule).
#[local] Abbreviation scan_project :=
  (scan_project unicode_alnum HAS_ESPRIMA parseScript parseModule).

#[local] Abbreviation scanned := (scanned extract_ast).

Lemma scanned_start : scanned [] (mkScan [] []).
Proof. repeat split; try done. Qed.

Lemma scanned_file seen root file st :
  scanned seen st ->
  scanned (seen ++ (if eligible (fst file)
                    then [(os_path_join root (fst file), snd file)] else []))%list
    (scan_file root file st).
Proof.
  intros (Hskip & Hkeys & Hkept & Hexact). unfold Analyzer.scan_file.
  fold (eligible (fst file)). destruct (eligible (fst file)).
  2: { rewrite app_nil_r. repeat split; assumption. }
  set (p := os_path_join root (fst file)).
  assert (Hnd : List.NoDup (map fst (seen ++ [(p, snd file)])) ->
                List.NoDup (map fst seen) /\ ~ In p (map fst seen)).
  { rewrite map_app. intros H. apply NoDup_ListNoDup, NoDup_app in H as (H1 & H2 & _).
    split; [now apply NoDup_ListNoDup |]. intros Hin. apply (H2 p).
    - now apply list_elem_of_In.
    - simpl. apply list_elem_of_here. }
  assert (Hk : omap (kept_entry extract_ast) [(p, snd file)]
               = match extract_ast (snd file) with
                 | inr (c :: calls) => [(p, c :: calls)]
                 | _ => []
                 end).
  { unfold kept_entry. cbn [omap list_omap fst snd].
    now destruct (extract_ast (snd file)) as [e | [| c calls]]. }
  assert (Hs : omap (skipped_entry extract_ast) [(p, snd file)]
               = match extract_ast (snd file) with
                 | inl e => [(p, exn_str e)]
                 | inr _ => []
                 end).
  { unfold skipped_entry. cbn [omap list_omap fst snd].
    now destruct (extract_ast (snd file)). }
  unfold StatedMore.scanned. rewrite !omap_app, Hk, Hs. clear Hk Hs.
  destruct (extract_ast (snd file)) as [e | [| c calls]] eqn:E; cbn [results skipped].
  - split; [now rewrite Hskip |]. split; [| split].
    + intros q Hq. rewrite map_app. apply in_or_app. left. auto.
    + intros f Hf Hsome. apply in_app_or in Hf as [Hf | [<- | []]]; [auto |].
      unfold kept_entry in Hsome. cbn [snd] in Hsome. rewrite E in Hsome.
      now destruct Hsome.
    + intros H. apply Hnd in H as [H _]. now rewrite app_nil_r, Hexact.
  - split; [now rewrite Hskip, app_nil_r |]. split; [| split].
    + intros q Hq. rewrite map_app. apply in_or_app. left. auto.
    + intros f Hf Hsome. apply in_app_or in Hf as [Hf | [<- | []]]; [auto |].
      unfold kept_entry in Hsome. cbn [snd] in Hsome. rewrite E in Hsome.
      now destruct Hsome.
    + intros H. apply Hnd in H as [H _]. now rewrite app_nil_r, Hexact.
  - split; [now rewrite Hskip, app_nil_r |]. split; [| split].
    + intros q Hq. rewrite map_app. apply in_or_app.
      rewrite ScannerFacts.dict_set_keys in Hq.
      destruct (mem p (map fst (results st))) eqn:Em; [left; auto |].
      apply in_app_or in Hq as [Hq | Hq]; [left; auto | now right].
    + intros f Hf Hsome. apply dict_set_has_key.
      apply in_app_or in Hf as [Hf | [<- | []]]; [left; auto | now right].
    + intros H. apply Hnd in H as [H Hp]. rewrite <- (Hexact H).
      apply dict_set_fresh. intros Hin. apply Hp, Hkeys, Hin.
Qed.

Lemma scanned_files root (files : list (string * FileData)) :
  forall seen st,
    scanned seen st ->
    scanned
      (seen ++ map (fun file => (os_path_join root (fst file), snd file))
                 (List.filter (fun file => eligible (fst file)) files))%list
      (fold_left (fun st file => scan_file root file st) files st).
Proof.
  induction files as [| file files IH]; intros seen st Hst; simpl.
  - now rewrite app_nil_r.
  - apply (scanned_file seen root file st) in Hst. apply IH in Hst.
    destruct (eligible (fst file)); simpl.
    + now rewrite <- app_assoc in Hst.
    + now rewrite app_nil_r in Hst.
Qed.

Lemma scanned_visits (visits : list (string * list (string * FileData))) :
  forall seen st,
    scanned seen st ->
    scanned
      (seen ++ flat_map
                 (fun visit =>
                    map (fun file => (os_path_join (fst visit) (fst file), snd file))
                      (List.filter (fun file => eligible (fst file)) (snd visit)))
                 visits)%list
      (fold_left
         (fun st visit => fold_left (fun st file => scan_file (fst visit) file st) (snd visit) st)
         visits st).
Proof.
  induction visits as [| visit visits IH]; intros seen st Hst; simpl.
  - now rewrite app_nil_r.
  - apply (scanned_files (fst visit) (snd visit)) in Hst. apply IH in Hst.
    now rewrite <- app_assoc in Hst.
Qed.

(** X17. The scan is a filter of the source files it reaches. The skipped
    files are exactly those whose extraction raises, in the order of the
    walk, each with the text of its exception. Every source file whose
    extraction gives a symbol has its path as a key of the mapping, and
    the mapping has no other key than the path of such a file. When no
    two source files have the same path, the mapping is the list of these
    files with their symbols, in the order of the walk. *)
Theorem the_scan_keeps_every_file_with_symbols (project_path : string) (top : Dir) :
  let files := eligible_files project_path top in
  skipped (scan_project_locals project_path top) = omap (skipped_entry extract_ast) files
  /\ (forall p,
        In p (map fst (scan_project project_path top))
        <-> exists data c calls, In (p, data) files /\ extract_ast data = inr (c :: calls))
  /\ (List.NoDup (map fst files) ->
      scan_project project_path top = omap (kept_entry extract_ast) files).
Proof.
  intros files.
  pose proof (scanned_visits (os_walk (fun d => negb (mem d skip_dirs)) project_path top)
                [] (mkScan [] []) scanned_start) as (Hskip & _ & Hkept & Hexact).
  cbn [app] in Hskip, Hkept, Hexact.
  fold (eligible_files project_path top) in Hskip, Hkept, Hexact. fold files in Hskip, Hkept, Hexact.
  split; [exact Hskip |]. split; [| exact Hexact].
  intros p. split.
  - intros Hp. apply in_map_iff in Hp as ([p' calls] & <- & Hin).
    destruct (AnalyzerSpec.scan_project_traced unicode_alnum HAS_ESPRIMA parseScript
                parseModule project_path top) as [Hres _].
    destruct (Hres p' calls Hin) as (Hne & data & Hdata & Hex).
    destruct calls as [| c calls]; [contradiction |]. exists data, c, calls. auto.
  - intros (data & c & calls & Hin & Hex).
    apply (Hkept (p, data) Hin). unfold kept_entry. cbn [snd]. rewrite Hex. eauto.
Qed.

End Scanner.
End ScanFacts.

(** ** The paths of the source files *)
Module PathFacts.
Import Analyzer Stated StatedMore.

#[local] Abbreviation chars := list_ascii_of_string.
#[local] Abbreviation keep := (fun d => negb (mem d skip_dirs)).

Lemma plain_chars name :
  plain_name name = true ->
  name <> "" /\ Forall (fun c => c <> "/"%char) (chars name).
Proof.
  unfold plain_name. intros H. apply andb_prop in H as [Hne Hall]. split.
  - intros ->. discriminate.
  - apply List.Forall_forall. intros c Hc. rewrite forallb_forall in Hall.
    specialize (Hall c Hc). intros ->. discriminate.
Qed.

Lemma same_chars (a b : string) : chars a = chars b -> a = b.
Proof. apply KnowledgeBaseFacts.list_ascii_of_string_inj. Qed.

Ltac by_chars :=
  apply same_chars; rewrite ?ScannerFacts.list_ascii_of_string_app; simpl;
  rewrite ?ScannerFacts.list_ascii_of_string_app, ?app_nil_r, <- ?app_assoc; reflexivity.

(** [os.path.join(a, b)] puts [b] after [a] and a separator where [a]
    needs one. *)
Lemma join_plain (a b : string) :
  plain_name b = true -> os_path_join a b = os_path_join a "" ++ b.
Proof.
  intros Hb. apply plain_chars in Hb as [Hne Hall]. unfold os_path_join.
  destruct b as [| c b]; [done |]. apply Forall_cons in Hall as [Hc _].
  replace (String.prefix "/" (String c b)) with false.
  2: { cbn [String.prefix]. destruct (ascii_dec "/" c); [congruence | reflexivity]. }
  cbn [String.prefix]. destruct (String.eqb a "" || ends_with_sep a); by_chars.
Qed.

(** Below a subdirectory the paths begin with its name and a separator. *)
Lemma join_below (a name : string) :
  plain_name name = true ->
  os_path_join (os_path_join a name) "" = os_path_join a "" ++ name ++ "/".
Proof.
  intros Hname. rewrite (join_plain a name Hname).
  apply plain_chars in Hname as [Hne Hall].
  set (base := os_path_join a ""). unfold os_path_join at 1. cbn [String.prefix].
  assert (Hempty : String.eqb (base ++ name) "" = false).
  { apply String.eqb_neq. intros H. apply (f_equal chars) in H.
    rewrite ScannerFacts.list_ascii_of_string_app in H. simpl in H.
    apply app_eq_nil in H as [_ H]. apply Hne, same_chars. exact H. }
  assert (Hsep : ends_with_sep (base ++ name) = false).
  { unfold ends_with_sep. rewrite ScannerFacts.list_ascii_of_string_app, rev_app_distr.
    destruct (rev (chars name)) as [| c l] eqn:E.
    - exfalso. apply Hne, same_chars. simpl.
      rewrite <- (rev_involutive (chars name)), E. reflexivity.
    - simpl. apply Ascii.eqb_neq. rewrite List.Forall_forall in Hall. apply Hall.
      apply in_rev. rewrite E. now left. }
  rewrite Hempty, Hsep. by_chars.
Qed.

Lemma same_beginning (base x y : string) : base ++ x = base ++ y -> x = y.
Proof.
  intros H. apply same_chars. apply (f_equal chars) in H.
  rewrite !ScannerFacts.list_ascii_of_string_app in H. now apply app_inv_head in H.
Qed.

Lemma same_first_name (l l' x y : list ascii) :
  Forall (fun c => c <> "/"%char) l -> Forall (fun c => c <> "/"%char) l' ->
  (l ++ "/"%char :: x)%list = (l' ++ "/"%char :: y)%list -> l = l'.
Proof.
  intros Hl. revert l'. induction Hl as [| c l Hc _ IH]; intros l' Hl' E.
  - destruct Hl' as [| c' l' Hc' _]; [reflexivity |]. simpl in E. injection E as E _.
    now subst c'.
  - destruct Hl' as [| c' l' Hc' Hl']; simpl in E; injection E as E1 E2.
    + now subst c.
    + subst c'. f_equal. now apply IH.
Qed.

(** A path below a subdirectory is the path of no other subdirectory of
    the same directory, and of no file of it. *)
Lemma below_other (name name' rel rel' : string) :
  plain_name name = true -> plain_name name' = true ->
  name ++ "/" ++ rel = name' ++ "/" ++ rel' -> name = name'.
Proof.
  intros Hn Hn' E. apply plain_chars in Hn as [_ Hn]. apply plain_chars in Hn' as [_ Hn'].
  apply same_chars. apply (f_equal chars) in E.
  rewrite !ScannerFacts.list_ascii_of_string_app in E. simpl in E.
  exact (same_first_name _ _ _ _ Hn Hn' E).
Qed.

Lemma below_no_file (file name rel : string) :
  plain_name file = true -> file <> name ++ "/" ++ rel.
Proof.
  intros Hf E. apply plain_chars in Hf as [_ Hf]. apply (f_equal chars) in E.
  rewrite !ScannerFacts.list_ascii_of_string_app in E. simpl in E.
  rewrite E in Hf. apply Forall_app in Hf as [_ Hf]. apply Forall_cons in Hf as [Hf _].
  now apply Hf.
Qed.

Lemma distinct_cons name names :
  distinct (name :: names) = true -> ~ In name names /\ distinct names = true.
Proof.
  simpl. intros H. apply andb_prop in H as [Hname Hrest]. split; [| exact Hrest].
  intros Hin. apply AnalyzerSpec.mem_In in Hin. rewrite Hin in Hname. discriminate.
Qed.

(** *** The source files of a directory and of its subdirectories *)

Lemma eligible_files_dir root subdirs files :
  eligible_files root (MkDir subdirs files)
  = (map (fun file => (os_path_join root (fst file), snd file))
       (List.filter (fun file => eligible (fst file)) files)
     ++ flat_map
          (fun nd => if keep (fst nd)
                     then eligible_files (os_path_join root (fst nd)) (snd nd) else [])
          subdirs)%list.
Proof.
  unfold eligible_files. cbn [os_walk flat_map fst snd]. f_equal.
  induction subdirs as [| [name sub] subdirs IH]; [reflexivity |].
  cbn [flat_map fst snd]. destruct (negb (mem name skip_dirs)); [| exact IH].
  now rewrite flat_map_app, IH.
Qed.

Lemma file_paths root (files : list (string * FileData)) :
  forallb plain_name (map fst files) = true -> distinct (map fst files) = true ->
  let paths := map fst (map (fun file => (os_path_join root (fst file), snd file))
                          (List.filter (fun file => eligible (fst file)) files)) in
  List.NoDup paths
  /\ forall p, In p paths ->
       exists file, In file (map fst files) /\ plain_name file = true
                    /\ p = os_path_join root "" ++ file.
Proof.
  induction files as [| [file data] files IH]; intros Hplain Hdist paths.
  - split; [constructor | intros p []].
  - cbn [map fst forallb] in Hplain. apply andb_prop in Hplain as [Hfile Hplain].
    cbn [map fst] in Hdist. apply distinct_cons in Hdist as [Hnew Hdist].
    destruct (IH Hplain Hdist) as [Hnd Hform].
    assert (Hrest : forall p,
               In p (map fst (map (fun file => (os_path_join root (fst file), snd file))
                                (List.filter (fun file => eligible (fst file)) files))) ->
               exists file', In file' (map fst ((file, data) :: files))
                             /\ plain_name file' = true
                             /\ p = os_path_join root "" ++ file').
    { intros p Hp. destruct (Hform p Hp) as (file' & Hin & Hpl & ->).
      exists file'. split; [now right | auto]. }
    subst paths. cbn [List.filter fst]. destruct (eligible file); [| now split].
    cbn [map fst]. split.
    + constructor; [| exact Hnd]. intros Hin.
      destruct (Hform _ Hin) as (file' & Hin' & Hpl & E).
      rewrite (join_plain root file Hfile) in E. apply same_beginning in E. now subst file'.
    + intros p [<- | Hp]; [| now apply Hrest].
      exists file. split; [now left |]. split; [exact Hfile | now apply join_plain].
Qed.

Lemma source_paths (d : Dir) :
  forall root,
    well_named d = true ->
    List.NoDup (map fst (eligible_files root d))
    /\ forall p, In p (map fst (eligible_files root d)) ->
         exists rel, p = os_path_join root "" ++ rel.
Proof.
  induction d as [subdirs files IH] using ScannerFacts.Dir_nested_ind. intros root Hwell.
  cbn [well_named] in Hwell.
  apply andb_prop in Hwell as [Hwell Hall]. apply andb_prop in Hwell as [Hwell Hdf].
  apply andb_prop in Hwell as [Hwell Hds]. apply andb_prop in Hwell as [Hps Hpf].
  rewrite eligible_files_dir, map_app.
  destruct (file_paths root files Hpf Hdf) as [Hfnd Hfform].
  set (base := os_path_join root "") in *.
  set (below := fun nd : string * Dir =>
                  if keep (fst nd)
                  then eligible_files (os_path_join root (fst nd)) (snd nd) else []).
  assert (Hbelow : List.NoDup (map fst (flat_map below subdirs))
                   /\ forall p, In p (map fst (flat_map below subdirs)) ->
                        exists name rel,
                          In name (map fst subdirs) /\ plain_name name = true
                          /\ p = base ++ name ++ "/" ++ rel).
  { clear Hfnd Hfform Hpf Hdf. revert Hps Hds Hall.
    induction IH as [| [name sub] subdirs Hsub _ IHsubs]; intros Hps Hds Hall.
    - split; [constructor | intros p []].
    - cbn [map fst forallb] in Hps. apply andb_prop in Hps as [Hname Hps].
      cbn [map fst] in Hds. apply distinct_cons in Hds as [Hnew Hds].
      apply andb_prop in Hall as [Hwsub Hall]. cbn [snd] in Hsub.
      destruct (IHsubs Hps Hds Hall) as [Hnd Hform].
      assert (Hrest : forall p, In p (map fst (flat_map below subdirs)) ->
                exists name' rel,
                  In name' (map fst ((name, sub) :: subdirs)) /\ plain_name name' = true
                  /\ p = base ++ name' ++ "/" ++ rel).
      { intros p Hp. destruct (Hform p Hp) as (name' & rel & Hin & Hpl & ->).
        exists name', rel. split; [now right | auto]. }
      cbn [flat_map]. unfold below at 1 3. cbn [fst snd].
      destruct (negb (mem name skip_dirs)); [| now split].
      destruct (Hsub (os_path_join root name) Hwsub) as [Hnd1 Hform1].
      assert (Hform1' : forall p,
                 In p (map fst (eligible_files (os_path_join root name) sub)) ->
                 exists rel, p = base ++ name ++ "/" ++ rel).
      { intros p Hp. destruct (Hform1 p Hp) as [rel ->]. exists rel.
        rewrite (join_below root name Hname). fold base. by_chars. }
      rewrite map_app. split.
      + apply List.NoDup_app; [exact Hnd1 | exact Hnd |].
        intros p Hp1 Hp2. destruct (Hform1' p Hp1) as [rel ->].
        destruct (Hform _ Hp2) as (name' & rel' & Hin & Hpl & E).
        apply same_beginning, below_other in E; [| exact Hname | exact Hpl].
        now subst name'.
      + intros p Hp. apply in_app_or in Hp as [Hp | Hp]; [| now apply Hrest].
        destruct (Hform1' p Hp) as [rel ->]. exists name, rel.
        split; [now left | auto]. }
  destruct Hbelow as [Hbnd Hbform]. split.
  - apply List.NoDup_app; [exact Hfnd | exact Hbnd |].
    intros p Hp1 Hp2. destruct (Hfform p Hp1) as (file & _ & Hfile & ->).
    destruct (Hbform _ Hp2) as (name & rel & _ & _ & E).
    apply same_beginning in E. exact (below_no_file file name rel Hfile E).
  - intros p Hp. apply in_app_or in Hp as [Hp | Hp].
    + destruct (Hfform p Hp) as (file & _ & _ & ->). eauto.
    + destruct (Hbform p Hp) as (name & rel & _ & _ & ->). eauto.
Qed.

Section Scanner.
Variable unicode_alnum : N -> bool.
Variable HAS_ESPRIMA : bool.
Variable parseScript parseModule : text -> option json.

#[local] Abbreviation extract_ast :=
  (extract_api_calls_ast unicode_alnum HAS_ESPRIMA parseScript parseModule).
#[local] Abbreviation scan_project :=
  (scan_project unicode_alnum HAS_ESPRIMA parseScript parseModule).

(** X4. No entry of the mapping is overwritten. In a tree as a file
    system holds it (names that are not empty and have no [/], in a
    directory no two subdirectories and no two files of the same name)
    the source files [scan_project] reaches have paths that differ, each
    made of the project path, a separator where it needs one, and the
    way down to the file; so [results[file_path] = calls] always writes a
    new key, and the mapping is the list of the source files that gave
    symbols, each with its list, in the order of the walk. *)
Theorem no_source_file_overwrites_another (project_path : string) (top : Dir) :
  well_named top = true ->
  let files := eligible_files project_path top in
  List.NoDup (map fst files)
  /\ (forall p, In p (map fst files) -> exists rel, p = os_path_join project_path "" ++ rel)
  /\ scan_project project_path top = omap (kept_entry extract_ast) files
  /\ List.NoDup (map fst (scan_project project_path top)).
Proof.
  intros Hwell files. destruct (source_paths top project_path Hwell) as [Hnd Hform].
  fold files in Hnd, Hform.
  pose proof (ScanFacts.scanned_visits unicode_alnum HAS_ESPRIMA parseScript parseModule
                (os_walk (fun d => negb (mem d skip_dirs)) project_path top)
                [] (mkScan [] []) (ScanFacts.scanned_start _ _ _ _)) as (_ & _ & _ & Hexact).
  cbn [app] in Hexact. fold (eligible_files project_path top) in Hexact. fold files in Hexact.
  assert (Hscan : scan_project project_path top = omap (kept_entry extract_ast) files)
    by exact (Hexact Hnd).
  split; [exact Hnd |]. split; [exact Hform |]. split; [exact Hscan |].
  rewrite Hscan. clear Hscan Hexact Hform. induction files as [| [p data] files IH].
  - constructor.
  - cbn [map fst] in Hnd. inversion Hnd as [| ? ? Hp Hnd']; subst.
    assert (Hkeys : forall q, In q (map fst (omap (kept_entry extract_ast) files)) ->
                      In q (map fst files)).
    { intros q Hq. apply in_map_iff in Hq as ([q' calls] & <- & Hin).
      apply list_elem_of_In, list_elem_of_omap in Hin as ([q'' data'] & Hin & Hk).
      unfold kept_entry in Hk. cbn [fst snd] in Hk.
      destruct (extract_ast data') as [| [| c calls']]; try discriminate.
      injection Hk as <- _. apply in_map_iff. exists (q'', data').
      split; [reflexivity | now apply list_elem_of_In]. }
    change (omap (kept_entry extract_ast) ((p, data) :: files))
      with (match kept_entry extract_ast (p, data) with
            | Some kept => kept :: omap (kept_entry extract_ast) files
            | None => omap (kept_entry extract_ast) files
            end).
    unfold kept_entry at 1. cbn [fst snd].
    destruct (extract_ast data) as [e | [| c calls]]; try now apply IH.
    cbn [map fst]. constructor; [| now apply IH]. intros Hin. apply Hp, Hkeys, Hin.
Qed.

End Scanner.
End PathFacts.

(** ** The text of a query *)
Module ContextFacts.
Import Checker Stated StatedMore.

Lemma begins_spec (p l : list ascii) :
  begins p l = true <-> exists rest, l = (p ++ rest)%list.
Proof.
  revert l. induction p as [| c p IH]; intros l; simpl.
  - split; [eauto | reflexivity].
  - destruct l as [| d l].
    + split; [discriminate | intros [rest H]; discriminate].
    + rewrite andb_true_iff, IH, Ascii.eqb_eq. split.
      * intros [-> [rest ->]]. eauto.
      * intros [rest [= -> ->]]. eauto.
Qed.

Lemma has_prefix_spec (p s : string) :
  has_prefix p s = true <-> exists rest, s = p ++ rest.
Proof.
  unfold has_prefix. rewrite begins_spec. split.
  - intros [rest H]. exists (string_of_list_ascii rest).
    apply KnowledgeBaseFacts.list_ascii_of_string_inj.
    now rewrite ScannerFacts.list_ascii_of_string_app, list_ascii_of_string_of_list_ascii.
  - intros [rest ->]. exists (list_ascii_of_string rest).
    apply ScannerFacts.list_ascii_of_string_app.
Qed.

Lemma has_suffix_app (p s : string) : has_suffix p (s ++ p) = true.
Proof.
  unfold has_suffix. apply begins_spec. exists (rev (list_ascii_of_string s)).
  now rewrite ScannerFacts.list_ascii_of_string_app, rev_app_distr.
Qed.

Lemma append_cancel_r (a b s : string) : a ++ s = b ++ s -> a = b.
Proof.
  intros H. apply KnowledgeBaseFacts.list_ascii_of_string_inj.
  apply (f_equal list_ascii_of_string) in H.
  rewrite !ScannerFacts.list_ascii_of_string_app in H. now apply app_inv_tail in H.
Qed.

Lemma string_app_assoc (a b c : string) : (a ++ b) ++ c = a ++ b ++ c.
Proof.
  induction a as [| x a IH]; [reflexivity |].
  change (String x ((a ++ b) ++ c) = String x (a ++ b ++ c)). now rewrite IH.
Qed.

Lemma dict_get_found {V} (d : list (string * V)) k v : dict_get d k = Some v -> In (k, v) d.
Proof.
  induction d as [| [k' v'] d IH]; [discriminate |]. simpl.
  destruct (String.eqb k' k) eqn:E.
  - apply String.eqb_eq in E. intros [= ->]. left. now subst.
  - intros H. right. auto.
Qed.

Lemma contexts_checked : contexts_in_order = true.
Proof. vm_compute. reflexivity. Qed.

Lemma context_of_table api_call text :
  In (api_call, text) contexts ->
  has_prefix (api_call ++ ": ") text = true
  /\ has_suffix ": React API function call" text = false
  /\ forall other text', In (other, text') contexts -> text = text' -> api_call = other.
Proof.
  intros Hin. pose proof contexts_checked as Hall. unfold contexts_in_order in Hall.
  rewrite forallb_forall in Hall. specialize (Hall _ Hin). cbn [fst snd] in Hall.
  apply andb_true_iff in Hall as [Hall Hpairs]. apply andb_true_iff in Hall as [Hstart Hend].
  split; [exact Hstart |]. split; [now apply negb_true_iff in Hend |].
  intros other text' Hin' <-. rewrite forallb_forall in Hpairs.
  specialize (Hpairs _ Hin'). cbn [fst snd] in Hpairs.
  rewrite String.eqb_refl in Hpairs. now apply String.eqb_eq in Hpairs.
Qed.

(** X18. The text sent for a symbol starts with the symbol and a colon,
    whether the symbol is in the table of contexts or not, and two
    different symbols are never sent as the same text. *)
Theorem context_names_its_symbol (api_call : string) :
  (exists description, _build_context api_call = api_call ++ ": " ++ description)
  /\ (dict_get contexts api_call = None ->
      _build_context api_call = api_call ++ ": React API function call")
  /\ forall other, _build_context api_call = _build_context other -> api_call = other.
Proof.
  split; [| split].
  - unfold _build_context. destruct (dict_get contexts api_call) as [text |] eqn:E.
    + apply dict_get_found, context_of_table in E as (Hstart & _).
      apply has_prefix_spec in Hstart as [rest ->]. exists rest. cbn [default from_option id].
      apply string_app_assoc.
    + eexists. reflexivity.
  - unfold _build_context. now intros ->.
  - intros other. unfold _build_context.
    destruct (dict_get contexts api_call) as [text |] eqn:E;
      destruct (dict_get contexts other) as [text' |] eqn:E'; cbn [default from_option id].
    + apply dict_get_found in E, E'. intros H.
      destruct (context_of_table _ _ E) as (_ & _ & Hpairs). eauto.
    + apply dict_get_found, context_of_table in E as (_ & Hend & _). intros ->.
      now rewrite (has_suffix_app ": React API function call" other) in Hend.
    + apply dict_get_found, context_of_table in E' as (_ & Hend & _). intros <-.
      now rewrite (has_suffix_app ": React API function call" api_call) in Hend.
    + apply append_cancel_r.
Qed.

End ContextFacts.

(** ** The lexical extractor and [React.Children] *)
Module LexicalFacts.
Import Re Analyzer Stated StatedMore.

Section Matching.
Variable unicode_alnum : N -> bool.

#[local] Abbreviation run := (run unicode_alnum).
#[local] Abbreviation match_at := (match_at unicode_alnum).
#[local] Abbreviation finditer_from := (finditer_from unicode_alnum).

Lemma lit_reads (l : list ascii) :
  forall pos prev rest (k : nat -> option N -> text -> option (nat * text)),
  exists prev', lit l pos prev (map N_of_ascii l ++ rest)%list k = k (pos + length l) prev' rest.
Proof.
  induction l as [| c l IH]; intros pos prev rest k; simpl.
  - exists prev. now rewrite Nat.add_0_r.
  - rewrite N.eqb_refl. destruct (IH (S pos) (Some (N_of_ascii c)) rest k) as [prev' ->].
    exists prev'. f_equal. lia.
Qed.

Lemma star_returns (p : N -> bool) (k : nat -> option N -> text -> option (nat * text)) :
  (forall pos prev s, is_Some (k pos prev s)) ->
  forall s pos prev, is_Some (star p pos prev s k).
Proof.
  intros Hk. induction s as [| c s IH]; intros pos prev; simpl; [apply Hk |].
  destruct (p c); [| apply Hk].
  destruct (star p (S pos) (Some c) s k); [eauto | apply Hk].
Qed.

Lemma children_match (c : N) (post : text) pos prev :
  is_word unicode_alnum c = true ->
  is_Some (match_at (children_pattern unicode_alnum) pos prev
             (of_string "React.Children." ++ c :: post)%list).
Proof.
  intros Hc. unfold Re.match_at, children_pattern. cbn [Re.run]. unfold of_string.
  match goal with
  | |- is_Some (lit ?l _ _ _ ?k) =>
      destruct (lit_reads l pos prev (c :: post) k) as [prev' ->]
  end.
  rewrite Hc. apply star_returns. intros pos' prev'' s. eauto.
Qed.

Lemma finditer_finds (r : regex) (rest : text) :
  (forall pos prev, is_Some (match_at r pos prev rest)) ->
  forall pre pos prev, finditer_from r pos prev (pre ++ rest)%list 0 <> [].
Proof.
  intros Hmatch. induction pre as [| c pre IH]; intros pos prev.
  - simpl. destruct (Hmatch pos prev) as [[e g] Hm].
    destruct rest; simpl; rewrite Hm; discriminate.
  - cbn [app Re.finditer_from].
    destruct (match_at r pos prev (c :: pre ++ rest)) as [[e g] |]; [discriminate |].
    apply IH.
Qed.

(** X19. Any use of a helper of [React.Children] makes the lexical
    extractor report [React.Children.map]: it is enough that the text
    holds [React.Children.] followed by a word character somewhere,
    whatever the helper is. *)
Theorem any_children_helper_is_reported_as_map (bs : list byte) (pre post : text) (c : N) :
  read_text bs = (pre ++ of_string "React.Children." ++ c :: post)%list ->
  is_word unicode_alnum c = true ->
  exists calls,
    extract_api_calls_regex unicode_alnum (Content bs) = inr calls
    /\ In "React.Children.map" calls.
Proof.
  intros Hcode Hc. unfold extract_api_calls_regex. cbn [read_code bind ret]. rewrite Hcode.
  eexists. split; [reflexivity |]. apply list_elem_of_In, PyFacts.elem_of_sorted_set.
  unfold regex_symbols.
  assert (Hsearch : search unicode_alnum (children_pattern unicode_alnum)
                      (pre ++ of_string "React.Children." ++ c :: post)%list = true).
  { unfold search, finditer.
    pose proof (finditer_finds (children_pattern unicode_alnum)
                  (of_string "React.Children." ++ c :: post)%list
                  (fun pos prev => children_match c post pos prev Hc) pre 0 None) as Hne.
    now destruct (finditer_from _ _ _ _ _). }
  rewrite Hsearch. unfold add. apply elem_of_union_l. now apply elem_of_singleton.
Qed.

End Matching.
End LexicalFacts.

(** ** The lexical extractor finds what is written *)
Module WrittenFacts.
Import Re Analyzer Stated Written.

Lemma clash_differs (a b : text) :
  clash a b = true -> forall x y, (a ++ x)%list <> (b ++ y)%list.
Proof.
  revert b. induction a as [| c a IH]; intros [| d b] H x y E; simpl in H; try discriminate.
  simpl in E. injection E as -> E. rewrite N.eqb_refl in H. simpl in H.
  exact (IH _ H _ _ E).
Qed.

Lemma suffixes_in (P : text) :
  forall t T2, t = (P ++ T2)%list -> T2 <> [] -> In T2 (suffixes t).
Proof.
  induction P as [| c P IH]; intros t T2 -> HT.
  - simpl. destruct T2; [done | now left].
  - simpl. right. now apply IH.
Qed.

(** What is left of the white space and the tail of a match does not
    begin a text that [F] begins. *)
Lemma apart_after_head (F ws B l T2 rest x : text) :
  match F with c :: _ => negb (is_space c) | [] => false end = true ->
  forallb (clash F) (suffixes B) = true ->
  spaces ws ->
  (ws ++ B)%list = (l ++ T2)%list -> T2 <> [] ->
  (T2 ++ rest)%list = (F ++ x)%list -> False.
Proof.
  intros HF HB Hws E HT Eq. rewrite forallb_forall in HB.
  assert (Hin : forall P, B = (P ++ T2)%list -> False).
  { intros P HP. apply (clash_differs F T2 (HB _ (suffixes_in P _ _ HP HT)) x rest).
    now symmetry. }
  apply app_eq_app in E as [l' [[-> ->] | [-> E]]].
  - destruct l' as [| c l']; [now apply (Hin []) |].
    apply Forall_app in Hws as [_ Hws]. apply Forall_cons in Hws as [Hc _].
    destruct F as [| d F]; [discriminate |]. simpl in Eq. injection Eq as -> _.
    rewrite Hc in HF. discriminate.
  - exact (Hin _ E).
Qed.

(** No match of a pattern with these parts starts before a text that
    begins with [F] and ends inside it. *)
Lemma apart_no_start (p : parts) (F T front T2 rest x : text) :
  apart p F = true -> shaped p T ->
  T = (front ++ T2)%list -> front <> [] -> T2 <> [] ->
  (T2 ++ rest)%list = (F ++ x)%list -> False.
Proof.
  unfold apart. intros Hap (A & ws & B & HA & HB & Hws & ->) E Hfront HT Eq.
  apply andb_prop in Hap as [Hap HBs]. apply andb_prop in Hap as [HF HAs].
  rewrite forallb_forall in HAs, HBs. specialize (HAs _ HA). specialize (HBs _ HB).
  apply app_eq_app in E as [l [[-> ->] | [-> E]]].
  - destruct l as [| c l].
    + simpl in Eq. exact (apart_after_head F ws B [] _ rest x HF HBs Hws eq_refl HT Eq).
    + destruct front as [| d front]; [done |]. simpl in HAs.
      rewrite forallb_forall in HAs.
      assert (Hl : c :: l <> []) by discriminate.
      apply (clash_differs F (c :: l) (HAs _ (suffixes_in front _ _ eq_refl Hl))
               x ((ws ++ B) ++ rest)%list).
      rewrite <- Eq. now rewrite <- !app_assoc.
  - exact (apart_after_head F ws B l T2 rest x HF HBs Hws E HT Eq).
Qed.

Section Finding.
Variable unicode_alnum : N -> bool.

#[local] Abbreviation run := (run unicode_alnum).
#[local] Abbreviation match_at := (match_at unicode_alnum).
#[local] Abbreviation finditer_from := (finditer_from unicode_alnum).
#[local] Abbreviation finditer := (finditer unicode_alnum).
#[local] Abbreviation written := (written unicode_alnum).
#[local] Abbreviation matches_shaped := (matches_shaped unicode_alnum).
#[local] Abbreviation found_by := (found_by unicode_alnum).

(** *** The pieces of a pattern on a text that fits *)

Lemma lit_here (l : string) (rest : text) (k : nat -> option N -> text -> option (nat * text))
    x pos prev :
  (forall prev', k (pos + length (of_string l)) prev' rest = Some x) ->
  lit (list_ascii_of_string l) pos prev (of_string l ++ rest)%list k = Some x.
Proof.
  unfold of_string. revert pos prev.
  induction (list_ascii_of_string l) as [| c cs IH]; intros pos prev Hk; simpl.
  - simpl in Hk. rewrite Nat.add_0_r in Hk. apply Hk.
  - rewrite N.eqb_refl. apply IH. intros prev'. simpl in Hk.
    rewrite <- Nat.add_succ_comm in Hk. apply Hk.
Qed.

Lemma lit_clash (l : string) (s rest : text) (k : nat -> option N -> text -> option (nat * text))
    pos prev :
  clash (of_string l) s = true ->
  lit (list_ascii_of_string l) pos prev (s ++ rest)%list k = None.
Proof.
  unfold of_string. revert pos prev s.
  induction (list_ascii_of_string l) as [| c cs IH]; intros pos prev s H; simpl in H.
  - discriminate.
  - destruct s as [| d s]; [discriminate |]. simpl.
    destruct (N.eqb_spec (N_of_ascii c) d) as [_ | _]; [| reflexivity].
    simpl in H. now apply IH.
Qed.

Lemma star_exact (p : N -> bool) (s : text) :
  forall pos prev (k : nat -> option N -> text -> option (nat * text)) x,
    star p pos prev s k = Some x ->
    exists ws s' prev',
      s = (ws ++ s')%list /\ Forall (fun c => p c = true) ws
      /\ k (pos + length ws) prev' s' = Some x.
Proof.
  induction s as [| c s IH]; intros pos prev k x H; simpl in H.
  - exists [], [], prev. rewrite Nat.add_0_r. auto.
  - assert (Hstop : k pos prev (c :: s) = Some x ->
              exists ws s' prev',
                (c :: s) = (ws ++ s')%list /\ Forall (fun c => p c = true) ws
                /\ k (pos + length ws) prev' s' = Some x).
    { intros Hk. exists [], (c :: s), prev. rewrite Nat.add_0_r. auto. }
    destruct (p c) eqn:Hp; [| auto].
    destruct (star p (S pos) (Some c) s k) eqn:E; [| auto].
    injection H as ->. apply IH in E as (ws & s' & prev' & -> & Hws & Hk).
    exists (c :: ws), s', prev'. simpl. rewrite <- Nat.add_succ_comm. auto.
Qed.

Lemma star_here (p : N -> bool) (ws : text) :
  forall (rest : text) (k : nat -> option N -> text -> option (nat * text)) x pos prev,
    Forall (fun c => p c = true) ws ->
    match rest with c :: _ => p c = false | [] => True end ->
    (forall prev', k (pos + length ws) prev' rest = Some x) ->
    star p pos prev (ws ++ rest)%list k = Some x.
Proof.
  induction ws as [| c ws IH]; intros rest k x pos prev Hws Hrest Hk.
  - simpl in *. rewrite Nat.add_0_r in Hk.
    destruct rest as [| d rest]; simpl; [apply Hk |]. rewrite Hrest. apply Hk.
  - apply Forall_cons in Hws as [Hc Hws]. simpl. rewrite Hc.
    rewrite (IH rest k x (S pos) (Some c) Hws Hrest); [reflexivity |].
    intros prev'. simpl in Hk. rewrite <- Nat.add_succ_comm in Hk. apply Hk.
Qed.

Lemma alts_here (rest : list string) :
  forall a m (post : text) cap (k : K) x pos prev,
    In m (a :: rest) ->
    (forall b, In b (a :: rest) -> b = m \/ clash (of_string b) (of_string m) = true) ->
    (forall prev', k (pos + length (of_string m)) prev' post cap = Some x) ->
    run (alts a rest) pos prev (of_string m ++ post)%list cap k = Some x.
Proof.
  induction rest as [| b rest IH]; intros a m post cap k x pos prev Hin Hclash Hk.
  - destruct Hin as [-> | []]. simpl. now apply lit_here.
  - cbn [alts Re.run].
    destruct (Hclash a (or_introl eq_refl)) as [-> | Hc].
    + rewrite (lit_here m post _ x pos prev); [reflexivity | exact Hk].
    + rewrite lit_clash by exact Hc. apply IH; [| intros; apply Hclash; now right | exact Hk].
      destruct Hin as [-> | Hin]; [| exact Hin].
      exfalso. revert Hc. clear. induction (of_string m) as [| c l IHl]; simpl; [done |].
      now rewrite N.eqb_refl.
Qed.

Lemma group_here (names : list string) (m : string) :
  told_apart names = true -> In m names ->
  forall a rest, names = a :: rest ->
  forall (post : text) cap (k : K) x pos prev,
    (forall prev', k (pos + length (of_string m)) prev' post (Some (of_string m)) = Some x) ->
    run (Group (alts a rest)) pos prev (of_string m ++ post)%list cap k = Some x.
Proof.
  intros Htold Hin a rest -> post cap k x pos prev Hk. cbn [Re.run].
  apply alts_here; [exact Hin | |].
  - intros b Hb. unfold told_apart in Htold. rewrite forallb_forall in Htold.
    specialize (Htold _ Hin). rewrite forallb_forall in Htold. specialize (Htold _ Hb).
    apply orb_prop in Htold as [Heq | Hc]; [left; now apply String.eqb_eq | now right].
  - intros prev'.
    replace (pos + length (of_string m) - pos) with (length (of_string m)) by lia.
    rewrite firstn_app, Nat.sub_diag, firstn_all. simpl. rewrite app_nil_r. apply Hk.
Qed.

(** *** A match that is found by [finditer] *)

Lemma finditer_reaches (r : regex) (here : text) (g : text) (at_ : option N) (pre : text) :
  forall pos prev skip,
    skip <= length pre ->
    at_ = from_option Some prev (last pre) ->
    (exists e, match_at r (pos + length pre) at_ here = Some (e, g)) ->
    (forall pre1 c pre2 pos0 prev0 e0 g0,
        pre = (pre1 ++ c :: pre2)%list ->
        match_at r pos0 prev0 (c :: pre2 ++ here)%list = Some (e0, g0) ->
        e0 <= pos0 + S (length pre2)) ->
    exists m, In m (finditer_from r pos prev (pre ++ here)%list skip) /\ m_group1 m = g.
Proof.
  induction pre as [| c pre IH]; intros pos prev skip Hskip Hat [e He] Hno.
  - simpl in *. rewrite Nat.add_0_r in He. subst at_.
    replace skip with 0 by lia.
    destruct here as [| d here]; simpl; rewrite He; eexists; (split; [now left | reflexivity]).
  - assert (Hat' : at_ = from_option Some (Some c) (last pre)).
    { rewrite Hat, last_cons. now destruct (last pre). }
    assert (He' : exists e, match_at r (S pos + length pre) at_ here = Some (e, g)).
    { exists e. simpl in He. now rewrite <- Nat.add_succ_comm in He. }
    assert (Hno' : forall pre1 c' pre2 pos0 prev0 e0 g0,
               pre = (pre1 ++ c' :: pre2)%list ->
               match_at r pos0 prev0 (c' :: pre2 ++ here)%list = Some (e0, g0) ->
               e0 <= pos0 + S (length pre2)).
    { intros pre1 c' pre2 pos0 prev0 e0 g0 -> Hm.
      exact (Hno (c :: pre1) c' pre2 pos0 prev0 e0 g0 eq_refl Hm). }
    cbn [app Re.finditer_from]. destruct skip as [| n].
    + destruct (match_at r pos prev (c :: pre ++ here)) as [[e0 g0] |] eqn:E.
      * pose proof (Hno [] c pre pos prev e0 g0 eq_refl E) as Hle.
        destruct (IH (S pos) (Some c) (e0 - pos - 1) ltac:(lia) Hat' He' Hno')
          as (m & Hm & Hg).
        exists m. split; [now right | exact Hg].
      * exact (IH (S pos) (Some c) 0 ltac:(lia) Hat' He' Hno').
    + simpl in Hskip. exact (IH (S pos) (Some c) n ltac:(lia) Hat' He' Hno').
Qed.

Lemma written_is_found (pattern : regex) (p : parts) (F x pre g : text) :
  matches_shaped pattern p ->
  apart p F = true ->
  (exists e, match_at pattern (length pre) (last pre) (F ++ x)%list = Some (e, g)) ->
  exists m, In m (finditer pattern (pre ++ F ++ x)%list) /\ m_group1 m = g.
Proof.
  intros Hshape Hap Hhere. unfold Re.finditer.
  apply (finditer_reaches pattern (F ++ x)%list g (last pre) pre 0 None 0);
    [lia | now destruct (last pre) | exact Hhere |].
  intros pre1 c pre2 pos0 prev0 e0 g0 _ Hm.
  destruct (Hshape _ _ _ _ _ Hm) as (T & rest & E & -> & HT).
  destruct (le_lt_dec (length T) (S (length pre2))) as [Hle | Hlt]; [lia |]. exfalso.
  change (c :: pre2 ++ F ++ x)%list with ((c :: pre2) ++ F ++ x)%list in E.
  apply app_eq_app in E as [l [[E _] | [-> E]]].
  - apply (f_equal (@length N)) in E. rewrite length_app in E. simpl in E. lia.
  - apply (apart_no_start p F _ (c :: pre2) l rest x Hap HT eq_refl); [done | | now symmetry].
    intros ->. rewrite app_nil_r in Hlt. simpl in Hlt. lia.
Qed.

(** *** What the matches of each pattern consist of *)

Lemma in_after owner names m :
  In m names -> In (of_string owner ++ of_string m)%list (after owner names).
Proof. intros H. unfold after. apply in_map_iff. eauto. Qed.

Ltac lengths :=
  unfold of_string; rewrite ?length_app, ?length_map; simpl; rewrite ?length_map; lia.

Lemma reactdom_shaped : matches_shaped reactdom_pattern reactdom_parts.
Proof.
  intros pos prev s e g H. unfold Re.match_at, reactdom_pattern in H. cbn [Re.run] in H.
  apply AnalyzerSpec.lit_matches in H as (prev1 & s1 & -> & H).
  apply AnalyzerSpec.alts_run in H as (name & prev2 & s2 & Hin & -> & H).
  apply star_exact in H as (ws & s3 & prev3 & -> & Hws & H).
  apply AnalyzerSpec.lit_matches in H as (prev4 & s4 & -> & H).
  injection H as <- _.
  exists ((of_string "ReactDOM." ++ of_string name) ++ ws ++ [0x28%N])%list, s4.
  split; [| split].
  - rewrite <- ?app_assoc. reflexivity.
  - lengths.
  - exists (of_string "ReactDOM." ++ of_string name)%list, ws, [0x28%N].
    repeat split; [now apply (in_after "ReactDOM.") | now left | exact Hws].
Qed.

Lemma react_shaped : matches_shaped react_pattern react_parts.
Proof.
  intros pos prev s e g H. unfold Re.match_at, react_pattern in H. cbn [Re.run] in H.
  apply AnalyzerSpec.lit_matches in H as (prev1 & s1 & -> & H).
  apply AnalyzerSpec.alts_run in H as (name & prev2 & s2 & Hin & -> & H).
  apply star_exact in H as (ws & s3 & prev3 & -> & Hws & H).
  destruct s3 as [| c s4]; [discriminate |].
  destruct (in_parens c) eqn:Hc; [| discriminate].
  injection H as <- _.
  exists ((of_string "React." ++ of_string name) ++ ws ++ [c])%list, s4.
  split; [| split].
  - rewrite <- ?app_assoc. reflexivity.
  - lengths.
  - exists (of_string "React." ++ of_string name)%list, ws, [c].
    repeat split; [now apply (in_after "React.") | | exact Hws].
    unfold in_parens in Hc. apply orb_prop in Hc as [Hc | Hc]; apply N.eqb_eq in Hc as ->;
      [now left | right; now left].
Qed.

Lemma hooks_shaped : matches_shaped hooks_pattern hooks_parts.
Proof.
  intros pos prev s e g H. unfold Re.match_at, hooks_pattern in H. cbn [Re.run] in H.
  destruct (xorb _ _); [| discriminate].
  apply AnalyzerSpec.alts_run in H as (name & prev2 & s2 & Hin & -> & H).
  apply star_exact in H as (ws & s3 & prev3 & -> & Hws & H).
  apply AnalyzerSpec.lit_matches in H as (prev4 & s4 & -> & H).
  injection H as <- _.
  exists (of_string name ++ ws ++ [0x28%N])%list, s4.
  split; [| split].
  - rewrite <- ?app_assoc. reflexivity.
  - lengths.
  - exists (of_string name), ws, [0x28%N].
    repeat split; [now apply (in_after "") | now left | exact Hws].
Qed.

Lemma new_api_shaped : matches_shaped new_api_pattern new_api_parts.
Proof.
  intros pos prev s e g H. unfold Re.match_at, new_api_pattern in H. cbn [Re.run] in H.
  destruct (xorb _ _); [| discriminate].
  apply AnalyzerSpec.alts_run in H as (name & prev2 & s2 & Hin & -> & H).
  apply star_exact in H as (ws & s3 & prev3 & -> & Hws & H).
  apply AnalyzerSpec.lit_matches in H as (prev4 & s4 & -> & H).
  injection H as <- _.
  exists (of_string name ++ ws ++ [0x28%N])%list, s4.
  split; [| split].
  - rewrite <- ?app_assoc. reflexivity.
  - lengths.
  - exists (of_string name), ws, [0x28%N].
    repeat split; [now apply (in_after "") | now left | exact Hws].
Qed.

Lemma class_shaped : matches_shaped class_pattern class_parts.
Proof.
  intros pos prev s e g H. unfold Re.match_at, class_pattern in H. cbn [Re.run] in H.
  apply AnalyzerSpec.lit_matches in H as (prev1 & s1 & -> & H).
  destruct s1 as [| c s1]; [discriminate |].
  destruct (is_space c) eqn:Hc; [| discriminate].
  apply star_exact in H as (ws & s3 & prev3 & -> & Hws & H).
  apply AnalyzerSpec.lit_matches in H as (prev4 & s4 & -> & H).
  apply AnalyzerSpec.alts_run in H as (name & prev2 & s2 & Hin & -> & H).
  injection H as <- _.
  exists (of_string "extends" ++ (c :: ws) ++ of_string "React." ++ of_string name)%list, s2.
  split; [| split].
  - rewrite <- ?app_assoc. simpl. rewrite <- ?app_assoc. reflexivity.
  - lengths.
  - exists (of_string "extends"), (c :: ws), (of_string "React." ++ of_string name)%list.
    repeat split; [now left | now apply (in_after "React.") |].
    now apply Forall_cons.
Qed.

Lemma component_shaped : matches_shaped component_pattern component_parts.
Proof.
  intros pos prev s e g H. unfold Re.match_at, component_pattern in H. cbn [Re.run] in H.
  apply AnalyzerSpec.lit_matches in H as (prev1 & s1 & -> & H).
  apply AnalyzerSpec.alts_run in H as (name & prev2 & s2 & Hin & -> & H).
  injection H as <- _.
  exists (of_string "React." ++ of_string name)%list, s2.
  split; [| split].
  - rewrite <- ?app_assoc. reflexivity.
  - lengths.
  - exists (of_string "React." ++ of_string name)%list, [], [].
    repeat split; [now apply (in_after "React.") | now left | constructor |].
    now rewrite app_nil_r.
Qed.

(** *** The match at the place where a symbol is written *)

Lemma seq_lit_here (l : string) (r2 : regex) (rest : text) cap (k : K) x pos prev :
  (forall prev', run r2 (pos + length (of_string l)) prev' rest cap k = Some x) ->
  run (Seq (Lit l) r2) pos prev (of_string l ++ rest)%list cap k = Some x.
Proof. intros H. cbn [Re.run]. apply lit_here. exact H. Qed.

Lemma seq_group_here (names : list string) (m : string) (r2 : regex) :
  told_apart names = true -> In m names ->
  forall a rest, names = a :: rest ->
  forall (post : text) cap (k : K) x pos prev,
    (forall prev', run r2 (pos + length (of_string m)) prev' post (Some (of_string m)) k
                   = Some x) ->
    run (Seq (Group (alts a rest)) r2) pos prev (of_string m ++ post)%list cap k = Some x.
Proof.
  intros Htold Hin a rest E post cap k x pos prev Hk.
  change (run (Group (alts a rest)) pos prev (of_string m ++ post)%list cap
            (fun pos' prev' s' cap' => run r2 pos' prev' s' cap' k) = Some x).
  now apply (group_here names m).
Qed.

Lemma seq_star_here (p : N -> bool) (r2 : regex) (ws rest : text) cap (k : K) x pos prev :
  Forall (fun c => p c = true) ws ->
  match rest with c :: _ => p c = false | [] => True end ->
  (forall prev', run r2 (pos + length ws) prev' rest cap k = Some x) ->
  run (Seq (Star p) r2) pos prev (ws ++ rest)%list cap k = Some x.
Proof. intros Hws Hrest H. cbn [Re.run]. now apply star_here. Qed.

Lemma seq_plus_here (p : N -> bool) (r2 : regex) (ws rest : text) cap (k : K) x pos prev :
  Forall (fun c => p c = true) ws -> ws <> [] ->
  match rest with c :: _ => p c = false | [] => True end ->
  (forall prev', run r2 (pos + length ws) prev' rest cap k = Some x) ->
  run (Seq (Plus p) r2) pos prev (ws ++ rest)%list cap k = Some x.
Proof.
  intros Hws Hne Hrest H. cbn [Re.run].
  destruct ws as [| c ws]; [done |]. apply Forall_cons in Hws as [Hc Hws].
  cbn [app]. rewrite Hc. apply star_here; [exact Hws | exact Hrest |].
  intros prev'. simpl in H. rewrite <- Nat.add_succ_comm in H. apply H.
Qed.

Lemma seq_wordb_here (r2 : regex) (s : text) cap (k : K) x pos prev :
  is_word_at unicode_alnum prev = false ->
  is_word_at unicode_alnum (head s) = true ->
  run r2 pos prev s cap k = Some x ->
  run (Seq WordB r2) pos prev s cap k = Some x.
Proof. intros Hprev Hs H. cbn [Re.run]. now rewrite Hprev, Hs. Qed.

Lemma word_begins names m rest :
  begin_words unicode_alnum names = true -> In m names ->
  is_word_at unicode_alnum (head (of_string m ++ rest)%list) = true.
Proof.
  unfold begin_words. rewrite forallb_forall. intros H Hin. specialize (H _ Hin).
  destruct (of_string m); [discriminate | exact H].
Qed.

Ltac paren_here post :=
  cbn [Re.run]; apply (lit_here "(" post); intros ?; reflexivity.

Lemma reactdom_here m ws post pos prev :
  In m (methods_of "ReactDOM") -> spaces ws ->
  exists e,
    match_at reactdom_pattern pos prev
      ((of_string "ReactDOM." ++ of_string m) ++ ws ++ 0x28%N :: post)%list
    = Some (e, of_string m).
Proof.
  intros Hin Hws. eexists. unfold Re.match_at, reactdom_pattern. rewrite <- app_assoc.
  apply seq_lit_here. intros prev1.
  apply (seq_group_here (methods_of "ReactDOM") m);
    [vm_compute; reflexivity | exact Hin | reflexivity |].
  intros prev2. apply seq_star_here; [exact Hws | reflexivity |]. intros prev3.
  paren_here post.
Qed.

Lemma react_here m ws c post pos prev :
  In m (methods_of "React") -> spaces ws -> in_parens c = true ->
  exists e,
    match_at react_pattern pos prev
      ((of_string "React." ++ of_string m) ++ ws ++ c :: post)%list
    = Some (e, of_string m).
Proof.
  intros Hin Hws Hc. eexists. unfold Re.match_at, react_pattern. rewrite <- app_assoc.
  apply seq_lit_here. intros prev1.
  apply (seq_group_here (methods_of "React") m);
    [vm_compute; reflexivity | exact Hin | reflexivity |].
  intros prev2. apply seq_star_here; [exact Hws | |].
  - unfold in_parens in Hc. apply orb_prop in Hc as [Hc' | Hc']; apply N.eqb_eq in Hc' as ->;
      reflexivity.
  - intros prev3. cbn [Re.run]. rewrite Hc. reflexivity.
Qed.

Lemma hooks_here m ws post pos prev :
  In m REACT_HOOKS -> is_word_at unicode_alnum prev = false -> spaces ws ->
  exists e,
    match_at hooks_pattern pos prev (of_string m ++ ws ++ 0x28%N :: post)%list
    = Some (e, of_string m).
Proof.
  intros Hin Hprev Hws. eexists. unfold Re.match_at, hooks_pattern.
  apply seq_wordb_here;
    [exact Hprev | apply (word_begins REACT_HOOKS); [reflexivity | exact Hin] |].
  apply (seq_group_here REACT_HOOKS m); [vm_compute; reflexivity | exact Hin | reflexivity |].
  intros prev2. apply seq_star_here; [exact Hws | reflexivity |]. intros prev3.
  paren_here post.
Qed.

Lemma new_api_here m ws post pos prev :
  In m REACT_IMPORTS -> is_word_at unicode_alnum prev = false -> spaces ws ->
  exists e,
    match_at new_api_pattern pos prev (of_string m ++ ws ++ 0x28%N :: post)%list
    = Some (e, of_string m).
Proof.
  intros Hin Hprev Hws. eexists. unfold Re.match_at, new_api_pattern.
  apply seq_wordb_here;
    [exact Hprev | apply (word_begins REACT_IMPORTS); [reflexivity | exact Hin] |].
  apply (seq_group_here REACT_IMPORTS m); [vm_compute; reflexivity | exact Hin | reflexivity |].
  intros prev2. apply seq_star_here; [exact Hws | reflexivity |]. intros prev3.
  paren_here post.
Qed.

Lemma class_here m ws post pos prev :
  In m CLASS_NAMES -> spaces ws -> ws <> [] ->
  exists e,
    match_at class_pattern pos prev
      (of_string "extends" ++ ws ++ (of_string "React." ++ of_string m) ++ post)%list
    = Some (e, of_string m).
Proof.
  intros Hin Hws Hne. eexists. unfold Re.match_at, class_pattern. rewrite <- app_assoc.
  apply seq_lit_here. intros prev1.
  apply seq_plus_here; [exact Hws | exact Hne | reflexivity |]. intros prev2.
  apply seq_lit_here. intros prev3.
  apply (group_here CLASS_NAMES m); [vm_compute; reflexivity | exact Hin | reflexivity |].
  intros prev4. reflexivity.
Qed.

Lemma component_here m post pos prev :
  In m ELEMENT_NAMES ->
  exists e,
    match_at component_pattern pos prev
      ((of_string "React." ++ of_string m) ++ post)%list
    = Some (e, of_string m).
Proof.
  intros Hin. eexists. unfold Re.match_at, component_pattern. rewrite <- app_assoc.
  apply seq_lit_here. intros prev1.
  apply (group_here ELEMENT_NAMES m); [vm_compute; reflexivity | exact Hin | reflexivity |].
  intros prev4. reflexivity.
Qed.

(** *** From the matches to the symbols *)

Lemma add_matches_elem owner pattern code acc x :
  x ∈ add_matches unicode_alnum owner pattern code acc
  <-> x ∈ acc \/ found_by owner pattern code x.
Proof.
  unfold add_matches, Written.found_by.
  generalize (finditer pattern code). intros ms. revert acc.
  induction ms as [| m ms IH]; intros acc; simpl.
  - split; [auto | intros [H | (m & [] & _)]; exact H].
  - rewrite IH. unfold add. rewrite elem_of_union, elem_of_singleton. split.
    + intros [[-> | H] | (m' & Hin & E)]; eauto 6.
    + intros [H | (m' & [<- | Hin] & E)]; eauto 6.
Qed.

Lemma regex_symbols_found code x :
  found_by "ReactDOM." reactdom_pattern code x
  \/ found_by "React." react_pattern code x
  \/ found_by "" hooks_pattern code x
  \/ found_by "" new_api_pattern code x
  \/ found_by "React." class_pattern code x
  \/ found_by "React." component_pattern code x
  \/ (search unicode_alnum (children_pattern unicode_alnum) code = true
      /\ x = "React.Children.map") ->
  x ∈ regex_symbols unicode_alnum code.
Proof.
  intros H. unfold regex_symbols. cbv zeta.
  assert (Hin : (search unicode_alnum (children_pattern unicode_alnum) code = true
                 /\ x = "React.Children.map")
                \/ x ∈ add_matches unicode_alnum "React." component_pattern code
                     (add_matches unicode_alnum "React." class_pattern code
                        (add_matches unicode_alnum "" new_api_pattern code
                           (add_matches unicode_alnum "" hooks_pattern code
                              (add_matches unicode_alnum "React." react_pattern code
                                 (add_matches unicode_alnum "ReactDOM." reactdom_pattern
                                    code ∅)))))).
  { rewrite !add_matches_elem. tauto. }
  destruct Hin as [[-> ->] | Hin].
  - unfold add. apply elem_of_union_l. now apply elem_of_singleton.
  - destruct (search _ _ _); [| exact Hin]. unfold add. now apply elem_of_union_r.
Qed.

(** Where a symbol is written, [finditer] has a match that adds it. *)
Lemma written_adds owner pattern (p : parts) (names : list string) (m : string)
    (F x pre : text) :
  matches_shaped pattern p -> all_apart p = true -> In F (heads p) ->
  read_back names = true -> In m names ->
  (exists e, match_at pattern (length pre) (last pre) (F ++ x)%list = Some (e, of_string m)) ->
  found_by owner pattern (pre ++ F ++ x)%list (owner ++ m).
Proof.
  intros Hshape Hall HF Hback Hin Hhere.
  unfold all_apart in Hall. rewrite forallb_forall in Hall.
  destruct (written_is_found pattern p F x pre (of_string m) Hshape (Hall _ HF) Hhere)
    as (mt & Hmt & Hg).
  exists mt. split; [exact Hmt |]. rewrite Hg. f_equal.
  unfold read_back in Hback. rewrite forallb_forall in Hback.
  now apply String.eqb_eq, Hback.
Qed.

(** The lexical extractor has every symbol that is written in the text. *)
Lemma written_reported name code :
  written name code -> name ∈ regex_symbols unicode_alnum code.
Proof.
  intros H. apply regex_symbols_found. destruct H as
    [m pre ws post Hin Hws | m pre ws c post Hin Hws Hc | m pre ws post Hin Hprev Hws
    | m pre ws post Hin Hprev Hws | m pre ws post Hin Hws Hne | m pre post Hin
    | pre c post Hc].
  - left. rewrite (app_assoc (of_string "ReactDOM.") (of_string m)).
    apply (written_adds "ReactDOM." _ reactdom_parts (methods_of "ReactDOM"));
      [exact reactdom_shaped | vm_compute; reflexivity | now apply (in_after "ReactDOM.")
      | vm_compute; reflexivity | exact Hin | now apply reactdom_here].
  - right; left. rewrite (app_assoc (of_string "React.") (of_string m)).
    apply (written_adds "React." _ react_parts (methods_of "React"));
      [exact react_shaped | vm_compute; reflexivity | now apply (in_after "React.")
      | vm_compute; reflexivity | exact Hin | now apply react_here].
  - do 2 right; left.
    apply (written_adds "" _ hooks_parts REACT_HOOKS m (of_string m));
      [exact hooks_shaped | vm_compute; reflexivity | exact (in_after "" _ _ Hin)
      | vm_compute; reflexivity | exact Hin | now apply hooks_here].
  - do 3 right; left.
    apply (written_adds "" _ new_api_parts REACT_IMPORTS m (of_string m));
      [exact new_api_shaped | vm_compute; reflexivity | exact (in_after "" _ _ Hin)
      | vm_compute; reflexivity | exact Hin | now apply new_api_here].
  - do 4 right; left. rewrite (app_assoc (of_string "React.") (of_string m)).
    apply (written_adds "React." _ class_parts CLASS_NAMES m (of_string "extends"));
      [exact class_shaped | vm_compute; reflexivity | now left
      | vm_compute; reflexivity | exact Hin | now apply class_here].
  - do 5 right; left. rewrite (app_assoc (of_string "React.") (of_string m)).
    apply (written_adds "React." _ component_parts ELEMENT_NAMES);
      [exact component_shaped | vm_compute; reflexivity | now apply (in_after "React.")
      | vm_compute; reflexivity | exact Hin | now apply component_here].
  - do 6 right. split; [| reflexivity]. unfold search, Re.finditer.
    pose proof (LexicalFacts.finditer_finds unicode_alnum (children_pattern unicode_alnum)
                  (of_string "React.Children." ++ c :: post)%list
                  (fun pos prev => LexicalFacts.children_match unicode_alnum c post pos prev Hc)
                  pre 0 None) as Hne.
    now destruct (Re.finditer_from _ _ _ _ _ _).
Qed.

Variable HAS_ESPRIMA : bool.
Variable parseScript parseModule : text -> option json.

#[local] Abbreviation extract_regex := (extract_api_calls_regex unicode_alnum).
#[local] Abbreviation extract_ast :=
  (extract_api_calls_ast unicode_alnum HAS_ESPRIMA parseScript parseModule).


End Finding.
End WrittenFacts.

(** ** More concrete inputs *)
Module MoreExamples.
Import Analyzer Checker Stated StatedMore Samples MoreSamples.

#[local] Abbreviation check_api := (check_api keep_text decimal_int keep_value scripted_index).
#[local] Abbreviation check_project :=
  (check_project keep_text decimal_int keep_value scripted_index).

(** A line end of two bytes between the letter [a] and the letters [é],
    the euro sign and an emoji, of two, three and four bytes. *)
Lemma utf8_text_is_read_up_to_line_ends_witness :
  map Strings.Byte.to_N crlf_file = utf8_encode [0x61; 13; 10; 0xE9; 0x20AC; 0x1F600]%N
  /\ Forall (fun c => is_scalar c = true) [0x61; 13; 10; 0xE9; 0x20AC; 0x1F600]%N
  /\ read_text crlf_file = [0x61; 10; 0xE9; 0x20AC; 0x1F600]%N.
Proof.
  assert (Hbytes : map Strings.Byte.to_N crlf_file
                   = utf8_encode [0x61; 13; 10; 0xE9; 0x20AC; 0x1F600]%N) by reflexivity.
  assert (Hscalar : Forall (fun c => is_scalar c = true) [0x61; 13; 10; 0xE9; 0x20AC; 0x1F600]%N)
    by (repeat constructor).
  split; [exact Hbytes |]. split; [exact Hscalar |].
  destruct (TextFacts.utf8_text_is_read_up_to_line_ends crlf_file _ Hbytes Hscalar) as [-> _].
  reflexivity.
Defined.

Lemma report_entries_have_the_keys_of_their_status_witness :
  decimal_int "18" = Some 18%Z
  /\ let syms := sorted_set (collect_calls mixed_usage) in
     exists r,
       check_project mixed_usage "17" "18" "react" []
       = (inr r, ([] ++ map (fun api_call => the_query keep_text api_call "react" 18) syms)%list)
       /\ Forall (fun e => has_keys (verdict e)) (entries r)
       /\ (forall st e, e ∈ bucket st r <-> e ∈ entries r /\ status (verdict e) = st)
       /\ (forall e, e ∈ entries r ->
             exists i sym,
               syms !! i = Some sym
               /\ verdict_symbol (verdict e) = Some sym
               /\ let answer :=
                    scripted_index
                      ([] ++ map (fun api_call => the_query keep_text api_call "react" 18)
                               (take i syms))%list
                      (the_query keep_text sym "react" 18) in
                  (answer = inr [] <->
                   status (verdict e) = breaking_change /\ confidence (verdict e) = None)
                  /\ ((exists err, answer = inl err) <-> status (verdict e) = error)).
Proof.
  split; [reflexivity |].
  exact (CheckerFacts.report_entries_have_the_keys_of_their_status keep_text decimal_int
           keep_value scripted_index mixed_usage "17" "18" "react" [] 18 eq_refl).
Defined.

Lemma report_lists_follow_the_usage_order_witness :
  decimal_int "18" = Some 18%Z
  /\ exists r log',
      check_project mixed_usage "17" "18" "react" [] = (inr r, log')
      /\ forall st,
          placed <$> bucket st r
          `sublist_of` (fun o => (fst o, Some (snd o))) <$> occurrences mixed_usage.
Proof.
  split; [reflexivity |].
  exact (CheckerFacts.report_lists_follow_the_usage_order keep_text decimal_int
           keep_value scripted_index mixed_usage "17" "18" "react" [] 18 eq_refl).
Defined.

Lemma non_integer_version_sends_no_query_witness :
  decimal_int "latest" = None
  /\ collect_calls mixed_usage <> ∅
  /\ exists e,
      check_project mixed_usage "17" "latest" "react" [] = (inl e, [])
      /\ exn_kind e = ValueError.
Proof.
  split; [reflexivity |].
  assert (Hne : collect_calls mixed_usage <> ∅).
  { intros H. assert (Hin : "useRef" ∈ collect_calls mixed_usage).
    { apply CheckerSpec.elem_of_collect_calls. exists "/app/src/index.js".
      apply CheckerSpec.elem_of_occurrences. exists ["ReactDOM.render"; "useRef"].
      split; [left | right; left]. }
    rewrite H in Hin. now apply not_elem_of_empty in Hin. }
  split; [exact Hne |].
  destruct (CheckerFacts.non_integer_version_sends_no_query keep_text decimal_int keep_value
              scripted_index mixed_usage "17" "latest" "react" [] eq_refl) as (_ & _ & Hraise).
  exact (Hraise Hne).
Defined.

Lemma usual_nodes_are_reported_witness :
  within (JDict render_member) gap_call_tree
  /\ exists found, walk gap_call_tree ∅ = inr found /\ "ReactDOM.render" ∈ found.
Proof.
  assert (Hin : within (JDict render_member) gap_call_tree).
  { eapply within_value; [right; right; left; reflexivity |].
    eapply within_item; [left; reflexivity |].
    eapply within_value; [right; left; reflexivity |].
    eapply within_value; [right; left; reflexivity |].
    apply within_here. }
  split; [exact Hin |].
  destruct (walk gap_call_tree ∅) as [e | found] eqn:Hwalk.
  - exfalso. revert Hwalk. vm_compute. discriminate.
  - exists found. split; [reflexivity |].
    destruct (WalkFacts.usual_nodes_are_reported gap_call_tree ∅ found render_member
                Hwalk Hin) as (Hmember & _).
    apply (Hmember "ReactDOM" "render").
    + reflexivity.
    + eexists. split; reflexivity.
    + eexists. split; reflexivity.
    + left. reflexivity.
Defined.

Lemma any_children_helper_is_reported_as_map_witness :
  read_text (list_byte_of_string children_only_source)
  = (of_string "x = " ++ of_string "React.Children." ++ 111%N :: of_string "nly(kids);")%list
  /\ Re.is_word ascii_only 111 = true
  /\ exists calls,
      extract_api_calls_regex ascii_only (Content (list_byte_of_string children_only_source))
      = inr calls
      /\ In "React.Children.map" calls.
Proof.
  assert (Hcode : read_text (list_byte_of_string children_only_source)
                  = (of_string "x = " ++ of_string "React.Children."
                       ++ 111%N :: of_string "nly(kids);")%list)
    by (vm_compute; reflexivity).
  split; [exact Hcode |]. split; [reflexivity |].
  exact (LexicalFacts.any_children_helper_is_reported_as_map ascii_only _ _ _ _ Hcode eq_refl).
Defined.

Lemma no_source_file_overwrites_another_witness :
  well_named sample_project = true
  /\ scan_project ascii_only true gap_call_parser gap_call_parser "/app" sample_project
     = omap (kept_entry (extract_api_calls_ast ascii_only true gap_call_parser gap_call_parser))
         (eligible_files "/app" sample_project)
  /\ List.NoDup
       (map fst (scan_project ascii_only true gap_call_parser gap_call_parser "/app"
                   sample_project)).
Proof.
  split; [reflexivity |].
  destruct (PathFacts.no_source_file_overwrites_another ascii_only true gap_call_parser
              gap_call_parser "/app" sample_project eq_refl) as (_ & _ & Hscan & Hkeys).
  split; [exact Hscan | exact Hkeys].
Defined.


End MoreExamples.
